(** * skale-consensus: the per-chain driver, the block wire format and the
      transport deferral plane, embedded and checked against the specification.

    Sources embedded here:
    - [chains/Schain.cpp]               (module [Driver])
    - [network/TransportNetwork.cpp]    (module [Transport])
    - [datastructures/CommittedBlock.cpp] (module [Wire])

    Unsigned 64-bit quantities ([block_id], [schain_index], rounds, time
    stamps, [size_t]) are integers in [Z] together with their wrap-around
    ([wrap64]).  Methods that mutate the object or may throw are functions in
    a state-and-exception monad over the object's fields. *)

From Stdlib Require Import ZArith Lia List Bool String Ascii DecimalString.
From stdpp Require Import base gmap list list_numbers sorting.
Import ListNotations.

#[local] Open Scope Z_scope.

(** * Part I: the embedding *)

(** ** Machine integers *)

Module U64.

Definition modulus : Z := 2 ^ 64.
Definition max : Z := modulus - 1.

(** Result of an arithmetic operation on [uint64_t]. *)
Definition wrap64 (x : Z) : Z := x mod modulus.

(** Truncation performed when a [uint64_t] is passed as [uint32_t]. *)
Definition wrap32 (x : Z) : Z := x mod 2 ^ 32.

(** The values a [uint64_t] can hold. *)
Definition u64 (x : Z) : Prop := 0 <= x < modulus.

End U64.
Export U64.

(** ** Exceptions and the state-and-exception monad *)

(** The exception kinds the embedded code raises or handles.  [ASSERT],
    [CHECK_STATE] and [CHECK_ARGUMENT] are macros of [SkaleCommon.h], which is
    not among the sources: a failed [ASSERT] is the exception
    [AssertionFailure], [CHECK_STATE] raises [InvalidStateException] and
    [CHECK_ARGUMENT] raises [InvalidArgumentException].  [OtherException]
    is any exception raised inside a collaborator or a library (data base,
    host, agent, JSON parser, allocation).
    [Crash] stands for undefined behaviour (a call through a null pointer, an
    index outside a vector);
    no handler intercepts it. *)
Inductive exn : Type :=
| ExitRequestedException
| InvalidStateException
| InvalidArgumentException
| AssertionFailure
| ParsingException
| OtherException
| Crash.

Inductive outcome (A : Type) : Type :=
| Returned (a : A)
| Thrown (e : exn).
Arguments Returned {A} a.
Arguments Thrown {A} e.

Definition returns {A} (o : outcome A) : bool :=
  match o with Returned _ => true | Thrown _ => false end.

(** A nullable pointer is an [option]; [non_null p] is the test [p != nullptr]. *)
Definition non_null {A} (p : option A) : bool :=
  match p with Some _ => true | None => false end.

Module Eff.
Section Monad.
Context {St : Type}.

Definition M (A : Type) : Type := St -> outcome A * St.

Definition ret {A} (a : A) : M A := fun s => (Returned a, s).

Definition throw {A} (e : exn) : M A := fun s => (Thrown e, s).

Definition bind {A B} (m : M A) (k : A -> M B) : M B :=
  fun s =>
    match m s with
    | (Returned a, s') => k a s'
    | (Thrown e, s') => (Thrown e, s')
    end.

Definition gets {A} (f : St -> A) : M A := fun s => (Returned (f s), s).

Definition modify (f : St -> St) : M unit := fun s => (Returned tt, f s).

(** [try { m } catch (...) { h }]: the handler sees every exception except a
    crash.  Writes made before the exception are kept. *)
Definition try_catch {A} (m : M A) (h : exn -> M A) : M A :=
  fun s =>
    match m s with
    | (Returned a, s') => (Returned a, s')
    | (Thrown Crash, s') => (Thrown Crash, s')
    | (Thrown e, s') => h e s'
    end.

(** The handler pair that closes most methods of [Schain]:
    [catch (ExitRequestedException&) { throw; }
     catch (...) { throw_with_nested(InvalidStateException(...)); }]. *)
Definition rethrow_as_InvalidState {A} (m : M A) : M A :=
  try_catch m
    (fun e => match e with
              | ExitRequestedException => throw ExitRequestedException
              | _ => throw InvalidStateException
              end).

Definition ASSERT (c : bool) : M unit :=
  if c then ret tt else throw AssertionFailure.
Definition CHECK_STATE (c : bool) : M unit :=
  if c then ret tt else throw InvalidStateException.
Definition CHECK_ARGUMENT (c : bool) : M unit :=
  if c then ret tt else throw InvalidArgumentException.

(** A range-[for] loop, left to right. *)
Fixpoint for_each {A} (l : list A) (body : A -> M unit) : M unit :=
  match l with
  | [] => ret tt
  | x :: l' => bind (body x) (fun _ => for_each l' body)
  end.

(** What the handler pair of [rethrow_as_InvalidState] makes of an outcome. *)
Definition rethrown {A} (o : outcome A) : outcome A :=
  match o with
  | Returned a => Returned a
  | Thrown ExitRequestedException => Thrown ExitRequestedException
  | Thrown Crash => Thrown Crash
  | Thrown _ => Thrown InvalidStateException
  end.

(** [preserves R m]: every run of [m] relates the initial state to the final
    one by [R], whether it returns or throws. *)
Definition preserves {A} (R : St -> St -> Prop) (m : M A) : Prop :=
  forall s o s', m s = (o, s') -> R s s'.

(** [wp m Q s]: the outcome and the final state of [m] run from [s] satisfy
    [Q]. *)
Definition wp {A} (m : M A) (Q : outcome A -> St -> Prop) (s : St) : Prop :=
  Q (fst (m s)) (snd (m s)).

End Monad.
Arguments M St A : clear implicits.
End Eff.
Import Eff.

Declare Scope eff_scope.
Delimit Scope eff_scope with eff.
Notation "x <- m ;; k" := (bind m (fun x => k))
  (at level 100, m at next level, right associativity) : eff_scope.
Notation "m ;; k" := (bind m (fun _ => k))
  (at level 100, right associativity) : eff_scope.
#[local] Open Scope eff_scope.

(** ** Messages and block data shared by the driver and the transport *)

Definition Transaction : Type := list Byte.byte.

Record BlockProposal : Type := mkBlockProposal {
  bp_blockID : Z;
  bp_proposerIndex : Z;
  bp_timeStamp : Z;
  bp_timeStampMs : Z;
  bp_transactionList : list Transaction;
  bp_hash : string;
  bp_signature : option string
}.

Record CommittedBlock : Type := mkCommittedBlock {
  cb_blockID : Z;
  cb_proposerIndex : Z;
  cb_timeStamp : Z;
  cb_timeStampMs : Z;
  cb_transactionList : list Transaction;
  cb_hash : string;
  cb_signature : option string;
  cb_stateRoot : Z
}.

Record DAProof : Type := mkDAProof {
  dap_blockId : Z;
  dap_proposerIndex : Z;
  dap_thresholdSig : string
}.

Definition BooleanProposalVector : Type := list bool.

Inductive MsgType : Type := BVB_BROADCAST | AUX_BROADCAST.

Record NetworkMessage : Type := mkNetworkMessage {
  nm_blockID : Z;
  nm_blockProposerIndex : Z;
  nm_msgType : MsgType;
  nm_msgID : Z;
  nm_srcNodeID : Z;
  nm_dstNodeID : Z;
  nm_round : Z;
  nm_value : Z;
  nm_ip : Z;
  nm_sigShare : string
}.

(** [ProtocolKey]: one binary-consensus instance. *)
Record ProtocolKey : Type := mkProtocolKey {
  key_blockID : Z;
  key_blockProposerIndex : Z
}.

Definition createDestinationProtocolKey (m : NetworkMessage) : ProtocolKey :=
  mkProtocolKey (nm_blockID m) (nm_blockProposerIndex m).

(** A [NetworkMessageEnvelope] carries the message and the schain index of the
    real sender. *)
Record NetworkMessageEnvelope : Type := mkNetworkMessageEnvelope {
  nme_message : NetworkMessage;
  nme_srcSchainIndex : Z
}.

Inductive MessageEnvelope : Type :=
| EnvNetwork (m : NetworkMessageEnvelope)
| EnvInternal (blockID : Z) (proposalVector : BooleanProposalVector).

(** [m->getMessage()->getBlockId()]. *)
Definition envelope_blockID (m : MessageEnvelope) : Z :=
  match m with
  | EnvNetwork e => nm_blockID (nme_message e)
  | EnvInternal b _ => b
  end.

(** The arguments of one call of the host's [createBlock]. *)
Record CreateBlockCall : Type := mkCreateBlockCall {
  call_transactions : list Transaction;
  call_timeStamp : Z;
  call_timeStampMs : Z;
  call_blockID : Z;
  call_gasPrice : Z;
  call_stateRoot : Z
}.

(** ** The per-chain driver ([chains/Schain.cpp]) *)

Module Driver.

(** The collaborators of the driver (data bases, pricing and pending-queue
    agents, crypto manager, gossip client, host, clock) are not among the
    sources.  They are an interface over the state [Node] of the rest of the
    process: every call may change that state and may throw. *)
Class NodeServices (Node : Type) : Type := {
  (** [Node::isExitRequested] *)
  isExitRequested : Node -> bool;
  (** [Time::getCurrentTimeMs]: reading the clock does not throw *)
  getCurrentTimeMs : Node -> Z;
  (** [BlockDB] *)
  db_saveBlock : CommittedBlock -> M Node unit;
  db_readLastCommittedBlockID : M Node Z;
  db_getBlock : Z -> M Node (option CommittedBlock);
  (** [BlockProposalDB] *)
  db_getBlockProposal : Z -> Z -> M Node (option BlockProposal);
  db_addBlockProposal : BlockProposal -> M Node unit;
  (** [ProposalHashDB] *)
  db_haveProposal : Z -> Z -> M Node bool;
  db_checkAndSaveHash : Z -> Z -> string -> M Node bool;
  (** [DASigShareDB], [DAProofDB], [ProposalVectorDB], [MsgDB] *)
  db_addAndMergeSigShareAndVerifySig : string -> BlockProposal -> M Node (option DAProof);
  db_addDAProof : DAProof -> M Node (option BooleanProposalVector);
  db_isEnoughProofs : Z -> M Node bool;
  db_saveVector : Z -> BooleanProposalVector -> M Node unit;
  db_getVector : Z -> M Node (option BooleanProposalVector);
  db_getMessages : Z -> M Node (list NetworkMessage);
  (** [PendingTransactionsAgent::buildBlockProposal] *)
  buildBlockProposal : Z -> Z -> Z -> M Node BlockProposal;
  (** [CryptoManager::signDAProofSigShare] *)
  signDAProofSigShare : BlockProposal -> M Node (option string);
  (** [BlockProposalClientAgent::enqueueItem] for proposals and for proofs *)
  enqueueProposal : BlockProposal -> M Node unit;
  enqueueDAProof : DAProof -> M Node unit;
  (** [PricingAgent] *)
  calculatePrice : list Transaction -> Z -> Z -> Z -> M Node unit;
  readPrice : Z -> M Node Z;
  (** [CommittedBlock::makeObject] *)
  makeObject : BlockProposal -> option string -> M Node CommittedBlock;
  (** [ConsensusExtFace::createBlock], the host's callback *)
  createBlock : CreateBlockCall -> M Node unit;
  (** [Network::broadcastMessage], as called by [bootstrap] *)
  net_broadcastMessage : NetworkMessage -> M Node unit;
  (** [MODERN_TIME], a constant of [SkaleCommon.h] *)
  MODERN_TIME : Z
}.

Section WithNode.
Context {Node : Type} {svc : NodeServices Node}.

(** The fields of [Schain] the embedded methods read or write.  [hasExtFace]
    is [extFace != nullptr].  The last two fields are not fields of the C++
    class: they record, in order, the calls made to the host's [createBlock]
    and the block ids [proposeNextBlock] has worked on. *)
Record Schain : Type := mkSchain {
  schainIndex : Z;
  lastCommittedBlockID : Z;
  lastCommitTime : Z;
  lastCommittedBlockTimeStamp : Z;
  lastCommittedBlockTimeStampMs : Z;
  totalTransactions : Z;
  bootStrapped : bool;
  bootstrapBlockID : Z;
  messageQueue : list MessageEnvelope;
  hasExtFace : bool;
  node : Node;
  createBlockCalls : list CreateBlockCall;
  proposedBlockIDs : list Z
}.

Definition set_lastCommittedBlockID (v : Z) (s : Schain) : Schain :=
  mkSchain (schainIndex s) v (lastCommitTime s) (lastCommittedBlockTimeStamp s)
    (lastCommittedBlockTimeStampMs s) (totalTransactions s) (bootStrapped s)
    (bootstrapBlockID s) (messageQueue s) (hasExtFace s) (node s)
    (createBlockCalls s) (proposedBlockIDs s).

Definition set_lastCommitTime (v : Z) (s : Schain) : Schain :=
  mkSchain (schainIndex s) (lastCommittedBlockID s) v (lastCommittedBlockTimeStamp s)
    (lastCommittedBlockTimeStampMs s) (totalTransactions s) (bootStrapped s)
    (bootstrapBlockID s) (messageQueue s) (hasExtFace s) (node s)
    (createBlockCalls s) (proposedBlockIDs s).

Definition set_lastCommittedBlockTimeStamp (v : Z) (s : Schain) : Schain :=
  mkSchain (schainIndex s) (lastCommittedBlockID s) (lastCommitTime s) v
    (lastCommittedBlockTimeStampMs s) (totalTransactions s) (bootStrapped s)
    (bootstrapBlockID s) (messageQueue s) (hasExtFace s) (node s)
    (createBlockCalls s) (proposedBlockIDs s).

Definition set_lastCommittedBlockTimeStampMs (v : Z) (s : Schain) : Schain :=
  mkSchain (schainIndex s) (lastCommittedBlockID s) (lastCommitTime s)
    (lastCommittedBlockTimeStamp s) v (totalTransactions s) (bootStrapped s)
    (bootstrapBlockID s) (messageQueue s) (hasExtFace s) (node s)
    (createBlockCalls s) (proposedBlockIDs s).

Definition set_totalTransactions (v : Z) (s : Schain) : Schain :=
  mkSchain (schainIndex s) (lastCommittedBlockID s) (lastCommitTime s)
    (lastCommittedBlockTimeStamp s) (lastCommittedBlockTimeStampMs s) v
    (bootStrapped s) (bootstrapBlockID s) (messageQueue s) (hasExtFace s) (node s)
    (createBlockCalls s) (proposedBlockIDs s).

Definition set_bootStrapped (v : bool) (s : Schain) : Schain :=
  mkSchain (schainIndex s) (lastCommittedBlockID s) (lastCommitTime s)
    (lastCommittedBlockTimeStamp s) (lastCommittedBlockTimeStampMs s)
    (totalTransactions s) v (bootstrapBlockID s) (messageQueue s) (hasExtFace s)
    (node s) (createBlockCalls s) (proposedBlockIDs s).

Definition set_bootstrapBlockID (v : Z) (s : Schain) : Schain :=
  mkSchain (schainIndex s) (lastCommittedBlockID s) (lastCommitTime s)
    (lastCommittedBlockTimeStamp s) (lastCommittedBlockTimeStampMs s)
    (totalTransactions s) (bootStrapped s) v (messageQueue s) (hasExtFace s)
    (node s) (createBlockCalls s) (proposedBlockIDs s).

Definition set_messageQueue (v : list MessageEnvelope) (s : Schain) : Schain :=
  mkSchain (schainIndex s) (lastCommittedBlockID s) (lastCommitTime s)
    (lastCommittedBlockTimeStamp s) (lastCommittedBlockTimeStampMs s)
    (totalTransactions s) (bootStrapped s) (bootstrapBlockID s) v (hasExtFace s)
    (node s) (createBlockCalls s) (proposedBlockIDs s).

Definition set_node (v : Node) (s : Schain) : Schain :=
  mkSchain (schainIndex s) (lastCommittedBlockID s) (lastCommitTime s)
    (lastCommittedBlockTimeStamp s) (lastCommittedBlockTimeStampMs s)
    (totalTransactions s) (bootStrapped s) (bootstrapBlockID s) (messageQueue s)
    (hasExtFace s) v (createBlockCalls s) (proposedBlockIDs s).

Definition set_createBlockCalls (v : list CreateBlockCall) (s : Schain) : Schain :=
  mkSchain (schainIndex s) (lastCommittedBlockID s) (lastCommitTime s)
    (lastCommittedBlockTimeStamp s) (lastCommittedBlockTimeStampMs s)
    (totalTransactions s) (bootStrapped s) (bootstrapBlockID s) (messageQueue s)
    (hasExtFace s) (node s) v (proposedBlockIDs s).

Definition set_proposedBlockIDs (v : list Z) (s : Schain) : Schain :=
  mkSchain (schainIndex s) (lastCommittedBlockID s) (lastCommitTime s)
    (lastCommittedBlockTimeStamp s) (lastCommittedBlockTimeStampMs s)
    (totalTransactions s) (bootStrapped s) (bootstrapBlockID s) (messageQueue s)
    (hasExtFace s) (node s) (createBlockCalls s) v.

(** A call into a collaborator: it runs on the [node] component only. *)
Definition call {A} (f : M Node A) : M Schain A :=
  fun s => let (o, n) := f (node s) in (o, set_node n s).

(** [Schain::checkForExit] *)
Definition checkForExit : M Schain unit :=
  fun s =>
    if isExitRequested (node s) then (Thrown ExitRequestedException, s)
    else (Returned tt, s).

(** [Node::exitCheck]: "exit immediately if exit has been requested". *)
Definition exitCheck : M Schain unit := checkForExit.

(** [Schain::postMessage] *)
Definition postMessage (m : MessageEnvelope) : M Schain unit :=
  checkForExit ;;
  ASSERT (negb (envelope_blockID m =? 0)) ;;
  modify (fun s => set_messageQueue (messageQueue s ++ [m]) s).

(** [Schain::saveBlock] *)
Definition saveBlock (_block : CommittedBlock) : M Schain unit :=
  rethrow_as_InvalidState
    (checkForExit ;;
     call (db_saveBlock _block)).

(** [Schain::pushBlockToExtFace] *)
Definition pushBlockToExtFace (_block : CommittedBlock) : M Schain unit :=
  checkForExit ;;
  rethrow_as_InvalidState
    (let tv := cb_transactionList _block in
     call (calculatePrice tv (cb_timeStamp _block) (cb_timeStampMs _block)
             (cb_blockID _block)) ;;
     cur_price <- call (readPrice (wrap64 (cb_blockID _block - 1))) ;;
     extFace <- gets hasExtFace ;;
     if extFace then
       let c := mkCreateBlockCall tv (cb_timeStamp _block) (cb_timeStampMs _block)
                  (cb_blockID _block) cur_price (cb_stateRoot _block) in
       modify (fun s => set_createBlockCalls (createBlockCalls s ++ [c]) s) ;;
       call (createBlock c) ;;
       exitCheck
     else ret tt).

(** [Schain::processCommittedBlock] (the [LOG] line only reads counters). *)
Definition processCommittedBlock (_block : CommittedBlock) : M Schain unit :=
  CHECK_STATE (non_null (cb_signature _block)) ;;
  checkForExit ;;
  rethrow_as_InvalidState
    (last <- gets lastCommittedBlockID ;;
     ASSERT (wrap64 (last + 1) =? cb_blockID _block) ;;
     modify (fun s =>
       set_totalTransactions
         (wrap64 (totalTransactions s + Z.of_nat (length (cb_transactionList _block)))) s) ;;
     saveBlock _block ;;
     pushBlockToExtFace _block ;;
     modify (fun s => set_lastCommittedBlockID (wrap64 (lastCommittedBlockID s + 1)) s) ;;
     now <- gets (fun s => getCurrentTimeMs (node s)) ;;
     modify (set_lastCommitTime now)).

(** [Schain::proposedBlockArrived] *)
Definition proposedBlockArrived (_proposal : BlockProposal) : M Schain unit :=
  last <- gets lastCommittedBlockID ;;
  if bp_blockID _proposal <=? last then ret tt
  else
    CHECK_STATE (non_null (bp_signature _proposal)) ;;
    call (db_addBlockProposal _proposal).

(** [Schain::startConsensus].  The pointers tested by its assertions and
    argument checks ([blockConsensusInstance], [_proposalVector]) are set once
    the driver is constructed; its [LOG] lines are left out. *)
Definition startConsensus (_blockID : Z) (_proposalVector : BooleanProposalVector)
  : M Schain unit :=
  checkForExit ;;
  enough <- call (db_isEnoughProofs _blockID) ;;
  ASSERT enough ;;
  last <- gets lastCommittedBlockID ;;
  if _blockID <=? last then ret tt
  else if _blockID >? wrap64 (last + 1) then ret tt
  else postMessage (EnvInternal _blockID _proposalVector).

(** [Schain::daProofArrived] *)
Definition daProofArrived (_daProof : DAProof) : M Schain unit :=
  rethrow_as_InvalidState
    (last <- gets lastCommittedBlockID ;;
     if dap_blockId _daProof <=? last then ret tt
     else
       pv <- call (db_addDAProof _daProof) ;;
       match pv with
       | Some v =>
           call (db_saveVector (dap_blockId _daProof) v) ;;
           startConsensus (dap_blockId _daProof) v
       | None => ret tt
       end).

(** [Schain::daProofSigShareArrived] *)
Definition daProofSigShareArrived (_sigShare : option string) (_proposal : BlockProposal)
  : M Schain unit :=
  checkForExit ;;
  CHECK_ARGUMENT (non_null _sigShare) ;;
  rethrow_as_InvalidState
    (match _sigShare with
     | None => throw Crash
     | Some share =>
         proof <- call (db_addAndMergeSigShareAndVerifySig share _proposal) ;;
         match proof with
         | Some p => daProofArrived p ;; call (enqueueDAProof p)
         | None => ret tt
         end
     end).

(** [Schain::proposeNextBlock].  The second parameter is a [uint32_t]. *)
Definition proposeNextBlock (_previousBlockTimeStamp _previousBlockTimeStampMs : Z)
  : M Schain unit :=
  checkForExit ;;
  rethrow_as_InvalidState
    (last <- gets lastCommittedBlockID ;;
     let _proposedBlockID := wrap64 (last + 1) in
     modify (fun s => set_proposedBlockIDs (proposedBlockIDs s ++ [_proposedBlockID]) s) ;;
     me <- gets schainIndex ;;
     have <- call (db_haveProposal _proposedBlockID me) ;;
     myProposal <-
       (if have : bool then
          p <- call (db_getBlockProposal _proposedBlockID me) ;;
          match p with
          | Some p => ret p
          | None => throw Crash
          end
        else
          call (buildBlockProposal _proposedBlockID _previousBlockTimeStamp
                  _previousBlockTimeStampMs)) ;;
     CHECK_STATE (bp_proposerIndex myProposal =? me) ;;
     CHECK_STATE (non_null (bp_signature myProposal)) ;;
     proposedBlockArrived myProposal ;;
     call (db_checkAndSaveHash _proposedBlockID me (bp_hash myProposal)) ;;
     call (enqueueProposal myProposal) ;;
     mySig <- call (signDAProofSigShare myProposal) ;;
     daProofSigShareArrived mySig myProposal).

(** The [try] block of [Schain::blockCommitArrived] with its handlers. *)
Definition blockCommitArrived_try (_committedBlockID _proposerIndex _committedTimeStamp
    _committedTimeStampMs : Z) (_thresholdSig : option string) : M Schain unit :=
  rethrow_as_InvalidState
    (modify (set_lastCommittedBlockTimeStamp _committedTimeStamp) ;;
     modify (set_lastCommittedBlockTimeStampMs _committedTimeStampMs) ;;
     committedProposal <- call (db_getBlockProposal _committedBlockID _proposerIndex) ;;
     ASSERT (non_null committedProposal) ;;
     match committedProposal with
     | None => throw Crash
     | Some p =>
         newCommittedBlock <- call (makeObject p _thresholdSig) ;;
         processCommittedBlock newCommittedBlock ;;
         proposeNextBlock _committedTimeStamp (wrap32 _committedTimeStampMs)
     end).

(** [Schain::blockCommitArrived] *)
Definition blockCommitArrived (_committedBlockID _proposerIndex _committedTimeStamp
    _committedTimeStampMs : Z) (_thresholdSig : option string) : M Schain unit :=
  checkForExit ;;
  ASSERT (_committedTimeStamp <? wrap64 (2 * MODERN_TIME)) ;;
  last <- gets lastCommittedBlockID ;;
  if _committedBlockID <=? last then ret tt
  else
    ASSERT ((_committedBlockID =? wrap64 (last + 1)) || (last =? 0)) ;;
    blockCommitArrived_try _committedBlockID _proposerIndex _committedTimeStamp
      _committedTimeStampMs _thresholdSig.

(** The loop of [Schain::blockCommitsArrivedThroughCatchup]; the pair is
    ([previosBlockTimeStamp], [previosBlockTimeStampMs]). *)
Fixpoint catchupLoop (b : list CommittedBlock) (prev : Z * Z) : M Schain (Z * Z) :=
  match b with
  | [] => ret prev
  | t :: b' =>
      last <- gets lastCommittedBlockID ;;
      if cb_blockID t >? last then
        processCommittedBlock t ;;
        catchupLoop b' (cb_timeStamp t, cb_timeStampMs t)
      else catchupLoop b' prev
  end.

(** [Schain::blockCommitsArrivedThroughCatchup] *)
Definition blockCommitsArrivedThroughCatchup (b : list CommittedBlock) : M Schain unit :=
  match b with
  | [] => ret tt
  | b0 :: _ =>
      committedIDOld <- gets lastCommittedBlockID ;;
      ASSERT (cb_blockID b0 <=? wrap64 (committedIDOld + 1)) ;;
      prev <- catchupLoop b (0, 0) ;;
      last <- gets lastCommittedBlockID ;;
      if committedIDOld <? last then proposeNextBlock (fst prev) (wrap32 (snd prev))
      else ret tt
  end.

(** Step 1 of [Schain::bootstrap]: reconcile the block id of the consensus data
    base with the host's; the result is the corrected [_lastCommittedBlockID]. *)
Definition bootstrap_reconcile (_lastCommittedBlockIDInConsensus _lastCommittedBlockID : Z)
  : M Schain Z :=
  if _lastCommittedBlockIDInConsensus =? wrap64 (_lastCommittedBlockID + 1) then
    try_catch
      (block <- call (db_getBlock _lastCommittedBlockIDInConsensus) ;;
       match block with
       | Some blk =>
           pushBlockToExtFace blk ;;
           ret (wrap64 (_lastCommittedBlockID + 1))
       | None => ret _lastCommittedBlockID
       end)
      (fun _ => ret _lastCommittedBlockID)
  else if _lastCommittedBlockIDInConsensus <? _lastCommittedBlockID then
    throw InvalidStateException
  else if _lastCommittedBlockIDInConsensus >? wrap64 (_lastCommittedBlockID + 1) then
    throw InvalidStateException
  else ret _lastCommittedBlockID.

(** Step 2 of [Schain::bootstrap], inside its [try]. *)
Definition bootstrap_start (_lastCommittedBlockID _lastCommittedBlockTimeStamp : Z)
  : M Schain unit :=
  already <- gets bootStrapped ;;
  ASSERT (negb already) ;;
  modify (set_bootStrapped true) ;;
  modify (set_bootstrapBlockID _lastCommittedBlockID) ;;
  ASSERT (_lastCommittedBlockTimeStamp <? wrap64 (2 * MODERN_TIME)) ;;
  modify (set_lastCommittedBlockID _lastCommittedBlockID) ;;
  now <- gets (fun s => getCurrentTimeMs (node s)) ;;
  modify (set_lastCommitTime now) ;;
  modify (set_lastCommittedBlockTimeStamp _lastCommittedBlockTimeStamp) ;;
  modify (set_lastCommittedBlockTimeStampMs 0) ;;
  last <- gets lastCommittedBlockID ;;
  (if last =? 0 then call (calculatePrice [] 0 0 0) else ret tt) ;;
  ts <- gets lastCommittedBlockTimeStamp ;;
  tsMs <- gets lastCommittedBlockTimeStampMs ;;
  proposeNextBlock ts (wrap32 tsMs) ;;
  proposalVector <- call (db_getVector (wrap64 (_lastCommittedBlockID + 1))) ;;
  match proposalVector with
  | Some _ =>
      messages <- call (db_getMessages (wrap64 (_lastCommittedBlockID + 1))) ;;
      for_each messages (fun m => call (net_broadcastMessage m))
  | None => ret tt
  end.

(** [Schain::bootstrap].  The handler of step 2 is
    [catch (exception& e) { Exception::logNested(e); return; }]. *)
Definition bootstrap (_lastCommittedBlockID _lastCommittedBlockTimeStamp : Z)
  : M Schain unit :=
  _lastCommittedBlockIDInConsensus <- call db_readLastCommittedBlockID ;;
  checkForExit ;;
  id <- bootstrap_reconcile _lastCommittedBlockIDInConsensus _lastCommittedBlockID ;;
  try_catch (bootstrap_start id _lastCommittedBlockTimeStamp) (fun _ => ret tt).

(** The three arguments [createEmptyBlockProposal] gives to the constructor of
    [ReceivedBlockProposal]. *)
Record EmptyBlockProposal : Type := mkEmptyBlockProposal {
  ebp_blockID : Z;
  ebp_timeStamp : Z;
  ebp_timeStampMs : Z
}.

(** [Schain::createEmptyBlockProposal]; [sec] and [ms] are [uint64_t]. *)
Definition createEmptyBlockProposal (_blockId : Z) (s : Schain) : EmptyBlockProposal :=
  let sec := lastCommittedBlockTimeStamp s in
  let ms := lastCommittedBlockTimeStampMs s in
  if ms =? 999 then mkEmptyBlockProposal _blockId (wrap64 (sec + 1)) 0
  else mkEmptyBlockProposal _blockId sec (wrap64 (ms + 1)).

(** *** Vocabulary of the statements about the driver *)

(** The block ids of the calls made to the host's [createBlock], in order. *)
Definition created (s : Schain) : list Z := map call_blockID (createBlockCalls s).

(** The call [pushBlockToExtFace] makes to the host for a block. *)
Definition host_call (b : CommittedBlock) (price : Z) : CreateBlockCall :=
  mkCreateBlockCall (cb_transactionList b) (cb_timeStamp b) (cb_timeStampMs b)
    (cb_blockID b) price (cb_stateRoot b).

(** The two entry points through which blocks are finalized. *)
Inductive FinalizeCall : Type :=
| BlockCommitArrived (_committedBlockID _proposerIndex _committedTimeStamp
    _committedTimeStampMs : Z) (_thresholdSig : option string)
| BlockCommitsArrivedThroughCatchup (_blocks : list CommittedBlock).

Definition finalize (c : FinalizeCall) : M Schain unit :=
  match c with
  | BlockCommitArrived B idx ts tsMs sig => blockCommitArrived B idx ts tsMs sig
  | BlockCommitsArrivedThroughCatchup bs => blockCommitsArrivedThroughCatchup bs
  end.

(** Block ids passed to the driver are [uint64_t] values. *)
Definition well_typed (c : FinalizeCall) : Prop :=
  match c with
  | BlockCommitArrived B _ _ _ _ => u64 B
  | BlockCommitsArrivedThroughCatchup bs => Forall (fun b => u64 (cb_blockID b)) bs
  end.

(** The driver state after a sequence of finalization calls; a call that
    throws leaves the state it had reached. *)
Fixpoint finalize_all (cs : list FinalizeCall) (s : Schain) : Schain :=
  match cs with
  | [] => s
  | c :: cs' => finalize_all cs' (snd (finalize c s))
  end.

(** States that agree on what finalization is about. *)
Definition commit_frame (s s' : Schain) : Prop :=
  lastCommittedBlockID s' = lastCommittedBlockID s /\
  createBlockCalls s' = createBlockCalls s /\
  hasExtFace s' = hasExtFace s.

(** What one finalization call may do: commit [k >= 0] consecutive blocks,
    with one [createBlock] call for each; [extra] is a call made for a block
    whose commit then failed, which cannot be when the call [returned]. *)
Definition finalize_spec (s : Schain) (returned : bool) (s' : Schain) : Prop :=
  let k := lastCommittedBlockID s' - lastCommittedBlockID s in
  0 <= k /\ u64 (lastCommittedBlockID s') /\ hasExtFace s' = hasExtFace s /\
  exists extra,
    created s' =
      created s ++
      (if hasExtFace s then seqZ (lastCommittedBlockID s + 1) k ++ extra else []) /\
    (extra = [] \/ extra = [lastCommittedBlockID s' + 1]) /\
    (returned = true -> extra = []).

(** What a relation between driver states must allow for the calls into the
    collaborators and the posting of messages to preserve it, *)
Class NodeFrame (R : Schain -> Schain -> Prop) : Prop := {
  frame_preorder :: PreOrder R;
  frame_node : forall s n, R s (set_node n s);
  frame_messageQueue : forall s q, R s (set_messageQueue q s)
}.

(** and for [proposeNextBlock] to preserve it. *)
Class PipelineFrame (R : Schain -> Schain -> Prop) : Prop := {
  frame_nodeFrame :: NodeFrame R;
  frame_proposedBlockIDs : forall s l, R s (set_proposedBlockIDs l s)
}.

(** No exit is requested while the driver runs, *)
Definition running : Prop := forall n : Node, isExitRequested n = false.


(** States that agree on everything [bootstrap] decides. *)
Definition start_frame (s s' : Schain) : Prop :=
  lastCommittedBlockID s' = lastCommittedBlockID s /\
  createBlockCalls s' = createBlockCalls s /\
  proposedBlockIDs s' = proposedBlockIDs s /\
  bootStrapped s' = bootStrapped s.

(** Time stamps as pairs, their lexicographic order and their value in
    milliseconds. *)
Definition lex_lt (a b : Z * Z) : Prop :=
  fst a < fst b \/ (fst a = fst b /\ snd a < snd b).

Definition milliseconds (a : Z * Z) : Z := 1000 * fst a + snd a.

End WithNode.
Arguments Schain Node : clear implicits.

End Driver.

(** ** The transport and deferral plane ([network/TransportNetwork.cpp]) *)

Module Transport.
Import Driver.

(** The fields of [NodeInfo] the transport reads. *)
Record NodeInfo : Type := mkNodeInfo {
  ni_nodeID : Z;
  ni_schainIndex : Z
}.

(** What the transport asks of code that is not among the sources: the round
    and decision of a binary-consensus instance ([BlockConsensusAgent]) and the
    send primitive of the concrete network ([sendMessage], pure virtual). *)
Class NetServices (Node : Type) : Type := {
  getRound : Node -> ProtocolKey -> Z;
  decided : Node -> ProtocolKey -> bool;
  sendMessage : NodeInfo -> NetworkMessage -> M Node bool
}.

Section WithNode.
Context {Node : Type} {svc : NodeServices Node} {net : NetServices Node}.

(** A [ptr<NetworkMessage>] handed to [broadcastMessage] is shared between the
    caller and the delayed-send deques and is written through ([setIp],
    [setDstNodeID]): messages live in [heap] and the deques hold addresses. *)
Record TransportNetwork : Type := mkTransportNetwork {
  sChain : Schain Node;
  catchupBlocks : Z;
  nodeCount : Z;
  nodeInfosByIndex : list NodeInfo;
  thisNodeIP : Z;
  deferredMessageQueue : gmap Z (list NetworkMessageEnvelope);
  delayedSends : list (list (positive * NodeInfo));
  heap : gmap positive NetworkMessage
}.

Definition set_sChain (v : Schain Node) (t : TransportNetwork) : TransportNetwork :=
  mkTransportNetwork v (catchupBlocks t) (nodeCount t) (nodeInfosByIndex t)
    (thisNodeIP t) (deferredMessageQueue t) (delayedSends t) (heap t).

Definition set_deferredMessageQueue (v : gmap Z (list NetworkMessageEnvelope))
  (t : TransportNetwork) : TransportNetwork :=
  mkTransportNetwork (sChain t) (catchupBlocks t) (nodeCount t) (nodeInfosByIndex t)
    (thisNodeIP t) v (delayedSends t) (heap t).

Definition set_delayedSends (v : list (list (positive * NodeInfo)))
  (t : TransportNetwork) : TransportNetwork :=
  mkTransportNetwork (sChain t) (catchupBlocks t) (nodeCount t) (nodeInfosByIndex t)
    (thisNodeIP t) (deferredMessageQueue t) v (heap t).

Definition set_heap (v : gmap positive NetworkMessage) (t : TransportNetwork)
  : TransportNetwork :=
  mkTransportNetwork (sChain t) (catchupBlocks t) (nodeCount t) (nodeInfosByIndex t)
    (thisNodeIP t) (deferredMessageQueue t) (delayedSends t) v.

(** A method of the driver, run on the [sChain] the transport points to. *)
Definition onChain {A} (m : M (Schain Node) A) : M TransportNetwork A :=
  fun t => let (o, c) := m (sChain t) in (o, set_sChain c t).

(** [NodeInfo::getSchainIndex] ([node/NodeInfo.cpp]) *)
Definition getSchainIndex (ni : NodeInfo) : M TransportNetwork Z :=
  ASSERT (0 <? ni_schainIndex ni) ;;
  ret (ni_schainIndex ni).

(** [*m] for a message pointer. *)
Definition deref (m : positive) : M TransportNetwork NetworkMessage :=
  fun t =>
    match heap t !! m with
    | Some msg => (Returned msg, t)
    | None => (Thrown Crash, t)
    end.

Definition with_ip (ip : Z) (m : NetworkMessage) : NetworkMessage :=
  mkNetworkMessage (nm_blockID m) (nm_blockProposerIndex m) (nm_msgType m) (nm_msgID m)
    (nm_srcNodeID m) (nm_dstNodeID m) (nm_round m) (nm_value m) ip (nm_sigShare m).

Definition with_dstNodeID (dst : Z) (m : NetworkMessage) : NetworkMessage :=
  mkNetworkMessage (nm_blockID m) (nm_blockProposerIndex m) (nm_msgType m) (nm_msgID m)
    (nm_srcNodeID m) dst (nm_round m) (nm_value m) (nm_ip m) (nm_sigShare m).

(** [m->setIp(ip)] and [m->setDstNodeID(id)] *)
Definition setIp (m : positive) (ip : Z) : M TransportNetwork unit :=
  msg <- deref m ;;
  modify (fun t => set_heap (<[m := with_ip ip msg]> (heap t)) t).

Definition setDstNodeID (m : positive) (dst : Z) : M TransportNetwork unit :=
  msg <- deref m ;;
  modify (fun t => set_heap (<[m := with_dstNodeID dst msg]> (heap t)) t).

(** [TransportNetwork::addToDeferredMessageQueue] *)
Definition addToDeferredMessageQueue (_me : NetworkMessageEnvelope)
  : M TransportNetwork unit :=
  let _blockID := nm_blockID (nme_message _me) in
  modify (fun t =>
    let messageList := default [] (deferredMessageQueue t !! _blockID) in
    set_deferredMessageQueue (<[_blockID := messageList ++ [_me]]> (deferredMessageQueue t)) t).

(** The order of the keys of the [std::map] [deferredMessageQueue]. *)
Definition key_le (a b : Z * list NetworkMessageEnvelope) : Prop := fst a <= fst b.

#[local] Instance key_le_dec a b : Decision (key_le a b).
Proof. unfold key_le. apply _. Defined.

(** The entries of the ordered map [deferredMessageQueue], by ascending key. *)
Definition entries (q : gmap Z (list NetworkMessageEnvelope))
  : list (Z * list NetworkMessageEnvelope) :=
  merge_sort key_le (map_to_list q).

(** [TransportNetwork::pullMessagesForBlockID] *)
Definition pullMessagesForBlockID (_blockID : Z)
  : M TransportNetwork (list NetworkMessageEnvelope) :=
  fun t =>
    let q := deferredMessageQueue t in
    let returnList :=
      concat (map snd (List.filter (fun e => fst e <=? _blockID) (entries q))) in
    (Returned returnList,
     set_deferredMessageQueue (filter (fun e => ~ (fst e <= _blockID)) q) t).

(** [TransportNetwork::postOrDefer].  Its last [else] cannot be reached. *)
Definition postOrDefer (m : NetworkMessageEnvelope) (currentBlockID : Z)
  : M TransportNetwork unit :=
  let msg := nme_message m in
  if nm_blockID msg >? currentBlockID then addToDeferredMessageQueue m
  else if nm_blockID msg <=? currentBlockID then
    n <- gets (fun t => node (sChain t)) ;;
    if nm_round msg >? wrap64 (getRound n (createDestinationProtocolKey msg) + 1) then
      addToDeferredMessageQueue m
    else if (nm_round msg =? wrap64 (getRound n (createDestinationProtocolKey msg) + 1))
            && negb (decided n (createDestinationProtocolKey msg)) then
      addToDeferredMessageQueue m
    else onChain (postMessage (EnvNetwork m))
  else onChain (postMessage (EnvNetwork m)).

(** What one turn of a thread's loop asks of the loop. *)
Inductive LoopControl : Type := Continue | Stop.

(** One turn of the [while] of [TransportNetwork::networkReadLoop], given what
    [receiveMessage] returned.  The handlers of the inner [try]: an
    [ExitRequestedException] ends the loop, a failed assertion goes on to the
    outer handler, any other exception is logged (or ends the loop when exit
    has been requested meanwhile). *)
Definition networkReadLoop_turn (received : option NetworkMessageEnvelope)
  : M TransportNetwork LoopControl :=
  exiting <- gets (fun t => isExitRequested (node (sChain t))) ;;
  if exiting : bool then ret Stop
  else
    try_catch
      (match received with
       | None => ret Continue
       | Some m =>
           cb <- gets catchupBlocks ;;
           if nm_blockID (nme_message m) <=? cb then ret Continue
           else
             committed <- gets (fun t => lastCommittedBlockID (sChain t)) ;;
             let currentBlockID := wrap64 (committed + 1) in
             postOrDefer m currentBlockID ;;
             ret Continue
       end)
      (fun e =>
         match e with
         | ExitRequestedException => ret Stop
         | AssertionFailure => throw AssertionFailure
         | _ =>
             exiting <- gets (fun t => isExitRequested (node (sChain t))) ;;
             ret (if exiting : bool then Stop else Continue)
         end).

(** The locked block of [broadcastMessage]:
    [delayedSends[index].push_back({m, it.second});
     if (delayedSends[index].size() > 256) delayedSends[index].pop_front();] *)
Definition push_delayed (index : Z) (entry : positive * NodeInfo)
  : M TransportNetwork unit :=
  fun t =>
    match delayedSends t !! Z.to_nat index with
    | None => (Thrown Crash, t)
    | Some d =>
        let d1 := d ++ [entry] in
        let d2 := if 256 <? Z.of_nat (length d1) then tail d1 else d1 in
        (Returned tt, set_delayedSends (<[Z.to_nat index := d2]> (delayedSends t)) t)
    end.

(** The first [for] of [broadcastMessage], inside its [while]: one attempt for
    every peer not yet in [sent]. *)
Fixpoint sendRound (nodes : list NodeInfo) (m : positive) (sent : gset Z)
  : M TransportNetwork (gset Z) :=
  match nodes with
  | [] => ret sent
  | it :: rest =>
      idx <- getSchainIndex it ;;
      let index := wrap64 (idx - 1) in
      me <- gets (fun t => schainIndex (sChain t)) ;;
      if negb (index =? wrap64 (me - 1)) && negb (bool_decide (index ∈ sent)) then
        setDstNodeID m (ni_nodeID it) ;;
        idx' <- getSchainIndex it ;;
        ASSERT (negb (idx' =? me)) ;;
        msg <- deref m ;;
        ok <- onChain (call (sendMessage it msg)) ;;
        idx'' <- getSchainIndex it ;;
        sendRound rest m (if ok : bool then {[wrap64 (idx'' - 1)]} ∪ sent else sent)
      else sendRound rest m sent
  end.

(** The [while] of [broadcastMessage]; [None] when it is still running after
    [fuel] rounds (it ends only once two thirds of the chain are reached). *)
Fixpoint quorumLoop (fuel : nat) (m : positive) (sent : gset Z)
  : M TransportNetwork (option (gset Z)) :=
  n <- gets nodeCount ;;
  if wrap64 (3 * (Z.of_nat (size sent) + 1)) <? wrap64 (n * 2) then
    match fuel with
    | O => ret None
    | S fuel' =>
        nodes <- gets nodeInfosByIndex ;;
        sent' <- sendRound nodes m sent ;;
        quorumLoop fuel' m sent'
    end
  else ret (Some sent).

(** The second [for] of [broadcastMessage]: queue the message for every peer
    that was not reached. *)
Fixpoint delayUnsent (nodes : list NodeInfo) (m : positive) (sent : gset Z)
  : M TransportNetwork unit :=
  match nodes with
  | [] => ret tt
  | it :: rest =>
      idx <- getSchainIndex it ;;
      let index := wrap64 (idx - 1) in
      me <- gets (fun t => schainIndex (sChain t)) ;;
      (if negb (index =? wrap64 (me - 1)) && negb (bool_decide (index ∈ sent)) then
         push_delayed index (m, it)
       else ret tt) ;;
      delayUnsent rest m sent
  end.

(** The last [for] of [broadcastMessage]; [confirmMessage] is empty. *)
Fixpoint confirmAll (nodes : list NodeInfo) (m : positive) : M TransportNetwork unit :=
  match nodes with
  | [] => ret tt
  | it :: rest =>
      idx <- getSchainIndex it ;;
      me <- gets (fun t => schainIndex (sChain t)) ;;
      (if negb (idx =? me) then setDstNodeID m (ni_nodeID it) else ret tt) ;;
      confirmAll rest m
  end.

(** [TransportNetwork::broadcastMessage]; [None] when the quorum loop has not
    ended within [fuel] rounds. *)
Definition broadcastMessage (fuel : nat) (m : positive)
  : M TransportNetwork (option unit) :=
  msg <- deref m ;;
  cb <- gets catchupBlocks ;;
  if nm_blockID msg <=? cb then ret (Some tt)
  else
    ip <- gets thisNodeIP ;;
    setIp m ip ;;
    msg' <- deref m ;;
    let oldID := nm_dstNodeID msg' in
    r <- quorumLoop fuel m ∅ ;;
    match r with
    | None => ret None
    | Some sent =>
        n <- gets nodeCount ;;
        nodes <- gets nodeInfosByIndex ;;
        (if wrap64 (Z.of_nat (size sent) + 1) <? n then delayUnsent nodes m sent
         else ret tt) ;;
        setDstNodeID m oldID ;;
        confirmAll nodes m ;;
        ret (Some tt)
    end.

(** The locked block of [deferredMessagesLoop] for deque [i]:
    [if (delayedSends[i].size() > 0)
       if (sendMessage(front().second, front().first)) delayedSends[i].pop_front();] *)
Definition retry_delayed (i : Z) : M TransportNetwork unit :=
  ds <- gets delayedSends ;;
  match ds !! Z.to_nat i with
  | None => throw Crash
  | Some [] => ret tt
  | Some ((m, peer) :: d') =>
      msg <- deref m ;;
      ok <- onChain (call (sendMessage peer msg)) ;;
      if ok : bool then
        modify (fun t => set_delayedSends (<[Z.to_nat i := d']> (delayedSends t)) t)
      else ret tt
  end.



(** *** Vocabulary of the statements about the transport *)

(** What the router does with an inbound envelope, in the words of the
    specification (section 4.4): [Bc] is the block being decided, [Rc] the
    round of the destination instance. *)
Inductive Disposition : Type :=
| Discarded
| Deferred (key : Z)
| Posted.

Definition router_rule (catchup Bc Rc : Z) (hasDecided : bool) (Bm Rm : Z) : Disposition :=
  if Bm <=? catchup then Discarded
  else if Bm >? Bc then Deferred Bm
  else if Rm >? wrap64 (Rc + 1) then Deferred Bm
  else if (Rm =? wrap64 (Rc + 1)) && negb hasDecided then Deferred Bm
  else Posted.

(** The transport after a disposition has been carried out. *)
Definition disposed (d : Disposition) (m : NetworkMessageEnvelope) (t : TransportNetwork)
  : TransportNetwork :=
  match d with
  | Discarded => t
  | Deferred key =>
      set_deferredMessageQueue
        (<[key := default [] (deferredMessageQueue t !! key) ++ [m]]>
           (deferredMessageQueue t)) t
  | Posted =>
      set_sChain (set_messageQueue (messageQueue (sChain t) ++ [EnvNetwork m]) (sChain t)) t
  end.

(** Every delayed-send deque holds at most 256 entries. *)
Definition bounded (t : TransportNetwork) : Prop :=
  Forall (fun d => (length d <= 256)%nat) (delayedSends t).

Definition keeps_bounded (t t' : TransportNetwork) : Prop := bounded t -> bounded t'.

(** A deque of at most 256 entries after [entry] has been appended at its
    tail: when it was full, its head has been evicted. *)
Definition pushed {A} (d : list A) (entry : A) : list A :=
  if (length d <? 256)%nat then d ++ [entry] else tail d ++ [entry].



(** States that agree on the deques and on the chain as the transport sees
    it. *)
Definition same_deques (t t' : TransportNetwork) : Prop :=
  delayedSends t' = delayedSends t /\
  nodeInfosByIndex t' = nodeInfosByIndex t /\
  nodeCount t' = nodeCount t /\
  schainIndex (sChain t') = schainIndex (sChain t).

(** States that agree on that and on the messages. *)
Definition same_sends (t t' : TransportNetwork) : Prop :=
  same_deques t t' /\ heap t' = heap t.


(** What a relation between transport states must allow for the steps that
    do not touch the delayed-send deques to preserve it. *)
Class TransportFrame (R : TransportNetwork -> TransportNetwork -> Prop) : Prop := {
  tframe_preorder :: PreOrder R;
  tframe_sChain : forall t c, R t (set_sChain c t);
  tframe_heap : forall t h, R t (set_heap h t);
  tframe_deferred : forall t q, R t (set_deferredMessageQueue q t)
}.

End WithNode.
Arguments TransportNetwork Node : clear implicits.

End Transport.

(** ** An in-memory node

    A small implementation of the collaborators, as a test double would
    provide them: data bases are lists, the host accepts every block, no exit
    is requested, peers listed in [dn_unreachable] do not answer.  The concrete runs of the
    embedded code below use it. *)

Module Demo.
Import Driver Transport.

Record DemoNode : Type := mkDemoNode {
  dn_clock : Z;
  dn_lastCommittedBlockID : Z;
  dn_blocks : list CommittedBlock;
  dn_proposals : list BlockProposal;
  dn_hashes : list (Z * Z);
  dn_unreachable : list Z
}.

Definition with_blocks (id : Z) (bs : list CommittedBlock) (n : DemoNode) : DemoNode :=
  mkDemoNode (dn_clock n) id bs (dn_proposals n) (dn_hashes n) (dn_unreachable n).

Definition with_proposals (ps : list BlockProposal) (n : DemoNode) : DemoNode :=
  mkDemoNode (dn_clock n) (dn_lastCommittedBlockID n) (dn_blocks n) ps (dn_hashes n)
    (dn_unreachable n).

Definition with_hashes (hs : list (Z * Z)) (n : DemoNode) : DemoNode :=
  mkDemoNode (dn_clock n) (dn_lastCommittedBlockID n) (dn_blocks n) (dn_proposals n) hs
    (dn_unreachable n).


Definition demo_proposal (id me ts tsMs : Z) : BlockProposal :=
  mkBlockProposal id me ts tsMs [] "hash" (Some "signature"%string).

Definition committed_of (p : BlockProposal) (sig : option string) : CommittedBlock :=
  mkCommittedBlock (bp_blockID p) (bp_proposerIndex p) (bp_timeStamp p) (bp_timeStampMs p)
    (bp_transactionList p) (bp_hash p) sig 0.

#[global] Instance demo_services : NodeServices DemoNode := {|
  isExitRequested := fun _ => false;
  getCurrentTimeMs := dn_clock;
  db_saveBlock := fun b => modify (fun n => with_blocks (cb_blockID b) (b :: dn_blocks n) n);
  db_readLastCommittedBlockID := gets dn_lastCommittedBlockID;
  db_getBlock := fun id =>
    gets (fun n => List.find (fun b => cb_blockID b =? id) (dn_blocks n));
  db_getBlockProposal := fun id idx =>
    gets (fun n =>
      List.find (fun p => (bp_blockID p =? id) && (bp_proposerIndex p =? idx))
        (dn_proposals n));
  db_addBlockProposal := fun p => modify (fun n => with_proposals (p :: dn_proposals n) n);
  db_haveProposal := fun id idx =>
    gets (fun n => existsb (fun h => (fst h =? id) && (snd h =? idx)) (dn_hashes n));
  db_checkAndSaveHash := fun id idx _ =>
    modify (fun n => with_hashes ((id, idx) :: dn_hashes n) n) ;; ret true;
  db_addAndMergeSigShareAndVerifySig := fun _ _ => ret None;
  db_addDAProof := fun _ => ret None;
  db_isEnoughProofs := fun _ => ret true;
  db_saveVector := fun _ _ => ret tt;
  db_getVector := fun _ => ret None;
  db_getMessages := fun _ => ret [];
  buildBlockProposal := fun id ts tsMs => ret (demo_proposal id 1 ts tsMs);
  signDAProofSigShare := fun _ => ret (Some "share"%string);
  enqueueProposal := fun _ => ret tt;
  enqueueDAProof := fun _ => ret tt;
  calculatePrice := fun _ _ _ _ => ret tt;
  readPrice := fun _ => ret 1000;
  makeObject := fun p sig => ret (committed_of p sig);
  createBlock := fun _ => ret tt;
  net_broadcastMessage := fun _ => ret tt;
  MODERN_TIME := 1547640182
|}.

#[global] Instance demo_net : NetServices DemoNode := {|
  getRound := fun _ _ => 0;
  decided := fun _ _ => false;
  sendMessage := fun peer _ =>
    gets (fun n => negb (existsb (Z.eqb (ni_schainIndex peer)) (dn_unreachable n)))
|}.


(** A node whose data bases are empty. *)
Definition fresh_node : DemoNode := mkDemoNode 1700000000000 0 [] [] [] [].

(** The driver of schain index 1 over [n], with [last] blocks committed, a
    host attached and nothing bootstrapped yet. *)
Definition driver (last : Z) (n : DemoNode) : Schain DemoNode :=
  mkSchain 1 last 0 0 0 0 false 0 [] true n [] [].

End Demo.

(** ** The block wire format ([datastructures/CommittedBlock.cpp]) *)

Module Wire.

(** *** JSON values, printing and parsing *)

#[local] Set Warnings "-register-all".

(** The values a block header is written from: the numbers of a header are
    integers. *)
Inductive json : Type :=
| JNull
| JBool (b : bool)
| JNumber (n : Z)
| JString (s : list ascii)
| JArray (elements : list json)
| JObject (members : list (list ascii * json)).

Definition quote : ascii := "034"%char.

Definition chars (s : string) : list ascii := list_ascii_of_string s.

Definition decimal (n : Z) : list ascii := chars (NilZero.string_of_int (Z.to_int n)).

(** [separated sep [a; b; c]] is [a ++ sep ++ b ++ sep ++ c]. *)
Fixpoint separated (sep : list ascii) (parts : list (list ascii)) : list ascii :=
  match parts with
  | [] => []
  | [p] => p
  | p :: rest => p ++ sep ++ separated sep rest
  end.

(** Modelled from the spec: [nlohmann::json::dump] is not among the sources;
    the header is the compact text of a JSON object (section 6, wire format). *)
Fixpoint dump (j : json) : list ascii :=
  match j with
  | JNull => chars "null"
  | JBool true => chars "true"
  | JBool false => chars "false"
  | JNumber n => decimal n
  | JString s => quote :: s ++ [quote]
  | JArray l => "["%char :: separated [","%char] (map dump l) ++ ["]"%char]
  | JObject l =>
      "{"%char ::
      separated [","%char]
        (map (fun kv => (quote :: fst kv ++ [quote]) ++ ":"%char :: dump (snd kv)) l)
      ++ ["}"%char]
  end.

Definition is_space (c : ascii) : bool :=
  match c with
  | " "%char | "009"%char | "010"%char | "013"%char => true
  | _ => false
  end.

Definition digit_value (c : ascii) : option Z :=
  let n := Z.of_nat (nat_of_ascii c) in
  if (48 <=? n) && (n <=? 57) then Some (n - 48) else None.

Fixpoint skip_space (l : list ascii) : list ascii :=
  match l with
  | c :: l' => if is_space c then skip_space l' else l
  | [] => []
  end.

Definition starts_with (p l : list ascii) : option (list ascii) :=
  if bool_decide (firstn (length p) l = p) then Some (skipn (length p) l) else None.

(** *** Parsed values *)

(** Modelled from the spec: the header is a JSON object (section 6), read
    with [nlohmann::json], which is not among the sources.  These are the
    values its parser builds: a number keeps its kind (an unsigned or a
    negative integer, or a binary64 value [m * 2 ^ e] when the literal has a
    fraction or an exponent or does not fit 64 bits), a string is its UTF-8
    bytes, and an object is a [std::map]: one value per key, sorted by key. *)
Inductive jvalue : Type :=
| VNull
| VBool (b : bool)
| VUnsigned (n : Z)
| VInteger (n : Z)
| VFloat (m e : Z)
| VString (s : list ascii)
| VArray (elements : list jvalue)
| VObject (members : list (list ascii * jvalue)).

Definition code (c : ascii) : Z := Z.of_nat (nat_of_ascii c).

Definition char_of (n : Z) : ascii := ascii_of_nat (Z.to_nat n).

(** The order of [std::string] keys: bytes compared as unsigned values. *)
Fixpoint key_ltb (a b : list ascii) : bool :=
  match a, b with
  | _, [] => false
  | [], _ :: _ => true
  | x :: a', y :: b' =>
      if code x <? code y then true
      else if code y <? code x then false
      else key_ltb a' b'
  end.

(** [object[key] = v] on the sorted members: a later value replaces an
    earlier one of the same key. *)
Fixpoint obj_insert (key : list ascii) (v : jvalue) (l : list (list ascii * jvalue))
  : list (list ascii * jvalue) :=
  match l with
  | [] => [(key, v)]
  | (k, w) :: l' =>
      if key_ltb key k then (key, v) :: l
      else if key_ltb k key then (k, w) :: obj_insert key v l'
      else (key, v) :: l'
  end.

Fixpoint obj_find (key : list ascii) (l : list (list ascii * jvalue)) : option jvalue :=
  match l with
  | [] => None
  | (k, w) :: l' => if bool_decide (k = key) then Some w else obj_find key l'
  end.

(** *** Numbers *)

(** The digits at the head of [l]: their value on top of [acc], their number
    on top of [n], and what follows them. *)
Fixpoint scan_digits (l : list ascii) (acc n : Z) : Z * Z * list ascii :=
  match l with
  | c :: l' =>
      match digit_value c with
      | Some d => scan_digits l' (10 * acc + d) (n + 1)
      | None => (acc, n, l)
      end
  | [] => (acc, n, [])
  end.

Definition starts_with_digit (l : list ascii) : bool :=
  match l with
  | c :: _ => match digit_value c with Some _ => true | None => false end
  | [] => false
  end.

(** An optional fraction after the integer part [acc]: the digits of both
    read as one integer, the number of fraction digits, the rest.  A point
    must be followed by a digit. *)
Definition scan_fraction (l : list ascii) (acc : Z) : option (Z * Z * list ascii) :=
  match l with
  | "."%char :: l1 => if starts_with_digit l1 then Some (scan_digits l1 acc 0) else None
  | _ => Some (acc, 0, l)
  end.

(** An optional exponent: [e] or [E], an optional sign, at least one digit. *)
Definition scan_exponent (l : list ascii) : option (option Z * list ascii) :=
  match l with
  | c :: l1 =>
      if (c =? "e")%char || (c =? "E")%char then
        let '(sign, l2) :=
          match l1 with
          | "+"%char :: r => (1, r)
          | "-"%char :: r => (-1, r)
          | _ => (1, l1)
          end in
        if starts_with_digit l2 then
          let '(x, _, r) := scan_digits l2 0 0 in Some (Some (sign * x), r)
        else None
      else Some (None, l)
  | [] => Some (None, [])
  end.

(** The binary64 value nearest to [p / q] (ties to even) as [m * 2 ^ e], for
    [0 <= p] and [0 < q]; [None] when it is beyond the largest finite value. *)
Definition round_binary64 (p q : Z) : option (Z * Z) :=
  if p =? 0 then Some (0, 0)
  else
    let k0 := Z.log2 p - Z.log2 q in
    let above := if 0 <=? k0 then q * 2 ^ k0 <=? p else q <=? p * 2 ^ (- k0) in
    let k := if above then k0 else k0 - 1 in
    let e := Z.max (k - 52) (-1074) in
    let P := if 0 <=? e then p else p * 2 ^ (- e) in
    let Q := if 0 <=? e then q * 2 ^ e else q in
    let d := P / Q in
    let r := P mod Q in
    let m := if 2 * r <? Q then d
             else if Q <? 2 * r then d + 1
             else if Z.even d then d else d + 1 in
    if (971 <? e) || ((e =? 971) && (2 ^ 53 <=? m)) then None
    else if m =? 0 then Some (0, 0)
    else Some (m, e).

(** The value of the literal [mant * 10 ^ e10], negated when [neg], as
    [strtod] reads it; a literal beyond the range of binary64 is refused
    (out of range). *)
Definition float_of (neg : bool) (mant e10 : Z) : option jvalue :=
  let sign := if neg then -1 else 1 in
  if mant =? 0 then Some (VFloat 0 0)
  else if 400 <? e10 then None
  else if e10 <? - (400 + Z.log2 mant + 1) then Some (VFloat 0 0)
  else
    match (if 0 <=? e10 then round_binary64 (mant * 10 ^ e10) 1
           else round_binary64 mant (10 ^ (- e10))) with
    | Some (m, e) => Some (VFloat (sign * m) e)
    | None => None
    end.

(** A number literal after its optional minus sign: [0] or digits without a
    leading zero, an optional fraction, an optional exponent.  Without
    fraction and exponent it is an integer when it fits 64 bits. *)
Definition scan_number (neg : bool) (l : list ascii) : option (jvalue * list ascii) :=
  match l with
  | c :: l1 =>
      match digit_value c with
      | Some d =>
          let '(ip, _, r1) := if d =? 0 then (0, 1, l1) else scan_digits l1 d 1 in
          match scan_fraction r1 ip with
          | Some (mant, places, r2) =>
              match scan_exponent r2 with
              | Some (ex, r3) =>
                  match places, ex with
                  | 0, None =>
                      if neg then
                        if ip <=? 2 ^ 63 then Some (VInteger (- ip), r3)
                        else (fun v => (v, r3)) <$> float_of neg ip 0
                      else
                        if ip <? 2 ^ 64 then Some (VUnsigned ip, r3)
                        else (fun v => (v, r3)) <$> float_of neg ip 0
                  | _, _ =>
                      (fun v => (v, r3)) <$> float_of neg mant (default 0 ex - places)
                  end
              | None => None
              end
          | None => None
          end
      | None => None
      end
  | [] => None
  end.

(** *** Strings *)

Definition hex_value (c : ascii) : option Z :=
  let n := code c in
  if (48 <=? n) && (n <=? 57) then Some (n - 48)
  else if (97 <=? n) && (n <=? 102) then Some (n - 87)
  else if (65 <=? n) && (n <=? 70) then Some (n - 55)
  else None.

(** Four hexadecimal digits, as after [\u]. *)
Definition hex4 (l : list ascii) : option (Z * list ascii) :=
  match l with
  | a :: b :: c :: d :: r =>
      match hex_value a, hex_value b, hex_value c, hex_value d with
      | Some x, Some y, Some z, Some w => Some (((x * 16 + y) * 16 + z) * 16 + w, r)
      | _, _, _, _ => None
      end
  | _ => None
  end.

(** The UTF-8 bytes of a code point. *)
Definition utf8 (cp : Z) : list ascii :=
  if cp <? 128 then [char_of cp]
  else if cp <? 2048 then [char_of (192 + cp / 64); char_of (128 + cp mod 64)]
  else if cp <? 65536 then
    [char_of (224 + cp / 4096); char_of (128 + cp / 64 mod 64); char_of (128 + cp mod 64)]
  else
    [char_of (240 + cp / 262144); char_of (128 + cp / 4096 mod 64);
     char_of (128 + cp / 64 mod 64); char_of (128 + cp mod 64)].

(** The bytes that may follow the first byte [c] of a multi-byte UTF-8
    sequence, as ranges; [None] when [c] cannot start one. *)
Definition utf8_ranges (c : Z) : option (list (Z * Z)) :=
  if (194 <=? c) && (c <=? 223) then Some [(128, 191)]
  else if c =? 224 then Some [(160, 191); (128, 191)]
  else if (225 <=? c) && (c <=? 236) || (238 <=? c) && (c <=? 239) then
    Some [(128, 191); (128, 191)]
  else if c =? 237 then Some [(128, 159); (128, 191)]
  else if c =? 240 then Some [(144, 191); (128, 191); (128, 191)]
  else if (241 <=? c) && (c <=? 243) then Some [(128, 191); (128, 191); (128, 191)]
  else if c =? 244 then Some [(128, 143); (128, 191); (128, 191)]
  else None.

Fixpoint take_ranges (ranges : list (Z * Z)) (l : list ascii)
  : option (list ascii * list ascii) :=
  match ranges, l with
  | [], _ => Some ([], l)
  | (lo, hi) :: ranges', c :: l' =>
      if (lo <=? code c) && (code c <=? hi) then
        match take_ranges ranges' l' with
        | Some (bs, r) => Some (c :: bs, r)
        | None => None
        end
      else None
  | _ :: _, [] => None
  end.

(** What a backslash introduces: the bytes it stands for and the rest.  A
    high surrogate must be followed by an escaped low surrogate; a low
    surrogate alone is refused. *)
Definition scan_escape (l : list ascii) : option (list ascii * list ascii) :=
  match l with
  | c :: r =>
      if (c =? quote)%char || (c =? "\")%char || (c =? "/")%char then Some ([c], r)
      else if (c =? "b")%char then Some (["008"%char], r)
      else if (c =? "f")%char then Some (["012"%char], r)
      else if (c =? "n")%char then Some (["010"%char], r)
      else if (c =? "r")%char then Some (["013"%char], r)
      else if (c =? "t")%char then Some (["009"%char], r)
      else if (c =? "u")%char then
        match hex4 r with
        | Some (hi, r1) =>
            if (55296 <=? hi) && (hi <=? 56319) then
              match r1 with
              | "\"%char :: "u"%char :: r2 =>
                  match hex4 r2 with
                  | Some (lo, r3) =>
                      if (56320 <=? lo) && (lo <=? 57343) then
                        Some (utf8 (65536 + (hi - 55296) * 1024 + (lo - 56320)), r3)
                      else None
                  | None => None
                  end
              | _ => None
              end
            else if (56320 <=? hi) && (hi <=? 57343) then None
            else Some (utf8 hi, r1)
        | None => None
        end
      else None
  | [] => None
  end.

(** The bytes of a string literal up to its closing quote: escapes are
    replaced, control characters and ill-formed UTF-8 are refused.  [fuel]
    bounds the number of characters. *)
Fixpoint scan_string (fuel : nat) (l : list ascii) (acc : list ascii)
  : option (list ascii * list ascii) :=
  match fuel with
  | O => None
  | S fuel' =>
      match l with
      | [] => None
      | c :: l' =>
          if (c =? quote)%char then Some (acc, l')
          else if (c =? "\")%char then
            match scan_escape l' with
            | Some (bs, r) => scan_string fuel' r (acc ++ bs)
            | None => None
            end
          else if code c <? 32 then None
          else if code c <? 128 then scan_string fuel' l' (acc ++ [c])
          else
            match utf8_ranges (code c) with
            | Some ranges =>
                match take_ranges ranges l' with
                | Some (bs, r) => scan_string fuel' r (acc ++ c :: bs)
                | None => None
                end
            | None => None
            end
      end
  end.

Definition string_literal (l : list ascii) : option (list ascii * list ascii) :=
  scan_string (length l) l [].

(** *** Values *)

(** The elements of an array after the first, up to the closing bracket. *)
Fixpoint scan_elements (value : list ascii -> option (jvalue * list ascii))
  (fuel : nat) (l : list ascii) (acc : list jvalue) : option (list jvalue * list ascii) :=
  match fuel with
  | O => None
  | S fuel' =>
      match skip_space l with
      | "]"%char :: r => Some (acc, r)
      | ","%char :: r =>
          match value r with
          | Some (v, r') => scan_elements value fuel' r' (acc ++ [v])
          | None => None
          end
      | _ => None
      end
  end.

(** One member of an object: a string, a colon, a value. *)
Definition scan_member (value : list ascii -> option (jvalue * list ascii))
  (l : list ascii) : option ((list ascii * jvalue) * list ascii) :=
  match skip_space l with
  | c :: r =>
      if (c =? quote)%char then
        match string_literal r with
        | Some (k, r1) =>
            match skip_space r1 with
            | ":"%char :: r2 =>
                match value r2 with
                | Some (v, r3) => Some ((k, v), r3)
                | None => None
                end
            | _ => None
            end
        | None => None
        end
      else None
  | [] => None
  end.

(** The members of an object after the first, up to the closing brace. *)
Fixpoint scan_members (value : list ascii -> option (jvalue * list ascii))
  (fuel : nat) (l : list ascii) (acc : list (list ascii * jvalue))
  : option (list (list ascii * jvalue) * list ascii) :=
  match fuel with
  | O => None
  | S fuel' =>
      match skip_space l with
      | "}"%char :: r => Some (acc, r)
      | ","%char :: r =>
          match scan_member value r with
          | Some ((k, v), r') => scan_members value fuel' r' (obj_insert k v acc)
          | None => None
          end
      | _ => None
      end
  end.

(** A JSON value at the head of [l]; [fuel] bounds the nesting depth. *)
Fixpoint scan_value (fuel : nat) (l : list ascii) : option (jvalue * list ascii) :=
  match fuel with
  | O => None
  | S fuel' =>
      match skip_space l with
      | [] => None
      | "{"%char :: r =>
          match skip_space r with
          | "}"%char :: r' => Some (VObject [], r')
          | _ =>
              match scan_member (scan_value fuel') r with
              | Some (kv, r') =>
                  match scan_members (scan_value fuel') (length r') r' [kv] with
                  | Some (kvs, r'') => Some (VObject kvs, r'')
                  | None => None
                  end
              | None => None
              end
          end
      | "["%char :: r =>
          match skip_space r with
          | "]"%char :: r' => Some (VArray [], r')
          | _ =>
              match scan_value fuel' r with
              | Some (v, r') =>
                  match scan_elements (scan_value fuel') (length r') r' [v] with
                  | Some (vs, r'') => Some (VArray vs, r'')
                  | None => None
                  end
              | None => None
              end
          end
      | "-"%char :: r => scan_number true r
      | c :: r =>
          if (c =? quote)%char then
            match string_literal r with
            | Some (s, r') => Some (VString s, r')
            | None => None
            end
          else if starts_with_digit (c :: r) then scan_number false (c :: r)
          else
            match starts_with (chars "true") (c :: r) with
            | Some r' => Some (VBool true, r')
            | None =>
                match starts_with (chars "false") (c :: r) with
                | Some r' => Some (VBool false, r')
                | None =>
                    match starts_with (chars "null") (c :: r) with
                    | Some r' => Some (VNull, r')
                    | None => None
                    end
                end
            end
      end
  end.

(** Modelled from the spec: [nlohmann::json::parse] is not among the sources.
    It accepts a text that is exactly one JSON value (RFC 8259) surrounded by
    white space and refuses anything else.  A byte-order mark before the
    value is outside the model: [parseBlockHeader] parses texts that start
    with a brace. *)
Definition parse (text : list ascii) : option jvalue :=
  match scan_value (S (length text)) text with
  | Some (j, r) => match skip_space r with [] => Some j | _ => None end
  | None => None
  end.

(** *** Bytes *)

Definition byte_of_Z (v : Z) : Byte.byte :=
  default Byte.x00 (Byte.of_N (Z.to_N (v mod 256))).

Definition Z_of_byte (b : Byte.byte) : Z := Z.of_N (Byte.to_N b).

(** [n] bytes of [v], least significant first. *)
Fixpoint le_bytes (n : nat) (v : Z) : list Byte.byte :=
  match n with
  | O => []
  | S n' => byte_of_Z v :: le_bytes n' (v / 256)
  end.

(** The unsigned integer stored least significant byte first. *)
Fixpoint le_value (l : list Byte.byte) : Z :=
  match l with
  | [] => 0
  | b :: l' => Z_of_byte b + 256 * le_value l'
  end.

Definition bytes_of_chars (l : list ascii) : list Byte.byte := map byte_of_ascii l.
Definition chars_of_bytes (l : list Byte.byte) : list ascii := map ascii_of_byte l.

(** *** The block and its header *)

(** The fields of [CommittedBlock] that serialization writes and reads. *)
Record Block : Type := mkBlock {
  blk_proposerIndex : Z;
  blk_proposerNodeID : Z;
  blk_blockID : Z;
  blk_schainID : Z;
  blk_timeStamp : Z;
  blk_timeStampMs : Z;
  blk_transactionCount : Z;
  blk_hash : list ascii;
  blk_transactionList : list Transaction
}.

Definition with_transactions (txs : list Transaction) (b : Block) : Block :=
  mkBlock (blk_proposerIndex b) (blk_proposerNodeID b) (blk_blockID b) (blk_schainID b)
    (blk_timeStamp b) (blk_timeStampMs b) (blk_transactionCount b) (blk_hash b) txs.

Definition with_hash (h : list ascii) (b : Block) : Block :=
  mkBlock (blk_proposerIndex b) (blk_proposerNodeID b) (blk_blockID b) (blk_schainID b)
    (blk_timeStamp b) (blk_timeStampMs b) (blk_transactionCount b) h
    (blk_transactionList b).

(** Modelled from the spec: [CommittedBlockHeader::addFields] is not among the
    sources; the header is the JSON object
    [{proposerIndex, proposerNodeID, blockID, schainID, timeStamp, timeStampMs,
      hash, sizes}] with one size per transaction. *)
Definition header_json (b : Block) : json :=
  JObject
    [ (chars "proposerIndex", JNumber (blk_proposerIndex b));
      (chars "proposerNodeID", JNumber (blk_proposerNodeID b));
      (chars "blockID", JNumber (blk_blockID b));
      (chars "schainID", JNumber (blk_schainID b));
      (chars "timeStamp", JNumber (blk_timeStamp b));
      (chars "timeStampMs", JNumber (blk_timeStampMs b));
      (chars "hash", JString (blk_hash b));
      (chars "sizes",
        JArray (map (fun tx : Transaction => JNumber (Z.of_nat (length tx)))
                  (blk_transactionList b))) ].

(** Modelled from the spec: [Header::toBuffer] is not among the sources; the
    buffer holds the header size in 8 bytes, little-endian, then that many
    bytes of JSON text. *)
Definition toBuffer (b : Block) : list Byte.byte :=
  let text := dump (header_json b) in
  le_bytes 8 (Z.of_nat (length text)) ++ bytes_of_chars text.

Definition byte_is (c : ascii) (o : option Byte.byte) : bool :=
  match o with
  | Some b => (ascii_of_byte b =? c)%char
  | None => false
  end.

(** [CommittedBlock::serialize].  [vector::at] throws outside the vector.
    Modelled from the spec: [Transaction::serializeInto] is not among the
    sources; it appends the payload of the transaction. *)
Definition serialize (b : Block) : outcome (list Byte.byte) :=
  let items := blk_transactionList b in
  let buf := toBuffer b in
  if negb (byte_is "{" (buf !! 8%nat)) then Thrown AssertionFailure
  else if negb (byte_is "}" (buf !! (length buf - 1)%nat)) then Thrown AssertionFailure
  else
    let block := buf ++ concat items in
    if negb (byte_is "{" (block !! 8%nat)) then Thrown AssertionFailure
    else Returned block.

Definition is_hex_digit (c : ascii) : bool :=
  let n := nat_of_ascii c in
  ((48 <=? n) && (n <=? 57) || (97 <=? n) && (n <=? 102) || (65 <=? n) && (n <=? 70))%nat.

(** Modelled from the spec: [SHAHash::fromHex] is not among the sources; a
    hash is the hexadecimal text of a SHA-256 value, 64 digits. *)
Definition fromHex (s : list ascii) : option (list ascii) :=
  if (length s =? 64)%nat && forallb is_hex_digit s then Some s else None.

(** *** Reading a parsed header *)

(** A step that does not touch the state. *)
Definition lift {St A} (o : outcome A) : M St A := fun s => (o, s).

(** Modelled from the spec: [nlohmann::json::find] is not among the sources;
    [js.find(name)] is the member of that name, if [js] is an object that
    has one. *)
Definition find (js : jvalue) (name : string) : option jvalue :=
  match js with
  | VObject l => obj_find (chars name) l
  | _ => None
  end.

(** Modelled from the spec: [nlohmann::json::operator[]] is not among the
    sources.  [js[name]] on a [json] that is not [const]: a member that is
    missing is added with the value [null]; only an object, or [null], which
    becomes an object, can be indexed by a name. *)
Definition subscript (name : string) : M jvalue jvalue :=
  fun js =>
    match js with
    | VObject l =>
        match obj_find (chars name) l with
        | Some v => (Returned v, js)
        | None => (Returned VNull, VObject (obj_insert (chars name) VNull l))
        end
    | VNull => (Returned VNull, VObject [(chars name, VNull)])
    | _ => (Thrown OtherException, js)
    end.

(** [static_cast] of a binary64 value to an integer: towards zero. *)
Definition truncate (m e : Z) : Z :=
  if 0 <=? e then m * 2 ^ e else Z.quot m (2 ^ (- e)).

(** Modelled from the spec: the conversions of [nlohmann::json] are not
    among the sources.  The conversion of a value to an unsigned integer of
    [bits] bits ([json] to [uint64_t], [uint32_t] or [size_t]): integers wrap
    around, a binary64 value is truncated, and the conversion is undefined
    when the truncated value does not fit; a truth value converts only to a
    type that is not [uint64_t]; any other value is a type error. *)
Definition to_unsigned (bits : Z) (v : jvalue) : outcome Z :=
  match v with
  | VUnsigned n | VInteger n => Returned (n mod 2 ^ bits)
  | VFloat m e =>
      let t := truncate m e in
      if (0 <=? t) && (t <? 2 ^ bits) then Returned t else Thrown Crash
  | VBool b => if bits =? 64 then Thrown OtherException else Returned (if b then 1 else 0)
  | _ => Thrown OtherException
  end.

(** Modelled from the spec: [Header::nullCheck], [Header::getUint64],
    [Header::getUint32] and [Header::getString] are not among the sources.  A
    required field must be present ([nullCheck] looks the name up) and is
    then converted to the type asked for. *)
Definition nullCheck (name : string) : M jvalue unit :=
  fun js =>
    match find js name with
    | Some _ => (Returned tt, js)
    | None => (Thrown OtherException, js)
    end.

Definition getUint64 (name : string) : M jvalue Z :=
  nullCheck name ;;
  v <- subscript name ;;
  lift (to_unsigned 64 v).

Definition getUint32 (name : string) : M jvalue Z :=
  nullCheck name ;;
  v <- subscript name ;;
  lift (to_unsigned 32 v).

Definition getString (name : string) : M jvalue (list ascii) :=
  nullCheck name ;;
  v <- subscript name ;;
  match v with
  | VString s => ret s
  | _ => throw OtherException
  end.

(** Modelled from the spec: the iterators and [size()] of [nlohmann::json]
    are not among the sources.  What a range-[for] over a value visits, and
    what [size()] counts: nothing for [null], the elements of an array, the
    values of an object, and the value itself otherwise. *)
Definition items (v : jvalue) : list jvalue :=
  match v with
  | VNull => []
  | VArray l => l
  | VObject l => map snd l
  | _ => [v]
  end.

(** The loop of [parseBlockHeader]: every item is converted to [size_t]. *)
Fixpoint sizes_of (l : list jvalue) : outcome (list Z) :=
  match l with
  | [] => Returned []
  | v :: l' =>
      match to_unsigned 64 v with
      | Returned n =>
          match sizes_of l' with
          | Returned r => Returned (n :: r)
          | Thrown e => Thrown e
          end
      | Thrown e => Thrown e
      end
  end.

Definition hash_of (s : list ascii) : outcome (list ascii) :=
  match fromHex s with
  | Some h => Returned h
  | None => Thrown InvalidArgumentException
  end.

(** The body of [CommittedBlock::parseBlockHeader] after the text has been
    parsed, statement by statement, on the parsed header [js].
    [transactionCount] is set twice; the first time, [js["sizes"]] is
    evaluated before [nullCheck(js, "sizes")]. *)
Definition header_fields : M jvalue (Block * list Z) :=
  proposerIndex <- getUint64 "proposerIndex" ;;
  proposerNodeID <- getUint64 "proposerNodeID" ;;
  blockID <- getUint64 "blockID" ;;
  schainID <- getUint64 "schainID" ;;
  timeStamp <- getUint64 "timeStamp" ;;
  timeStampMs <- getUint32 "timeStampMs" ;;
  sizes <- subscript "sizes" ;;
  let transactionCount := Z.of_nat (length (items sizes)) in
  hashText <- getString "hash" ;;
  hash <- lift (hash_of hashText) ;;
  nullCheck "sizes" ;;
  jsonTransactionSizes <- subscript "sizes" ;;
  let transactionCount := Z.of_nat (length (items jsonTransactionSizes)) in
  transactionSizes <- lift (sizes_of (items jsonTransactionSizes)) ;;
  ret (mkBlock proposerIndex proposerNodeID blockID schainID timeStamp timeStampMs
         transactionCount hash [],
       transactionSizes).

(** [CommittedBlock::parseBlockHeader]: the fields it sets and the sizes it
    returns.  A failure of the JSON library or of a field getter is
    [OtherException]. *)
Definition parseBlockHeader (header : list ascii) : outcome (Block * list Z) :=
  if negb (2 <? length header)%nat then Thrown InvalidArgumentException
  else if negb (bool_decide (header !! 0%nat = Some "{"%char)) then
    Thrown InvalidArgumentException
  else if negb (bool_decide (header !! (length header - 1)%nat = Some "}"%char)) then
    Thrown InvalidArgumentException
  else
    match parse header with
    | None => Thrown OtherException
    | Some js => fst (header_fields js)
    end.

(** Modelled from the spec: [TransactionList::deserialize (sizes, bytes,
    offset)] is not among the sources.  The payloads are concatenated in the
    order declared by [sizes] (section 6); [SerializationTests.cpp] calls it
    with offset 0 on a bare list, so the offset is the index of the first
    payload byte.  A size that runs past the end of the input is refused. *)
Fixpoint TransactionList_deserialize (sizes : list Z) (bytes : list Byte.byte)
  (index : Z) : outcome (list Transaction) :=
  match sizes with
  | [] => Returned []
  | size :: rest =>
      let endIndex := index + size in
      if Z.of_nat (length bytes) <? endIndex then Thrown AssertionFailure
      else
        match TransactionList_deserialize rest bytes endIndex with
        | Returned txs =>
            Returned (firstn (Z.to_nat size) (skipn (Z.to_nat index) bytes) :: txs)
        | Thrown e => Thrown e
        end
  end.

Section WithConstants.

(** [MAX_BUFFER_SIZE], a constant of [SkaleCommon.h], and
    [BlockProposal::calculateHash] (SHA-256 over the block), both not among
    the sources. *)
Variable MAX_BUFFER_SIZE : Z.
Variable calculateHash : Block -> list ascii.

(** The constructor [CommittedBlock::CommittedBlock(ptr<vector<uint8_t>>)],
    which is [CommittedBlock::deserialize].  [headerSize] is read as on a
    little-endian machine.  When [headerSize + sizeof(headerSize)] has wrapped
    around, the header string of [headerSize] characters cannot be allocated
    ([std::length_error]). *)
Definition deserialize (_serializedBlock : list Byte.byte) : outcome Block :=
  let size := Z.of_nat (length _serializedBlock) in
  if size <? 8 + 2 then Thrown InvalidArgumentException
  else
    let headerSize := le_value (firstn 8 _serializedBlock) in
    if (headerSize <? 2) || (wrap64 (headerSize + 8) >? size) then
      Thrown InvalidArgumentException
    else if headerSize >? MAX_BUFFER_SIZE then Thrown InvalidArgumentException
    else if headerSize + 8 >? size then Thrown OtherException
    else
      let header :=
        chars_of_bytes (firstn (Z.to_nat headerSize) (skipn 8 _serializedBlock)) in
      match parseBlockHeader header with
      | Thrown Crash => Thrown Crash
      | Thrown _ => Thrown ParsingException
      | Returned (fields, transactionSizes) =>
          match TransactionList_deserialize transactionSizes _serializedBlock headerSize with
          | Thrown e => Thrown e
          | Returned txs =>
              let b := with_transactions txs fields in
              Returned (with_hash (calculateHash b) b)
          end
      end.

End WithConstants.

(** *** Vocabulary of the statements about the wire format *)

(** The header size an input announces and the header text that follows it. *)
Definition headerSize_of (bytes : list Byte.byte) : Z := le_value (firstn 8 bytes).

Definition header_of (bytes : list Byte.byte) : list ascii :=
  chars_of_bytes (firstn (Z.to_nat (headerSize_of bytes)) (skipn 8 bytes)).

End Wire.

(** ** Sample states and inputs

    The concrete values on which the embedded code is run below. *)

Module Samples.
Import Driver Transport Demo Wire.

(** A node that holds the proposal of proposer 1 for block 5. *)
Definition node_with_proposal : DemoNode :=
  with_proposals [demo_proposal 5 1 1577836800 250] fresh_node.

Definition commit5 : FinalizeCall :=
  BlockCommitArrived 5 1 1577836800 250 (Some "threshold signature"%string).

(** A signed block without transactions. *)
Definition signed_block (id : Z) : CommittedBlock :=
  mkCommittedBlock id 2 1577836800 250 [] "hash" (Some "signature"%string) 0.

(** The driver that held four blocks, after block 5 has been committed. *)
Definition after_block5 : Schain DemoNode :=
  snd (processCommittedBlock (signed_block 5) (driver 4 fresh_node)).

(** A node that holds the proposal of proposer 1 for block 9, and the driver
    without blocks over it once the time stamp of a commit has been stored. *)
Definition node_with_proposal9 : DemoNode :=
  with_proposals [demo_proposal 9 1 1577836800 250] fresh_node.

Definition stamped_at_0 : Schain DemoNode :=
  set_lastCommittedBlockTimeStampMs 250
    (set_lastCommittedBlockTimeStamp 1577836800 (driver 0 node_with_proposal9)).

(** The data base of a node restored from a snapshot: its head is block 100. *)
Definition block100 : CommittedBlock :=
  mkCommittedBlock 100 2 1577836800 250 [] "hash" (Some "signature"%string) 0.

Definition snapshot_node : DemoNode := with_blocks 100 [block100] fresh_node.


(** The first block arrives through catch-up with the time stamp
    (2000 s, 500 ms) at a driver bootstrapped at 1000 s. *)
Definition block1 : CommittedBlock :=
  mkCommittedBlock 1 2 2000 500 [] "hash" (Some "signature"%string) 0.

Definition after_catchup : Schain DemoNode :=
  snd (blockCommitsArrivedThroughCatchup [block1]
         (snd (bootstrap 0 1000 (driver 0 fresh_node)))).

(** A chain of four nodes seen from node 1, with five blocks committed and
    one message, for block 6, on the heap. *)
Definition peer (i : Z) : NodeInfo := mkNodeInfo (100 + i) i.

Definition aux_message (blockID round : Z) : NetworkMessage :=
  mkNetworkMessage blockID 2 AUX_BROADCAST 7 101 0 round 1 0 "share".

Definition demo_transport (n : DemoNode) (ds : list (list (positive * NodeInfo)))
  : TransportNetwork DemoNode :=
  mkTransportNetwork (driver 5 n) 0 4 [peer 1; peer 2; peer 3; peer 4] 167772161
    ∅ ds {[1%positive := aux_message 6 0]}.

(** An envelope for block 9, three blocks ahead of the one being decided. *)
Definition future_envelope : NetworkMessageEnvelope :=
  mkNetworkMessageEnvelope (aux_message 9 0) 2.





(** Blocks, with a stand-in for the hash function. *)
Definition zeros64 : list ascii := repeat "0"%char 64.

Definition constant_hash (_ : Block) : list ascii := zeros64.

Definition empty_block : Block := mkBlock 1 11 7 1 1577836800 250 0 zeros64 [].

Definition two_transactions : Block :=
  mkBlock 1 11 7 1 1577836800 250 2 zeros64 [repeat Byte.xaa 5; repeat Byte.xbb 5].

Definition serialized (b : Block) : list Byte.byte :=
  match serialize b with
  | Returned bytes => bytes
  | Thrown _ => []
  end.

(** A header text and a payload put together as [serialize] does. *)
Definition framed (text : list ascii) (payload : list Byte.byte) : list Byte.byte :=
  le_bytes 8 (Z.of_nat (length text)) ++ bytes_of_chars text ++ payload.

(** A header with the member [name] left out. *)
Definition without (name : string) (j : json) : json :=
  match j with
  | JObject l => JObject (List.filter (fun kv => negb (bool_decide (fst kv = chars name))) l)
  | _ => j
  end.

(** The header of [empty_block] without its [sizes]. *)
Definition header_without_sizes : json := without "sizes" (header_json empty_block).

(** The fields [parseBlockHeader] reads besides [sizes]. *)
Definition other_fields : list string :=
  ["proposerIndex"; "proposerNodeID"; "blockID"; "schainID"; "timeStamp"; "timeStampMs";
   "hash"]%string.

(** The header of [empty_block], with the block id written as a string. *)
Definition ill_typed_header : json :=
  JObject
    [ (chars "proposerIndex", JNumber 1);
      (chars "proposerNodeID", JNumber 11);
      (chars "blockID", JString (chars "7"));
      (chars "schainID", JNumber 1);
      (chars "timeStamp", JNumber 1577836800);
      (chars "timeStampMs", JNumber 250);
      (chars "hash", JString zeros64);
      (chars "sizes", JArray []) ].

End Samples.

(** ** Further methods of the driver and of the transport

    [Schain::finalizeDecidedAndSignedBlock] and the message thread of
    [Schain::messageThreadProcessingLoop], with the vocabulary of the
    statements about them, about the deferred queue and about the message
    [broadcastMessage] shares. *)

Module Ledger.
Import Driver.
Section WithNode.
Context {Node : Type} {svc : NodeServices Node}.

(** States that agree on every field of the driver except the state of the
    collaborators, the message queue and the record of proposed block ids. *)
Definition ledger_frame (s s' : Schain Node) : Prop :=
  schainIndex s' = schainIndex s /\
  lastCommittedBlockID s' = lastCommittedBlockID s /\
  lastCommitTime s' = lastCommitTime s /\
  lastCommittedBlockTimeStamp s' = lastCommittedBlockTimeStamp s /\
  lastCommittedBlockTimeStampMs s' = lastCommittedBlockTimeStampMs s /\
  totalTransactions s' = totalTransactions s /\
  bootStrapped s' = bootStrapped s /\
  bootstrapBlockID s' = bootstrapBlockID s /\
  hasExtFace s' = hasExtFace s /\
  createBlockCalls s' = createBlockCalls s.

End WithNode.
End Ledger.


Module Finalization.
Import Driver.

(** What [finalizeDecidedAndSignedBlock] asks of code that is not among the
    sources, besides the collaborators of [NodeServices]. *)
Class FinalizeServices (Node : Type) : Type := {
  (** [DAProofDB::haveDAProof] *)
  haveDAProof : BlockProposal -> M Node bool;
  (** [TestConfig::isFinalizationDownloadOnly], a switch "for testing only" *)
  isFinalizationDownloadOnly : Node -> bool;
  (** [BlockFinalizeDownloader::downloadProposal] for a block id and a
      proposer index; "nullptr means catchup happened first" *)
  downloadProposal : Z -> Z -> M Node (option BlockProposal)
}.

Section WithNode.
Context {Node : Type} {svc : NodeServices Node} {fin : FinalizeServices Node}.

(** The proposal being finalized: the empty proposal built on the spot, or a
    proposal from the data base or from the download. *)
Inductive Proposal : Type :=
| EmptyProposal (e : EmptyBlockProposal)
| ProposalOf (p : BlockProposal).

Definition getTimeStamp (p : Proposal) : Z :=
  match p with
  | EmptyProposal e => ebp_timeStamp e
  | ProposalOf p => bp_timeStamp p
  end.

Definition getTimeStampMs (p : Proposal) : Z :=
  match p with
  | EmptyProposal e => ebp_timeStampMs e
  | ProposalOf p => bp_timeStampMs p
  end.

(** [Schain::finalizeDecidedAndSignedBlock] *)
Definition finalizeDecidedAndSignedBlock (_blockId _proposerIndex : Z)
  (_thresholdSig : option string) : M (Schain Node) unit :=
  CHECK_ARGUMENT (non_null _thresholdSig) ;;
  last <- gets lastCommittedBlockID ;;
  if _blockId <=? last then ret tt
  else
    rethrow_as_InvalidState
      (found <-
         (if _proposerIndex =? 0 then
            e <- gets (createEmptyBlockProposal _blockId) ;;
            ret (Some (EmptyProposal e), true)
          else
            p <- call (db_getBlockProposal _blockId _proposerIndex) ;;
            match p with
            | Some p' =>
                have <- call (haveDAProof p') ;;
                ret (Some (ProposalOf p'), have)
            | None => ret (None, false)
            end) ;;
       downloadOnly <- gets (fun s => isFinalizationDownloadOnly (node s)) ;;
       proposal <-
         (if negb (snd found) || downloadOnly then
            d <- call (downloadProposal _blockId _proposerIndex) ;;
            match d with
            | Some p => call (db_addBlockProposal p) ;; ret (Some (ProposalOf p))
            | None => ret None
            end
          else ret (fst found)) ;;
       match proposal with
       | Some p =>
           blockCommitArrived _blockId _proposerIndex (getTimeStamp p) (getTimeStampMs p)
             _thresholdSig
       | None => ret tt
       end).

(** The stored time stamp of the last committed block, as a pair. *)
Definition stamp (s : Schain Node) : Z * Z :=
  (lastCommittedBlockTimeStamp s, lastCommittedBlockTimeStampMs s).

End WithNode.
End Finalization.


Module MessageLoop.
Import Driver.
Section WithNode.
Context {Node : Type} {svc : NodeServices Node}.

(** [BlockConsensusAgent::routeAndProcessMessage] is not among the sources:
    it runs on the driver, where it may post messages and commit blocks, and
    it may throw. *)
Variable routeAndProcessMessage : MessageEnvelope -> M (Schain Node) unit.

(** What a turn of the message thread leads to: the next turn, a wait on
    [messageCond] because the queue is empty, or the end of the thread. *)
Inductive Turn : Type := Next | Waits | Ends.

(** The inner [while (!newQueue.empty())] of
    [Schain::messageThreadProcessingLoop], on the copy of the queue.  The
    handler is [catch (exception& e)]: it ends the thread when an exit has
    been requested and logs the exception otherwise.  Every exception kind
    of [exn] but [Crash] derives from [std::exception]; the assertion is
    outside the [try]. *)
Fixpoint processQueue (newQueue : list MessageEnvelope) : M (Schain Node) Turn :=
  match newQueue with
  | [] => ret Next
  | m :: rest =>
      ASSERT (negb (envelope_blockID m =? 0)) ;;
      r <- try_catch (routeAndProcessMessage m ;; ret Next)
             (fun _ =>
                exiting <- gets (fun s => isExitRequested (node s)) ;;
                ret (if exiting : bool then Ends else Next)) ;;
      match r with
      | Next => processQueue rest
      | other => ret other
      end
  end.

(** One turn of the outer [while] of [Schain::messageThreadProcessingLoop]:
    the queue is copied and emptied under the lock, then the copy is
    processed.  On an empty queue the thread waits. *)
Definition messageThreadProcessingLoop_turn : M (Schain Node) Turn :=
  exiting <- gets (fun s => isExitRequested (node s)) ;;
  if exiting : bool then ret Ends
  else
    newQueue <- gets messageQueue ;;
    match newQueue with
    | [] => ret Waits
    | _ :: _ =>
        modify (set_messageQueue []) ;;
        processQueue newQueue
    end.

End WithNode.

Section Vocabulary.
Context {Node : Type}.

(** The envelopes the loop's assertion accepts. *)
Definition routable (m : MessageEnvelope) : Prop := envelope_blockID m <> 0.

(** The queue of [s'] is the queue of [s] followed by routable envelopes. *)
Definition queue_grows (s s' : Schain Node) : Prop :=
  exists posted, messageQueue s' = messageQueue s ++ posted /\ Forall routable posted.

End Vocabulary.
End MessageLoop.


Module Entries.
Import Driver Finalization.
Section WithNode.
Context {Node : Type} {svc : NodeServices Node} {fin : FinalizeServices Node}.

(** The methods of [Schain] through which the rest of the process drives it. *)
Inductive Entry : Type :=
| PostMessage (m : MessageEnvelope)
| ProposedBlockArrived (p : BlockProposal)
| StartConsensus (_blockID : Z) (_proposalVector : BooleanProposalVector)
| DaProofArrived (d : DAProof)
| DaProofSigShareArrived (_sigShare : option string) (p : BlockProposal)
| ProposeNextBlock (_previousBlockTimeStamp _previousBlockTimeStampMs : Z)
| ProcessCommittedBlock (b : CommittedBlock)
| BlockCommit (_committedBlockID _proposerIndex _committedTimeStamp
    _committedTimeStampMs : Z) (_thresholdSig : option string)
| Catchup (_blocks : list CommittedBlock)
| Bootstrap (_lastCommittedBlockID _lastCommittedBlockTimeStamp : Z)
| FinalizeDecided (_blockId _proposerIndex : Z) (_thresholdSig : option string).

Definition enter (e : Entry) : M (Schain Node) unit :=
  match e with
  | PostMessage m => postMessage m
  | ProposedBlockArrived p => proposedBlockArrived p
  | StartConsensus b v => startConsensus b v
  | DaProofArrived d => daProofArrived d
  | DaProofSigShareArrived sh p => daProofSigShareArrived sh p
  | ProposeNextBlock ts ms => proposeNextBlock ts ms
  | ProcessCommittedBlock b => processCommittedBlock b
  | BlockCommit B idx ts tsMs sig => blockCommitArrived B idx ts tsMs sig
  | Catchup bs => blockCommitsArrivedThroughCatchup bs
  | Bootstrap id ts => bootstrap id ts
  | FinalizeDecided B idx sig => finalizeDecidedAndSignedBlock B idx sig
  end.

(** Block ids passed to the driver are [uint64_t] values; [bootstrap], which
    sets [lastCommittedBlockID] to what the host says, is not a step of a
    running driver. *)
Definition running_entry (e : Entry) : Prop :=
  match e with
  | BlockCommit B _ _ _ _ => u64 B
  | Catchup bs => Forall (fun b => u64 (cb_blockID b)) bs
  | FinalizeDecided B _ _ => u64 B
  | Bootstrap _ _ => False
  | _ => True
  end.

(** The driver after a sequence of calls; a call that throws leaves the state
    it had reached. *)
Fixpoint enter_all (es : list Entry) (s : Schain Node) : Schain Node :=
  match es with
  | [] => s
  | e :: es' => enter_all es' (snd (enter e s))
  end.

End WithNode.
End Entries.


Module MoreSamples.
Import Driver Transport Demo Finalization MessageLoop Entries Samples.

(** The in-memory node with a block data base that refuses every write. *)
Definition full_disk_services : NodeServices DemoNode := {|
  isExitRequested := fun _ => false;
  getCurrentTimeMs := dn_clock;
  db_saveBlock := fun _ => throw OtherException;
  db_readLastCommittedBlockID := gets dn_lastCommittedBlockID;
  db_getBlock := fun id =>
    gets (fun n => List.find (fun b => cb_blockID b =? id) (dn_blocks n));
  db_getBlockProposal := fun id idx =>
    gets (fun n =>
      List.find (fun p => (bp_blockID p =? id) && (bp_proposerIndex p =? idx))
        (dn_proposals n));
  db_addBlockProposal := fun p => modify (fun n => with_proposals (p :: dn_proposals n) n);
  db_haveProposal := fun id idx =>
    gets (fun n => existsb (fun h => (fst h =? id) && (snd h =? idx)) (dn_hashes n));
  db_checkAndSaveHash := fun id idx _ =>
    modify (fun n => with_hashes ((id, idx) :: dn_hashes n) n) ;; ret true;
  db_addAndMergeSigShareAndVerifySig := fun _ _ => ret None;
  db_addDAProof := fun _ => ret None;
  db_isEnoughProofs := fun _ => ret true;
  db_saveVector := fun _ _ => ret tt;
  db_getVector := fun _ => ret None;
  db_getMessages := fun _ => ret [];
  buildBlockProposal := fun id ts tsMs => ret (demo_proposal id 1 ts tsMs);
  signDAProofSigShare := fun _ => ret (Some "share"%string);
  enqueueProposal := fun _ => ret tt;
  enqueueDAProof := fun _ => ret tt;
  calculatePrice := fun _ _ _ _ => ret tt;
  readPrice := fun _ => ret 1000;
  makeObject := fun p sig => ret (committed_of p sig);
  createBlock := fun _ => ret tt;
  net_broadcastMessage := fun _ => ret tt;
  MODERN_TIME := 1547640182
|}.

(** Block 5 with two transactions. *)
Definition block5 : CommittedBlock :=
  mkCommittedBlock 5 2 1577836800 250 [[Byte.x01]; [Byte.x02; Byte.x03]] "hash"
    (Some "signature"%string) 0.

(** Every stored proposal has its proof; nothing can be downloaded. *)
#[global] Instance demo_finalize : FinalizeServices DemoNode := {|
  haveDAProof := fun _ => ret true;
  isFinalizationDownloadOnly := fun _ => false;
  downloadProposal := fun _ _ => ret None
|}.

(** A node that holds the empty proposal (proposer 0) for block 5. *)
Definition node_with_empty_proposal : DemoNode :=
  with_proposals [demo_proposal 5 0 1577836800 251] fresh_node.

(** A node that holds, for block 5 and proposer index 0, a proposal with two
    transactions stamped (9999 s, 7 ms). *)
Definition node_with_stored_proposal : DemoNode :=
  with_proposals
    [mkBlockProposal 5 0 9999 7 [[Byte.x01]; [Byte.x02; Byte.x03]] "hash"
       (Some "signature"%string)] fresh_node.

(** A driver that holds four blocks, the last stamped (1577836800 s, 250 ms). *)
Definition stamped_driver (n : DemoNode) : Schain DemoNode :=
  mkSchain 1 4 0 1577836800 250 0 true 0 [] true n [] [].

(** A handler that stores the vector of an internal envelope and refuses
    network envelopes. *)
Definition demo_route (m : MessageEnvelope) : M (Schain DemoNode) unit :=
  match m with
  | EnvInternal b v => modify (set_bootstrapBlockID b)
  | EnvNetwork _ => throw InvalidStateException
  end.

Definition busy_driver : Schain DemoNode :=
  mkSchain 1 4 0 1577836800 250 0 true 0
    [EnvNetwork future_envelope; EnvInternal 5 [true; false]] true fresh_node [] [].

End MoreSamples.

Module Deferral.
Import Driver Transport.

(** The block id under which the router defers an envelope. *)
Definition key_of (m : NetworkMessageEnvelope) : Z := nm_blockID (nme_message m).

(** Every deferred envelope is stored under its own block id. *)
Definition well_keyed (q : gmap Z (list NetworkMessageEnvelope)) : Prop :=
  forall k l, q !! k = Some l -> Forall (fun m => key_of m = k) l.

(** Envelopes by non-decreasing block id. *)
Definition in_key_order (l : list NetworkMessageEnvelope) : Prop :=
  StronglySorted (fun m1 m2 => key_of m1 <= key_of m2) l.

(** The envelopes of [l] for block [k], in the order of [l]. *)
Definition of_key (k : Z) (l : list NetworkMessageEnvelope) : list NetworkMessageEnvelope :=
  filter (fun m => key_of m = k) l.

(** The entries [pullMessagesForBlockID] takes. *)
Definition taken (b : Z) (q : gmap Z (list NetworkMessageEnvelope))
  : list (Z * list NetworkMessageEnvelope) :=
  List.filter (fun e => fst e <=? b) (entries q).

(** Entries whose lists hold envelopes of their own key only. *)
Definition keyed (es : list (Z * list NetworkMessageEnvelope)) : Prop :=
  Forall (fun e => Forall (fun m => key_of m = fst e) (snd e)) es.

End Deferral.


Module Addressing.
Import Driver Transport.

(** The destination the last loop of [broadcastMessage] leaves in the
    message: the node id of the last peer other than this node, or [d] when
    there is none. *)
Definition last_destination (me : Z) (nodes : list NodeInfo) (d : Z) : Z :=
  fold_left (fun d it => if negb (ni_schainIndex it =? me) then ni_nodeID it else d) nodes d.

Section WithNode.
Context {Node : Type}.

(** The chain is the same and the message at [m], if it was [base] up to its
    destination, still is. *)
Definition readdressed (m : positive) (base : NetworkMessage)
  (t t' : TransportNetwork Node) : Prop :=
  nodeInfosByIndex t' = nodeInfosByIndex t /\
  nodeCount t' = nodeCount t /\
  schainIndex (sChain t') = schainIndex (sChain t) /\
  ((exists d, heap t !! m = Some (with_dstNodeID d base)) ->
   exists d, heap t' !! m = Some (with_dstNodeID d base)).

End WithNode.
End Addressing.


Module TransportSamples.
Import Driver Transport Demo Samples.

(** Envelopes for blocks 9, 6 and 9 again, each from a different round. *)
Definition mixed_envelopes : list NetworkMessageEnvelope :=
  [ mkNetworkMessageEnvelope (aux_message 9 0) 2;
    mkNetworkMessageEnvelope (aux_message 6 1) 3;
    mkNetworkMessageEnvelope (aux_message 9 2) 4 ].

(** The demo transport with every peer reachable and nothing delayed. *)
Definition idle_transport : TransportNetwork DemoNode :=
  demo_transport fresh_node [[]; []; []; []].

End TransportSamples.

(** * Part II: the properties

    Facts about [uint64_t] arithmetic and the effect monad, then, module by
    module, what the code guarantees. *)

(** ** Machine integers *)

Module U64Facts.

Lemma wrap64_range x : u64 (wrap64 x).
Proof. unfold u64, wrap64, modulus. apply Z.mod_pos_bound. lia. Qed.

Lemma wrap64_small x : u64 x -> wrap64 x = x.
Proof. unfold u64, wrap64. intros H. apply Z.mod_small. exact H. Qed.

Lemma wrap64_succ x : 0 <= x < U64.max -> wrap64 (x + 1) = x + 1.
Proof. unfold U64.max. intros H. apply wrap64_small. unfold u64. lia. Qed.

End U64Facts.
Import U64Facts.

(** ** The effect monad: inversion, frames and weakest preconditions *)

Module EffFacts.
Section Facts.
Context {St : Type}.

Lemma bind_inv {A B} (m : M St A) (k : A -> M St B) s o s' :
  bind m k s = (o, s') ->
  (exists a s1, m s = (Returned a, s1) /\ k a s1 = (o, s')) \/
  (exists e, m s = (Thrown e, s') /\ o = Thrown e).
Proof.
  unfold bind. destruct (m s) as [[a|e] s1]; intros H.
  - left. eauto.
  - right. inversion H; subst. eauto.
Qed.

Lemma try_catch_inv {A} (m : M St A) (h : exn -> M St A) s o s' :
  try_catch m h s = (o, s') ->
  (exists a, m s = (Returned a, s') /\ o = Returned a) \/
  (m s = (Thrown Crash, s') /\ o = Thrown Crash) \/
  (exists e s1, m s = (Thrown e, s1) /\ e <> Crash /\ h e s1 = (o, s')).
Proof.
  unfold try_catch. destruct (m s) as [[a|e] s1]; intros H.
  - left. inversion H; subst. exists a. split; reflexivity.
  - destruct e;
      try (right; right; eexists _, _; split; [reflexivity | split; [discriminate | exact H]]).
    right; left. inversion H; subst. split; reflexivity.
Qed.

(** The handler pair of [Schain] changes the exception, never the state nor
    the fact that the body returned. *)
Lemma rethrow_inv {A} (m : M St A) s o s' :
  rethrow_as_InvalidState m s = (o, s') ->
  exists o1, m s = (o1, s') /\
    match o1 with
    | Returned a => o = Returned a
    | Thrown ExitRequestedException => o = Thrown ExitRequestedException
    | Thrown Crash => o = Thrown Crash
    | Thrown _ => o = Thrown InvalidStateException
    end.
Proof.
  unfold rethrow_as_InvalidState, try_catch, throw.
  destruct (m s) as [[a|e] s1]; intros H.
  - inversion H; subst. exists (Returned a). split; reflexivity.
  - destruct e; simpl in H; inversion H; subst; eexists; (split; [reflexivity|]); reflexivity.
Qed.

Section Preserves.
Context (R : St -> St -> Prop) {HR : PreOrder R}.

Lemma preserves_ret {A} (a : A) : preserves R (ret a).
Proof. intros s o s' H. inversion H; subst. reflexivity. Qed.

Lemma preserves_throw {A} e : preserves R (@throw St A e).
Proof. intros s o s' H. inversion H; subst. reflexivity. Qed.

Lemma preserves_gets {A} (f : St -> A) : preserves R (gets f).
Proof. intros s o s' H. inversion H; subst. reflexivity. Qed.

Lemma preserves_modify (f : St -> St) : (forall s, R s (f s)) -> preserves R (modify f).
Proof. intros Hf s o s' H. inversion H; subst. apply Hf. Qed.

Lemma preserves_bind {A B} (m : M St A) (k : A -> M St B) :
  preserves R m -> (forall a, preserves R (k a)) -> preserves R (bind m k).
Proof.
  intros Hm Hk s o s' H.
  apply bind_inv in H as [(a & s1 & H1 & H2) | (e & H1 & _)].
  - transitivity s1; [eapply Hm | eapply Hk]; eassumption.
  - eapply Hm; eassumption.
Qed.

Lemma preserves_try_catch {A} (m : M St A) h :
  preserves R m -> (forall e, preserves R (h e)) -> preserves R (try_catch m h).
Proof.
  intros Hm Hh s o s' H.
  apply try_catch_inv in H as [(a & H1 & _) | [(H1 & _) | (e & s1 & H1 & _ & H2)]].
  - eapply Hm; eassumption.
  - eapply Hm; eassumption.
  - transitivity s1; [eapply Hm | eapply Hh]; eassumption.
Qed.

Lemma preserves_rethrow {A} (m : M St A) :
  preserves R m -> preserves R (rethrow_as_InvalidState m).
Proof.
  intros Hm. apply preserves_try_catch; [exact Hm |].
  intros e. destruct e; apply preserves_throw.
Qed.

Lemma preserves_ASSERT c : preserves R (ASSERT c).
Proof. destruct c; [apply preserves_ret | apply preserves_throw]. Qed.

Lemma preserves_CHECK_STATE c : preserves R (CHECK_STATE c).
Proof. destruct c; [apply preserves_ret | apply preserves_throw]. Qed.

Lemma preserves_CHECK_ARGUMENT c : preserves R (CHECK_ARGUMENT c).
Proof. destruct c; [apply preserves_ret | apply preserves_throw]. Qed.

Lemma preserves_for_each {A} (l : list A) body :
  (forall x, preserves R (body x)) -> preserves R (for_each l body).
Proof.
  intros Hb. induction l as [|x l IH]; simpl.
  - apply preserves_ret.
  - apply preserves_bind; [apply Hb | intros _; exact IH].
Qed.

End Preserves.

Lemma wp_run {A} (m : M St A) Q s o s' : wp m Q s -> m s = (o, s') -> Q o s'.
Proof. unfold wp. intros H E. rewrite E in H. exact H. Qed.

Lemma wp_of_spec {A} (m : M St A) (Q : outcome A -> St -> Prop) s :
  (forall o s', m s = (o, s') -> Q o s') -> wp m Q s.
Proof. intros H. unfold wp. apply H. destruct (m s); reflexivity. Qed.

Lemma wp_ret {A} (a : A) (Q : outcome A -> St -> Prop) s :
  Q (Returned a) s -> wp (ret a) Q s.
Proof. exact (fun H => H). Qed.

Lemma wp_throw {A} e (Q : outcome A -> St -> Prop) s :
  Q (Thrown e) s -> wp (throw e) Q s.
Proof. exact (fun H => H). Qed.

Lemma wp_gets {A} (f : St -> A) (Q : outcome A -> St -> Prop) s :
  Q (Returned (f s)) s -> wp (gets f) Q s.
Proof. exact (fun H => H). Qed.

Lemma wp_modify (f : St -> St) (Q : outcome unit -> St -> Prop) s :
  Q (Returned tt) (f s) -> wp (modify f) Q s.
Proof. exact (fun H => H). Qed.

Lemma wp_bind {A B} (m : M St A) (k : A -> M St B) (Q : outcome B -> St -> Prop) s :
  wp m (fun o s1 => match o with
                    | Returned a => wp (k a) Q s1
                    | Thrown e => Q (Thrown e) s1
                    end) s ->
  wp (bind m k) Q s.
Proof. unfold wp, bind. destruct (m s) as [[a|e] s1]; simpl; auto. Qed.

Lemma wp_try_catch {A} (m : M St A) h (Q : outcome A -> St -> Prop) s :
  wp m (fun o s1 => match o with
                    | Returned a => Q (Returned a) s1
                    | Thrown Crash => Q (Thrown Crash) s1
                    | Thrown e => wp (h e) Q s1
                    end) s ->
  wp (try_catch m h) Q s.
Proof.
  unfold wp, try_catch. destruct (m s) as [[a|e] s1]; simpl; auto.
  destruct e; auto.
Qed.

Lemma wp_rethrow {A} (m : M St A) (Q : outcome A -> St -> Prop) s :
  wp m (fun o s1 => Q (rethrown o) s1) s -> wp (rethrow_as_InvalidState m) Q s.
Proof.
  unfold wp, rethrow_as_InvalidState, try_catch. destruct (m s) as [[a|e] s1]; simpl; auto.
  destruct e; auto.
Qed.

Lemma wp_ASSERT c (Q : outcome unit -> St -> Prop) s :
  (c = true -> Q (Returned tt) s) -> (c = false -> Q (Thrown AssertionFailure) s) ->
  wp (ASSERT c) Q s.
Proof. destruct c; unfold wp; simpl; auto. Qed.

Lemma wp_CHECK_STATE c (Q : outcome unit -> St -> Prop) s :
  (c = true -> Q (Returned tt) s) -> (c = false -> Q (Thrown InvalidStateException) s) ->
  wp (CHECK_STATE c) Q s.
Proof. destruct c; unfold wp; simpl; auto. Qed.

Lemma wp_CHECK_ARGUMENT c (Q : outcome unit -> St -> Prop) s :
  (c = true -> Q (Returned tt) s) -> (c = false -> Q (Thrown InvalidArgumentException) s) ->
  wp (CHECK_ARGUMENT c) Q s.
Proof. destruct c; unfold wp; simpl; auto. Qed.

Lemma wp_mono {A} (m : M St A) (Q Q' : outcome A -> St -> Prop) s :
  wp m Q s -> (forall o s', Q o s' -> Q' o s') -> wp m Q' s.
Proof. unfold wp. auto. Qed.


Lemma rethrown_thrown {A} e : exists e', @rethrown A (Thrown e) = Thrown e'.
Proof. destruct e; simpl; eauto. Qed.

Lemma returns_rethrown {A} (o : outcome A) : returns (rethrown o) = returns o.
Proof. destruct o as [a|e]; [reflexivity | destruct e; reflexivity]. Qed.

End Facts.
End EffFacts.

(** ** The driver *)

Module DriverFacts.
Import Driver EffFacts.
Section WithNode.
Context {Node : Type} {svc : NodeServices Node}.

#[local] Instance commit_frame_pipeline : PipelineFrame (@commit_frame Node).
Proof.
  split; [split; [split |..] |]; unfold commit_frame.
  - intros s. auto.
  - intros s1 s2 s3 (A1 & A2 & A3) (B1 & B2 & B3). repeat split; congruence.
  - intros s n. auto.
  - intros s q. auto.
  - intros s l. auto.
Qed.

#[local] Instance start_frame_node : NodeFrame (@start_frame Node).
Proof.
  split; [split |..]; unfold start_frame.
  - intros s. auto.
  - intros s1 s2 s3 (A1 & A2 & A3 & A4) (B1 & B2 & B3 & B4). repeat split; congruence.
  - intros s n. auto.
  - intros s q. auto.
Qed.

Section Frames.
Context (R : Schain Node -> Schain Node -> Prop) {HR : NodeFrame R}.

Lemma preserves_call {A} (f : M Node A) : preserves R (call f).
Proof.
  intros s o s' H. unfold call in H. destruct (f (node s)) as [o1 n].
  inversion H; subst. apply frame_node.
Qed.

Lemma preserves_checkForExit : preserves R checkForExit.
Proof.
  intros s o s' H. unfold checkForExit in H.
  destruct (isExitRequested (node s)); inversion H; subst; reflexivity.
Qed.

Ltac frame_step :=
  first
    [ exact _
    | match goal with |- forall _, _ => intro end
    | apply preserves_ret | apply preserves_throw | apply preserves_gets
    | apply preserves_ASSERT | apply preserves_CHECK_STATE
    | apply preserves_CHECK_ARGUMENT | apply preserves_call
    | apply preserves_checkForExit
    | apply preserves_modify
    | apply frame_messageQueue | apply frame_proposedBlockIDs
    | apply preserves_rethrow
    | apply preserves_bind
    | match goal with
      | |- preserves _ (if ?b then _ else _) => destruct b
      | |- preserves _ (match ?x with _ => _ end) => destruct x
      end ].

Lemma postMessage_frame m : preserves R (postMessage m).
Proof. unfold postMessage. repeat frame_step. Qed.

Lemma proposedBlockArrived_frame p : preserves R (proposedBlockArrived p).
Proof. unfold proposedBlockArrived. repeat frame_step. Qed.

Lemma startConsensus_frame b v : preserves R (startConsensus b v).
Proof. unfold startConsensus. repeat first [apply postMessage_frame | frame_step]. Qed.

Lemma daProofArrived_frame d : preserves R (daProofArrived d).
Proof. unfold daProofArrived. repeat first [apply startConsensus_frame | frame_step]. Qed.

Lemma daProofSigShareArrived_frame sh p : preserves R (daProofSigShareArrived sh p).
Proof.
  unfold daProofSigShareArrived. repeat first [apply daProofArrived_frame | frame_step].
Qed.

(** [proposeNextBlock] after it has noted the block id it works on. *)
Lemma proposeNextBlock_rest_frame id ts ms :
  preserves R
    (me <- gets schainIndex ;;
     have <- call (db_haveProposal id me) ;;
     myProposal <-
       (if have : bool then
          p <- call (db_getBlockProposal id me) ;;
          match p with
          | Some p => ret p
          | None => throw Crash
          end
        else call (buildBlockProposal id ts ms)) ;;
     CHECK_STATE (bp_proposerIndex myProposal =? me) ;;
     CHECK_STATE (non_null (bp_signature myProposal)) ;;
     proposedBlockArrived myProposal ;;
     call (db_checkAndSaveHash id me (bp_hash myProposal)) ;;
     call (enqueueProposal myProposal) ;;
     mySig <- call (signDAProofSigShare myProposal) ;;
     daProofSigShareArrived mySig myProposal).
Proof.
  repeat first [apply proposedBlockArrived_frame | apply daProofSigShareArrived_frame
               | frame_step].
Qed.


End Frames.

Lemma proposeNextBlock_frame R {HR : PipelineFrame R} ts ms :
  preserves R (proposeNextBlock ts ms).
Proof.
  unfold proposeNextBlock. cbv zeta.
  repeat first
    [ exact _
    | apply proposeNextBlock_rest_frame
    | apply frame_proposedBlockIDs
    | match goal with |- forall _, _ => intro end
    | apply preserves_checkForExit | apply preserves_rethrow
    | apply preserves_gets | apply preserves_modify | apply preserves_bind ].
Qed.

Lemma wp_call {A} (f : M Node A) (Q : outcome A -> Schain Node -> Prop) s :
  (forall o n, f (node s) = (o, n) -> Q o (set_node n s)) -> wp (call f) Q s.
Proof.
  intros H. unfold wp, call. destruct (f (node s)) as [o n] eqn:E. simpl. auto.
Qed.

Lemma wp_checkForExit (Q : outcome unit -> Schain Node -> Prop) s :
  (isExitRequested (node s) = true -> Q (Thrown ExitRequestedException) s) ->
  (isExitRequested (node s) = false -> Q (Returned tt) s) ->
  wp checkForExit Q s.
Proof. unfold wp, checkForExit. destruct (isExitRequested (node s)); simpl; auto. Qed.

Ltac exn_cases :=
  repeat match goal with
         | |- context [@rethrown ?A (Thrown ?e)] =>
             let e' := fresh "e" in
             let E := fresh "E" in
             destruct (@rethrown_thrown A e) as [e' E]; rewrite E; clear E
         | |- context [match ?e with ExitRequestedException => _ | _ => _ end] => destruct e
         end;
  cbv beta iota.

Ltac wp_step :=
  lazymatch goal with
  | |- wp (bind _ _) _ _ => apply wp_bind
  | |- wp (ret _) _ _ => apply wp_ret
  | |- wp (throw _) _ _ => apply wp_throw
  | |- wp (gets _) _ _ => apply wp_gets
  | |- wp (modify _) _ _ => apply wp_modify
  | |- wp (rethrow_as_InvalidState _) _ _ => apply wp_rethrow
  | |- wp (try_catch _ _) _ _ => apply wp_try_catch
  | |- wp (ASSERT _) _ _ => apply wp_ASSERT; intros ?
  | |- wp (CHECK_STATE _) _ _ => apply wp_CHECK_STATE; intros ?
  | |- wp (CHECK_ARGUMENT _) _ _ => apply wp_CHECK_ARGUMENT; intros ?
  | |- wp (call _) _ _ => apply wp_call; intros [?|?] ? ?
  | |- wp checkForExit _ _ => apply wp_checkForExit; intros ?
  | |- wp exitCheck _ _ => apply wp_checkForExit; intros ?
  | |- wp (if ?b then _ else _) _ _ => destruct b eqn:?
  | |- wp (match ?x with _ => _ end) _ _ => destruct x eqn:?
  | |- wp (let _ := _ in _) _ _ => cbv zeta
  end.

Ltac wp_go := repeat (cbv beta iota; wp_step).

Lemma pushBlockToExtFace_effect b s o s' :
  pushBlockToExtFace b s = (o, s') ->
  exists n pushed,
    s' = set_createBlockCalls (createBlockCalls s ++ pushed) (set_node n s) /\
    (pushed = [] \/ (hasExtFace s = true /\ exists price, pushed = [host_call b price])) /\
    (returns o = true -> hasExtFace s = true -> pushed <> []).
Proof.
  intros H. pattern o, s'. eapply wp_run; [| exact H]. clear H o s'.
  unfold pushBlockToExtFace.
  destruct s as [i l lt ts tm tt b0 bi q ext nd cc pp].
  repeat (wp_step; simpl in * ); unfold host_call, set_node, set_createBlockCalls; simpl.
  all: first
      [ eexists; exists []; rewrite app_nil_r; split; [reflexivity |];
        split; [left; reflexivity | exn_cases; simpl; intros; congruence]
      | eexists; eexists [_]; split; [reflexivity |];
        split; [right; split; [reflexivity | eexists; reflexivity] | intros; discriminate] ].
Qed.

Lemma wp_frame {A} R (m : M (Schain Node) A) (Q : outcome A -> Schain Node -> Prop) s :
  preserves R m -> (forall o s', R s s' -> Q o s') -> wp m Q s.
Proof. intros Hm HQ. apply wp_of_spec. intros o s' E. apply HQ. eapply Hm. exact E. Qed.

Lemma saveBlock_effect b s o s' :
  saveBlock b s = (o, s') -> exists n, s' = set_node n s.
Proof.
  intros H. pattern o, s'. eapply wp_run; [| exact H]. clear H o s'.
  unfold saveBlock. destruct s as [i l lt ts tm tt b0 bi q ext nd cc pp].
  repeat (wp_step; simpl in * ); unfold set_node; simpl; eexists; reflexivity.
Qed.

Lemma processCommittedBlock_effect b s o s' :
  processCommittedBlock b s = (o, s') ->
  hasExtFace s' = hasExtFace s /\
  exists pushed, createBlockCalls s' = createBlockCalls s ++ pushed /\
    match o with
    | Returned _ =>
        cb_blockID b = wrap64 (lastCommittedBlockID s + 1) /\
        lastCommittedBlockID s' = wrap64 (lastCommittedBlockID s + 1) /\
        if hasExtFace s then exists price, pushed = [host_call b price] else pushed = []
    | Thrown _ =>
        lastCommittedBlockID s' = lastCommittedBlockID s /\
        (pushed = [] \/
         (cb_blockID b = wrap64 (lastCommittedBlockID s + 1) /\ hasExtFace s = true /\
          exists price, pushed = [host_call b price]))
    end.
Proof.
  intros H. pattern o, s'. eapply wp_run; [| exact H]. clear H o s'.
  assert (Hnone : forall s1 : Schain Node,
    hasExtFace s1 = hasExtFace s -> createBlockCalls s1 = createBlockCalls s ->
    lastCommittedBlockID s1 = lastCommittedBlockID s ->
    hasExtFace s1 = hasExtFace s /\
    exists pushed, createBlockCalls s1 = createBlockCalls s ++ pushed /\
      lastCommittedBlockID s1 = lastCommittedBlockID s /\
      (pushed = [] \/
       (cb_blockID b = wrap64 (lastCommittedBlockID s + 1) /\ hasExtFace s = true /\
        exists price, pushed = [host_call b price]))).
  { intros s1 H1 H2 H3. split; [exact H1|]. exists []. rewrite app_nil_r. auto. }
  unfold processCommittedBlock.
  wp_go; try (apply Hnone; reflexivity).
  apply Z.eqb_eq in H1.
  apply wp_of_spec. intros [[]|e] s1 Hs; apply saveBlock_effect in Hs as [n ->];
    [| exn_cases; apply Hnone; reflexivity].
  wp_go.
  apply wp_of_spec. intros [[]|e] s2 Hp;
    apply pushBlockToExtFace_effect in Hp as (n2 & pushed & -> & Hpushed & Hret).
  2: { exn_cases; simpl; (split; [reflexivity|]); exists pushed; (split; [reflexivity|]);
       (split; [reflexivity|]); destruct Hpushed as [->|(He & price & ->)]; eauto 10. }
  wp_go. simpl in *.
  split; [reflexivity|]. exists pushed. split; [reflexivity|].
  split; [symmetry; exact H1 |]. split; [reflexivity|].
  destruct (hasExtFace s) eqn:Hext.
  - destruct Hpushed as [->|(_ & price & ->)]; [exfalso; apply Hret; auto | eauto].
  - destruct Hpushed as [->|(Hc & _)]; [reflexivity | discriminate].
Qed.

(** *** Finalization steps compose *)

Lemma finalize_spec_refl (s : Schain Node) ok : u64 (lastCommittedBlockID s) -> finalize_spec s ok s.
Proof.
  intros Hu. unfold finalize_spec. rewrite Z.sub_diag.
  split; [lia|]. split; [exact Hu|]. split; [reflexivity|].
  exists []. rewrite seqZ_nil by lia. simpl.
  destruct (hasExtFace s); rewrite app_nil_r; auto.
Qed.

Lemma finalize_spec_frame_l (s s1 : Schain Node) ok s2 :
  commit_frame s s1 -> finalize_spec s1 ok s2 -> finalize_spec s ok s2.
Proof.
  unfold commit_frame, finalize_spec, created.
  intros (E1 & E2 & E3). rewrite E1, E2, E3. exact (fun H => H).
Qed.

Lemma finalize_spec_frame_r (s s1 : Schain Node) ok ok' s2 :
  finalize_spec s ok s1 -> commit_frame s1 s2 -> (ok' = true -> ok = true) ->
  finalize_spec s ok' s2.
Proof.
  unfold commit_frame, finalize_spec, created.
  intros (H1 & H2 & H3 & extra & H4 & H5 & H6) (E1 & E2 & E3) Hok.
  rewrite E1, E2, E3.
  split; [exact H1|]. split; [exact H2|]. split; [exact H3|].
  exists extra. auto.
Qed.

Lemma finalize_spec_trans (s s1 : Schain Node) ok s2 :
  finalize_spec s true s1 -> finalize_spec s1 ok s2 -> finalize_spec s ok s2.
Proof.
  unfold finalize_spec.
  intros (H1 & H2 & H3 & extra1 & H4 & H5 & H6) (K1 & K2 & K3 & extra & K4 & K5 & K6).
  rewrite (H6 eq_refl) in H4. clear H5 H6.
  split; [lia|]. split; [exact K2|]. split; [congruence|].
  exists extra. split; [| auto].
  rewrite K4, H4, H3. destruct (hasExtFace s); [| rewrite !app_nil_r; reflexivity].
  rewrite app_nil_r, <- !app_assoc. f_equal. rewrite app_assoc. f_equal.
  replace (lastCommittedBlockID s2 - lastCommittedBlockID s)
    with ((lastCommittedBlockID s1 - lastCommittedBlockID s)
          + (lastCommittedBlockID s2 - lastCommittedBlockID s1)) by lia.
  rewrite seqZ_app by lia. do 2 f_equal. lia.
Qed.

(** One block committed by [processCommittedBlock], called below the top of
    the 64-bit range as its callers do. *)
Lemma processCommittedBlock_step b s o s' :
  u64 (lastCommittedBlockID s) -> lastCommittedBlockID s < U64.max ->
  processCommittedBlock b s = (o, s') ->
  finalize_spec s (returns o) s' /\
  (returns o = true -> lastCommittedBlockID s' = lastCommittedBlockID s + 1).
Proof.
  intros Hu Hmax H.
  apply processCommittedBlock_effect in H as (Hext & pushed & Hcalls & Ho).
  assert (Hw : wrap64 (lastCommittedBlockID s + 1) = lastCommittedBlockID s + 1).
  { apply wrap64_succ. unfold u64 in Hu. lia. }
  unfold finalize_spec, created. rewrite Hcalls, map_app.
  destruct o as [[]|e]; simpl.
  - destruct Ho as (Hid & Hlast & Hpushed). rewrite Hw in *.
    split; [| intros _; exact Hlast].
    split; [lia|]. split; [unfold u64, U64.max in *; lia|]. split; [exact Hext|].
    exists []. split; [| auto].
    replace (lastCommittedBlockID s' - lastCommittedBlockID s) with 1 by lia.
    destruct (hasExtFace s).
    + destruct Hpushed as [price ->]. simpl. rewrite Hid. reflexivity.
    + rewrite Hpushed. reflexivity.
  - destruct Ho as (Hlast & Hpushed).
    split; [| discriminate].
    split; [lia|]. split; [rewrite Hlast; exact Hu|]. split; [exact Hext|].
    replace (lastCommittedBlockID s' - lastCommittedBlockID s) with 0 by lia.
    rewrite seqZ_nil by lia. simpl.
    destruct Hpushed as [->|(Hid & He & price & ->)].
    + exists []. simpl. destruct (hasExtFace s); auto.
    + exists [lastCommittedBlockID s' + 1]. rewrite He. simpl.
      rewrite Hid, Hw, Hlast. split; [reflexivity|]. split; [auto | discriminate].
Qed.

Lemma commit_frame_refl (s : Schain Node) : commit_frame s s.
Proof. unfold commit_frame. auto. Qed.

Lemma blockCommitArrived_spec B idx ts tsMs sig s o s' :
  u64 (lastCommittedBlockID s) -> u64 B ->
  blockCommitArrived B idx ts tsMs sig s = (o, s') ->
  finalize_spec s (returns o) s'.
Proof.
  intros Hu HB H. pattern o, s'. eapply wp_run; [| exact H]. clear H o s'.
  unfold blockCommitArrived, blockCommitArrived_try.
  wp_go; try (apply finalize_spec_refl; exact Hu).
  apply Z.leb_gt in Heqb.
  assert (Hmax : lastCommittedBlockID s < U64.max) by (unfold u64, U64.max in *; lia).
  all: try (eapply (finalize_spec_frame_r _ _ false);
              [ apply finalize_spec_refl; exact Hu
              | unfold commit_frame; simpl; auto
              | rewrite ?returns_rethrown; simpl; discriminate ]).
  apply wp_of_spec. intros [[]|e] s1 Hs.
  2: { apply processCommittedBlock_step in Hs as [Hs _]; [| exact Hu | exact Hmax].
       exn_cases. exact Hs. }
  apply processCommittedBlock_step in Hs as [Hs _]; [| exact Hu | exact Hmax].
  cbv beta iota.
  eapply wp_frame; [apply (proposeNextBlock_frame commit_frame) |].
  intros o s2 Hf. rewrite returns_rethrown.
  eapply finalize_spec_frame_r; [exact Hs | exact Hf | auto].
Qed.

Lemma catchupLoop_spec b : forall prev s o s',
  u64 (lastCommittedBlockID s) -> Forall (fun t => u64 (cb_blockID t)) b ->
  catchupLoop b prev s = (o, s') ->
  finalize_spec s (returns o) s'.
Proof.
  induction b as [|t b IH]; intros prev s o s' Hu Hb H.
  - inversion H; subst. apply finalize_spec_refl. exact Hu.
  - inversion Hb as [|t' b' Ht Hb']; subst.
    pattern o, s'. eapply wp_run; [| exact H]. clear H o s'.
    simpl. wp_go.
    + apply Z.gtb_lt in Heqb0.
      assert (Hmax : lastCommittedBlockID s < U64.max) by (unfold u64, U64.max in *; lia).
      apply wp_of_spec. intros [[]|e] s1 Hs;
        apply processCommittedBlock_step in Hs as [Hs Hl]; [| exact Hu | exact Hmax | | exact Hu | exact Hmax].
      * cbv beta iota. apply wp_of_spec. intros o s2 Hloop.
        apply IH in Hloop; [| | exact Hb'].
        -- eapply finalize_spec_trans; [exact Hs | exact Hloop].
        -- destruct Hs as (_ & Hu1 & _). exact Hu1.
      * exact Hs.
    + apply wp_of_spec. intros o s2 Hloop. eapply IH; eassumption.
Qed.

Lemma blockCommitsArrivedThroughCatchup_spec b s o s' :
  u64 (lastCommittedBlockID s) -> Forall (fun t => u64 (cb_blockID t)) b ->
  blockCommitsArrivedThroughCatchup b s = (o, s') ->
  finalize_spec s (returns o) s'.
Proof.
  intros Hu Hb H. pattern o, s'. eapply wp_run; [| exact H]. clear H o s'.
  unfold blockCommitsArrivedThroughCatchup. destruct b as [|b0 b].
  { apply wp_ret. apply finalize_spec_refl. exact Hu. }
  wp_go; [| apply finalize_spec_refl; exact Hu].
  apply wp_of_spec. intros [prev|e] s1 Hloop; apply catchupLoop_spec in Hloop; try assumption.
  cbv beta iota. wp_go; [| exact Hloop].
  eapply wp_frame; [apply (proposeNextBlock_frame commit_frame) |].
  intros o s2 Hf. eapply finalize_spec_frame_r; [exact Hloop | exact Hf | auto].
Qed.

Lemma finalize_spec_of_call c s o s' :
  u64 (lastCommittedBlockID s) -> well_typed c -> finalize c s = (o, s') ->
  finalize_spec s (returns o) s'.
Proof.
  destruct c as [B idx ts tsMs sig | bs]; simpl; intros Hu Hc H.
  - eapply blockCommitArrived_spec; eassumption.
  - eapply blockCommitsArrivedThroughCatchup_spec; eassumption.
Qed.

Lemma finalize_all_monotone cs : forall s : Schain Node,
  u64 (lastCommittedBlockID s) -> Forall well_typed cs ->
  lastCommittedBlockID s <= lastCommittedBlockID (finalize_all cs s) /\
  u64 (lastCommittedBlockID (finalize_all cs s)).
Proof.
  induction cs as [|c cs IH]; intros s Hu Hcs; simpl.
  - split; [lia | exact Hu].
  - inversion Hcs as [|c' cs' Hc Hcs']; subst.
    destruct (finalize c s) as [o s1] eqn:E. simpl.
    apply finalize_spec_of_call in E as (Hk & Hu1 & _); [| exact Hu | exact Hc].
    destruct (IH s1 Hu1 Hcs') as [Hle Hu2]. split; [lia | exact Hu2].
Qed.

(** [processCommittedBlock] refuses every block but the successor of the last
    committed one, and leaves the driver as it was. *)
Lemma processCommittedBlock_refuses b (s : Schain Node) :
  cb_blockID b <> wrap64 (lastCommittedBlockID s + 1) ->
  returns (fst (processCommittedBlock b s)) = false /\
  snd (processCommittedBlock b s) = s /\
  (non_null (cb_signature b) = true -> isExitRequested (node s) = false ->
   fst (processCommittedBlock b s) = Thrown InvalidStateException).
Proof.
  intros Hne.
  assert (E : exists e, processCommittedBlock b s = (Thrown e, s) /\
            (non_null (cb_signature b) = true -> isExitRequested (node s) = false ->
             e = InvalidStateException)).
  { cbv [processCommittedBlock bind CHECK_STATE ret throw checkForExit
           rethrow_as_InvalidState try_catch gets ASSERT].
    destruct (non_null (cb_signature b));
      [| eexists; split; [reflexivity | discriminate]].
    destruct (isExitRequested (node s));
      [eexists; split; [reflexivity | discriminate] |].
    replace (wrap64 (lastCommittedBlockID s + 1) =? cb_blockID b) with false
      by (symmetry; apply Z.eqb_neq; congruence).
    eexists; split; [reflexivity | reflexivity]. }
  destruct E as (e & -> & He). cbn.
  split; [reflexivity | split; [reflexivity |]].
  intros H1 H2. rewrite (He H1 H2). reflexivity.
Qed.

(** The loop of the catch-up hands every block above the last committed id
    to [processCommittedBlock]. *)
Lemma catchupLoop_hands_over t rest prev (s : Schain Node) :
  lastCommittedBlockID s < cb_blockID t ->
  catchupLoop (t :: rest) prev s =
    (processCommittedBlock t ;; catchupLoop rest (cb_timeStamp t, cb_timeStampMs t)) s.
Proof.
  intros H. cbn [catchupLoop]. unfold bind at 1, gets.
  replace (cb_blockID t >? lastCommittedBlockID s) with true
    by (symmetry; apply Z.gtb_lt; lia).
  reflexivity.
Qed.

(** Claim C1, as amended.  [lastCommittedBlockID] never decreases and moves
    by one per finalized block.  [processCommittedBlock] can be handed any
    block: the loop of the catch-up hands it every block above the last
    committed id.  Called on a block whose id is not
    [lastCommittedBlockID + 1] it throws ([InvalidStateException] when the
    block is signed and no exit is requested) and leaves the driver as it
    was.  A call that returns was made on the block whose id is
    [lastCommittedBlockID + 1], has raised [lastCommittedBlockID] by exactly
    one and, when a host is attached, has made exactly one [createBlock]
    call, for that block.  Each of the two entry points
    ([blockCommitArrived], [blockCommitsArrivedThroughCatchup]) commits
    [k >= 0] consecutive blocks with one [createBlock] call each, and over
    any sequence of such calls [lastCommittedBlockID] is non-decreasing. *)
Theorem lastCommittedBlockID_increments (s : Schain Node) :
  u64 (lastCommittedBlockID s) ->
  (forall t rest prev,
     lastCommittedBlockID s < cb_blockID t ->
     catchupLoop (t :: rest) prev s =
       (processCommittedBlock t ;; catchupLoop rest (cb_timeStamp t, cb_timeStampMs t)) s) /\
  (forall b,
     cb_blockID b <> wrap64 (lastCommittedBlockID s + 1) ->
     returns (fst (processCommittedBlock b s)) = false /\
     snd (processCommittedBlock b s) = s /\
     (non_null (cb_signature b) = true -> isExitRequested (node s) = false ->
      fst (processCommittedBlock b s) = Thrown InvalidStateException)) /\
  (forall b o s',
     lastCommittedBlockID s < U64.max ->
     processCommittedBlock b s = (o, s') -> returns o = true ->
     cb_blockID b = lastCommittedBlockID s + 1 /\
     lastCommittedBlockID s' = lastCommittedBlockID s + 1 /\
     (hasExtFace s = true -> created s' = created s ++ [cb_blockID b])) /\
  (forall c o s', well_typed c -> finalize c s = (o, s') ->
     finalize_spec s (returns o) s') /\
  (forall cs, Forall well_typed cs ->
     lastCommittedBlockID s <= lastCommittedBlockID (finalize_all cs s)).
Proof.
  intros Hu. split; [| split; [| split; [| split]]].
  - intros t rest prev. apply catchupLoop_hands_over.
  - intros b. apply processCommittedBlock_refuses.
  - intros b o s' Hmax H Hret.
    apply processCommittedBlock_effect in H as (Hext & pushed & Hcalls & Ho).
    destruct o as [[]|e]; [| discriminate].
    destruct Ho as (Hid & Hlast & Hpushed).
    rewrite wrap64_succ in * by (unfold u64 in Hu; lia).
    split; [exact Hid|]. split; [exact Hlast|].
    intros He. rewrite He in Hpushed. destruct Hpushed as [price ->].
    unfold created. rewrite Hcalls, map_app. reflexivity.
  - intros c o s' Hc H. eapply finalize_spec_of_call; eassumption.
  - intros cs Hcs. apply finalize_all_monotone; assumption.
Qed.

(** Claim C2, as amended.  [blockCommitArrived] first checks for an exit
    request and asserts that the time stamp is below [2 * MODERN_TIME]; both
    come before the test on the block id.  Past them: a call with
    [B <= lastCommittedBlockID] returns and leaves the driver as it was; a
    call with a larger [B] that is neither [lastCommittedBlockID + 1] nor made
    at [lastCommittedBlockID = 0] fails its assertion, the driver unchanged;
    any other call proceeds to the committing part of the method. *)
Theorem blockCommitArrived_guard (s : Schain Node) B idx ts tsMs sig :
  (isExitRequested (node s) = true ->
   blockCommitArrived B idx ts tsMs sig s = (Thrown ExitRequestedException, s)) /\
  (isExitRequested (node s) = false -> wrap64 (2 * MODERN_TIME) <= ts ->
   blockCommitArrived B idx ts tsMs sig s = (Thrown AssertionFailure, s)) /\
  (isExitRequested (node s) = false -> ts < wrap64 (2 * MODERN_TIME) ->
   (B <= lastCommittedBlockID s ->
    blockCommitArrived B idx ts tsMs sig s = (Returned tt, s)) /\
   (lastCommittedBlockID s < B ->
    B <> wrap64 (lastCommittedBlockID s + 1) -> lastCommittedBlockID s <> 0 ->
    blockCommitArrived B idx ts tsMs sig s = (Thrown AssertionFailure, s)) /\
   (lastCommittedBlockID s < B ->
    B = wrap64 (lastCommittedBlockID s + 1) \/ lastCommittedBlockID s = 0 ->
    blockCommitArrived B idx ts tsMs sig s = blockCommitArrived_try B idx ts tsMs sig s)).
Proof.
  unfold blockCommitArrived, bind, checkForExit, gets.
  split; [| split].
  - intros ->. reflexivity.
  - intros -> Hts. apply Z.ltb_ge in Hts. rewrite Hts. reflexivity.
  - intros -> Hts. apply Z.ltb_lt in Hts. rewrite Hts. simpl. split; [| split].
    + intros HB. apply Z.leb_le in HB. rewrite HB. reflexivity.
    + intros HB Hne H0. apply Z.leb_gt in HB. rewrite HB.
      apply Z.eqb_neq in Hne, H0. rewrite Hne, H0. reflexivity.
    + intros HB Hpre. apply Z.leb_gt in HB. rewrite HB.
      assert (Hb : (B =? wrap64 (lastCommittedBlockID s + 1))
                   || (lastCommittedBlockID s =? 0) = true).
      { apply orb_true_iff. destruct Hpre as [H|H]; [left | right]; apply Z.eqb_eq; exact H. }
      rewrite Hb. reflexivity.
Qed.

(** Claim C10.  Stale inputs are dropped: for a proposal [p] with
    [bp_blockID p <= lastCommittedBlockID], [proposedBlockArrived p] returns
    and the driver, the state of its collaborators (data bases, proposal
    vector, consensus) included, is what it was; the same holds of
    [daProofArrived d] for a proof [d] with
    [dap_blockId d <= lastCommittedBlockID]. *)
Theorem stale_inputs_dropped (s : Schain Node) :
  (forall p, bp_blockID p <= lastCommittedBlockID s ->
     proposedBlockArrived p s = (Returned tt, s)) /\
  (forall d, dap_blockId d <= lastCommittedBlockID s ->
     daProofArrived d s = (Returned tt, s)).
Proof.
  split.
  - intros p Hp. apply Z.leb_le in Hp.
    unfold proposedBlockArrived, bind, gets. rewrite Hp. reflexivity.
  - intros d Hd. apply Z.leb_le in Hd.
    unfold daProofArrived, rethrow_as_InvalidState, try_catch, bind, gets.
    rewrite Hd. reflexivity.
Qed.

(** *** Bootstrap *)





(** *** Empty blocks *)

(** With the stored time stamp in range, an empty block is stamped one
    millisecond after it. *)
Lemma createEmptyBlockProposal_rule (s : Schain Node) id :
  0 <= lastCommittedBlockTimeStamp s < U64.max ->
  0 <= lastCommittedBlockTimeStampMs s <= 999 ->
  let prev := (lastCommittedBlockTimeStamp s, lastCommittedBlockTimeStampMs s) in
  let p := createEmptyBlockProposal id s in
  ebp_blockID p = id /\
  (ebp_timeStamp p, ebp_timeStampMs p) =
    (if lastCommittedBlockTimeStampMs s =? 999
     then (lastCommittedBlockTimeStamp s + 1, 0)
     else (lastCommittedBlockTimeStamp s, lastCommittedBlockTimeStampMs s + 1)) /\
  milliseconds (ebp_timeStamp p, ebp_timeStampMs p) = milliseconds prev + 1 /\
  lex_lt prev (ebp_timeStamp p, ebp_timeStampMs p).
Proof.
  intros Hsec Hms prev p. subst prev p. unfold createEmptyBlockProposal. cbv zeta.
  destruct (Z.eqb_spec (lastCommittedBlockTimeStampMs s) 999) as [E | E]; cbn.
  - rewrite wrap64_succ by lia. unfold milliseconds, lex_lt. cbn.
    repeat split; try reflexivity; lia.
  - rewrite wrap64_small by (unfold u64, U64.max, modulus in *; lia).
    unfold milliseconds, lex_lt. cbn. repeat split; try reflexivity; lia.
Qed.

End WithNode.

(** *** Runs on the in-memory node *)

Import Demo Samples.

(** Block 5 is committed at a driver that holds four blocks and the
    proposal for the fifth: one block more, one [createBlock] call.  Block 7
    is refused there. *)
Lemma lastCommittedBlockID_increments_witness :
  u64 (lastCommittedBlockID (driver 4 node_with_proposal)) /\
  finalize_spec (driver 4 node_with_proposal) true
    (snd (finalize commit5 (driver 4 node_with_proposal))) /\
  lastCommittedBlockID (snd (finalize commit5 (driver 4 node_with_proposal))) = 5 /\
  created (snd (finalize commit5 (driver 4 node_with_proposal))) = [5] /\
  processCommittedBlock (signed_block 7) (driver 4 node_with_proposal) =
    (Thrown InvalidStateException, driver 4 node_with_proposal).
Proof.
  assert (Hu : u64 (lastCommittedBlockID (driver 4 node_with_proposal)))
    by (unfold u64, modulus; simpl; lia).
  split; [exact Hu |].
  destruct (lastCommittedBlockID_increments (driver 4 node_with_proposal) Hu)
    as (_ & Hrefuse & _ & Hcall & _).
  split; [| split; [vm_compute; reflexivity | split; [vm_compute; reflexivity |]]].
  - refine (Hcall commit5 (Returned tt) _ _ _).
    + unfold well_typed, commit5, u64, modulus. lia.
    + vm_compute. reflexivity.
  - destruct (Hrefuse (signed_block 7)) as (_ & Hs & He).
    + vm_compute. discriminate.
    + rewrite (surjective_pairing (processCommittedBlock _ _)).
      rewrite Hs, He; reflexivity.
Defined.

(** Against claim C1 as stated: [processCommittedBlock] is called on blocks
    other than the successor of the last committed one.  The catch-up with
    the blocks 5 and 7 on a driver that holds four blocks commits block 5 and
    then calls it on block 7 while [lastCommittedBlockID] is 5.
    [blockCommitArrived] for block 9 on a driver without blocks passes its
    guard ([lastCommittedBlockID = 0]) and calls it on block 9.  Both calls
    throw and commit nothing. *)
Lemma processCommittedBlock_handed_other_blocks :
  (lastCommittedBlockID after_block5 = 5 /\
   catchupLoop [signed_block 5; signed_block 7] (0, 0) (driver 4 fresh_node) =
     (processCommittedBlock (signed_block 7) ;; ret (1577836800, 250)) after_block5 /\
   processCommittedBlock (signed_block 7) after_block5 =
     (Thrown InvalidStateException, after_block5) /\
   blockCommitsArrivedThroughCatchup [signed_block 5; signed_block 7] (driver 4 fresh_node) =
     (Thrown InvalidStateException, after_block5)) /\
  (lastCommittedBlockID stamped_at_0 = 0 /\
   blockCommitArrived 9 1 1577836800 250 (Some "signature"%string)
       (driver 0 node_with_proposal9) =
     rethrow_as_InvalidState
       (processCommittedBlock
          (committed_of (demo_proposal 9 1 1577836800 250) (Some "signature"%string)) ;;
        proposeNextBlock 1577836800 250) stamped_at_0 /\
   processCommittedBlock
       (committed_of (demo_proposal 9 1 1577836800 250) (Some "signature"%string))
       stamped_at_0 =
     (Thrown InvalidStateException, stamped_at_0) /\
   blockCommitArrived 9 1 1577836800 250 (Some "signature"%string)
       (driver 0 node_with_proposal9) =
     (Thrown InvalidStateException, stamped_at_0)).
Proof.
  split.
  - split; [| split; [| split]]; vm_compute; reflexivity.
  - split; [| split; [| split]]; vm_compute; reflexivity.
Qed.

(** At a driver that holds five blocks, a commit of block 3 is ignored and
    a commit of block 9 is an assertion failure. *)
Lemma blockCommitArrived_guard_witness :
  blockCommitArrived 3 1 1577836800 250 None (driver 5 fresh_node)
    = (Returned tt, driver 5 fresh_node) /\
  blockCommitArrived 9 1 1577836800 250 None (driver 5 fresh_node)
    = (Thrown AssertionFailure, driver 5 fresh_node).
Proof.
  destruct (blockCommitArrived_guard (driver 5 fresh_node) 3 1 1577836800 250 None)
    as (_ & _ & H3).
  destruct (blockCommitArrived_guard (driver 5 fresh_node) 9 1 1577836800 250 None)
    as (_ & _ & H9).
  split.
  - apply H3; [reflexivity | reflexivity | simpl; lia].
  - apply H9; [reflexivity | reflexivity | simpl; lia | vm_compute; discriminate | discriminate].
Defined.

(** Against claim C2 as stated: block 3 is stale for a driver at block 5,
    yet the call is not ignored when its time stamp is out of range: the
    assertion on the time stamp comes first. *)
Lemma blockCommitArrived_stale_not_ignored :
  3 <= lastCommittedBlockID (driver 5 fresh_node) /\
  blockCommitArrived 3 1 4000000000 0 None (driver 5 fresh_node)
    = (Thrown AssertionFailure, driver 5 fresh_node).
Proof. split; [simpl; lia | vm_compute; reflexivity]. Qed.

(** A proposal for block 3 and a proof for block 5 at a driver that holds
    five blocks. *)
Lemma stale_inputs_dropped_witness :
  proposedBlockArrived (demo_proposal 3 2 1577836800 250) (driver 5 fresh_node)
    = (Returned tt, driver 5 fresh_node) /\
  daProofArrived (mkDAProof 5 2 "proof") (driver 5 fresh_node)
    = (Returned tt, driver 5 fresh_node).
Proof.
  destruct (stale_inputs_dropped (driver 5 fresh_node)) as [Hp Hd].
  split; [apply Hp | apply Hd]; simpl; lia.
Defined.

(** The in-memory node meets the assumptions on the collaborators. *)
Lemma demo_running : @running DemoNode demo_services.
Proof. intros n. reflexivity. Qed.




(** Claim C7, at the failing input.  [blockCommitsArrivedThroughCatchup]
    commits block 1, stamped (2000 s, 500 ms), without storing its time
    stamp as [blockCommitArrived] does: the stored pair is still the one of
    the bootstrap, (1000 s, 0 ms), and the empty block 2 is stamped
    (1000 s, 1 ms), which is before its predecessor and not 1 ms after it. *)
Theorem empty_block_after_catchup :
  lastCommittedBlockID after_catchup = 1 /\
  (lastCommittedBlockTimeStamp after_catchup,
   lastCommittedBlockTimeStampMs after_catchup) = (1000, 0) /\
  createEmptyBlockProposal 2 after_catchup = mkEmptyBlockProposal 2 1000 1 /\
  ~ lex_lt (cb_timeStamp block1, cb_timeStampMs block1)
      (ebp_timeStamp (createEmptyBlockProposal 2 after_catchup),
       ebp_timeStampMs (createEmptyBlockProposal 2 after_catchup)).
Proof.
  vm_compute. repeat split; try reflexivity.
  intros [H|[H _]]; discriminate.
Qed.

End DriverFacts.

(** ** The transport *)

Module TransportFacts.
Import Driver Transport EffFacts.
Section WithNode.
Context {Node : Type} {svc : NodeServices Node} {net : NetServices Node}.

(** *** The router *)

Lemma postMessage_posts (m : MessageEnvelope) (c : Schain Node) :
  isExitRequested (node c) = false -> envelope_blockID m <> 0 ->
  postMessage m c = (Returned tt, set_messageQueue (messageQueue c ++ [m]) c).
Proof.
  intros He Hb. apply Z.eqb_neq in Hb.
  unfold postMessage, bind, checkForExit, ASSERT, modify. rewrite He. simpl.
  rewrite Hb. reflexivity.
Qed.

(** Claim C6.  One turn of the network read loop on an inbound envelope [m]
    with block id [Bm] and round [Rm], while no exit is requested, disposes of
    [m] by the router's rule, with [Bc = lastCommittedBlockID + 1] and [Rc]
    the round of the destination instance: discarded when
    [Bm <= catchupBlocks]; else deferred under key [Bm] when [Bm > Bc]; else
    deferred when [Rm > Rc + 1], or when [Rm = Rc + 1] and the instance has
    not decided; else posted to the driver's queue.  Nothing else changes. *)
Theorem networkReadLoop_routes (t : TransportNetwork Node) (m : NetworkMessageEnvelope) :
  isExitRequested (node (sChain t)) = false ->
  0 <= catchupBlocks t ->
  let msg := nme_message m in
  let key := createDestinationProtocolKey msg in
  let Bc := wrap64 (lastCommittedBlockID (sChain t) + 1) in
  let Rc := getRound (node (sChain t)) key in
  networkReadLoop_turn (Some m) t =
    (Returned Continue,
     disposed (router_rule (catchupBlocks t) Bc Rc (decided (node (sChain t)) key)
                 (nm_blockID msg) (nm_round msg)) m t).
Proof.
  intros Hrun Hcb msg key Bc Rc.
  unfold networkReadLoop_turn, router_rule, bind, gets, try_catch. rewrite Hrun.
  fold msg.
  destruct (nm_blockID msg <=? catchupBlocks t) eqn:Hcatch; [reflexivity |].
  apply Z.leb_gt in Hcatch.
  unfold postOrDefer. fold msg Bc key. simpl.
  destruct (nm_blockID msg >? Bc) eqn:Hfuture; [reflexivity |].
  assert (Hle : (nm_blockID msg <=? Bc) = true).
  { apply Z.leb_le. rewrite Z.gtb_ltb in Hfuture. apply Z.ltb_ge in Hfuture. exact Hfuture. }
  rewrite Hle. unfold bind, gets. fold Rc.
  destruct (nm_round msg >? wrap64 (Rc + 1)); [reflexivity |].
  destruct ((nm_round msg =? wrap64 (Rc + 1)) && negb (decided (node (sChain t)) key));
    [reflexivity |].
  unfold onChain. rewrite postMessage_posts; [reflexivity | exact Hrun |].
  simpl. fold msg. lia.
Qed.

(** *** The delayed-send deques *)

#[local] Instance keeps_bounded_preorder : PreOrder (@keeps_bounded Node).
Proof.
  split.
  - intros t H. exact H.
  - intros a b c Hab Hbc H. apply Hbc, Hab, H.
Qed.

#[local] Instance keeps_bounded_frame : TransportFrame (@keeps_bounded Node).
Proof.
  split.
  - exact _.
  - intros t c H. exact H.
  - intros t h H. exact H.
  - intros t q H. exact H.
Qed.

Section Frames.
Context (R : TransportNetwork Node -> TransportNetwork Node -> Prop) {HF : TransportFrame R}.













End Frames.












(** What one retry of deque [i] does when its head is [(m, peer)]: exactly
    one send, of the head, and the head leaves the deque when it succeeds. *)
Lemma retry_delayed_effect (t : TransportNetwork Node) i m peer d msg ok n' :
  delayedSends t !! Z.to_nat i = Some ((m, peer) :: d) ->
  heap t !! m = Some msg ->
  sendMessage peer msg (node (sChain t)) = (Returned ok, n') ->
  retry_delayed i t =
    (Returned tt,
     let t' := set_sChain (set_node n' (sChain t)) t in
     if ok then set_delayedSends (<[Z.to_nat i := d]> (delayedSends t)) t' else t').
Proof.
  intros Hl Hh Hs. unfold retry_delayed, bind, gets. rewrite Hl.
  unfold deref. rewrite Hh. unfold onChain, call. rewrite Hs.
  destruct ok; reflexivity.
Qed.

#[local] Instance same_deques_preorder : PreOrder (@same_deques Node).
Proof.
  split.
  - intros t. unfold same_deques. auto.
  - intros t1 t2 t3 (A1 & A2 & A3 & A4) (B1 & B2 & B3 & B4). unfold same_deques.
    repeat split; congruence.
Qed.

#[local] Instance same_sends_preorder : PreOrder (@same_sends Node).
Proof.
  split.
  - intros t. split; reflexivity.
  - intros t1 t2 t3 [A1 A2] [B1 B2]. split; [etransitivity; eassumption | congruence].
Qed.





Lemma same_deques_setIp m ip : preserves (@same_deques Node) (setIp m ip).
Proof.
  intros t o t' H. unfold setIp, bind, deref, modify in H.
  destruct (heap t !! m); inversion H; subst; repeat split.
Qed.










(** *** The retries of the background loop *)

#[local] Instance same_index_frame :
  NodeFrame (fun s s' : Schain Node => schainIndex s' = schainIndex s).
Proof.
  split.
  - split; [intros s; reflexivity | intros a b c H1 H2; congruence].
  - intros s n. reflexivity.
  - intros s q. reflexivity.
Qed.









End WithNode.

Import Demo Samples.

(** The envelope for block 9 is deferred under key 9 by a driver that is
    deciding block 6. *)
Lemma networkReadLoop_routes_witness :
  networkReadLoop_turn (Some future_envelope) (demo_transport fresh_node [[]; []; []; []]) =
    (Returned Continue,
     disposed (Deferred 9) future_envelope (demo_transport fresh_node [[]; []; []; []])).
Proof.
  refine (networkReadLoop_routes (demo_transport fresh_node [[]; []; []; []]) future_envelope
            eq_refl _).
  simpl. lia.
Defined.





End TransportFacts.

(** ** The wire format *)

Module WireFacts.
Import Wire Samples.

Lemma Z_of_byte_range b : 0 <= Z_of_byte b < 256.
Proof.
  unfold Z_of_byte. pose proof (Byte.to_N_bounded b). lia.
Qed.

Lemma le_value_nonneg l : 0 <= le_value l.
Proof.
  induction l as [|b l IH]; simpl; [lia |].
  pose proof (Z_of_byte_range b). lia.
Qed.

Lemma Z_of_byte_of_Z v : Z_of_byte (byte_of_Z v) = v mod 256.
Proof.
  unfold Z_of_byte, byte_of_Z.
  assert (H : 0 <= v mod 256 < 256) by (apply Z.mod_pos_bound; lia).
  destruct (Byte.of_N (Z.to_N (v mod 256))) as [b|] eqn:E.
  - apply Byte.to_of_N in E. simpl. rewrite E. lia.
  - apply Byte.of_N_None_iff in E. lia.
Qed.

Lemma le_value_le_bytes n v : le_value (le_bytes n v) = v mod 256 ^ Z.of_nat n.
Proof.
  revert v. induction n as [|n IH]; intros v.
  - simpl. rewrite Z.mod_1_r. reflexivity.
  - cbn [le_bytes le_value]. rewrite IH, Z_of_byte_of_Z.
    rewrite Nat2Z.inj_succ, Z.pow_succ_r by lia.
    rewrite Z.rem_mul_r by lia. reflexivity.
Qed.

Lemma le_bytes_length n v : length (le_bytes n v) = n.
Proof. revert v. induction n as [|n IH]; intros v; simpl; [reflexivity | rewrite IH; reflexivity]. Qed.

Lemma sum_nonneg sizes : Forall (fun s => 0 <= s) sizes -> 0 <= foldr Z.add 0 sizes.
Proof. induction 1; simpl; lia. Qed.

Lemma TransactionList_deserialize_returns sizes bytes index :
  Forall (fun s => 0 <= s) sizes ->
  index <= Z.of_nat (length bytes) ->
  returns (TransactionList_deserialize sizes bytes index) =
    negb (Z.of_nat (length bytes) <? index + foldr Z.add 0 sizes).
Proof.
  intros Hs. revert index. induction Hs as [|size rest Hsize Hrest IH]; intros index Hi.
  - simpl. symmetry. apply negb_true_iff, Z.ltb_ge. lia.
  - cbn [TransactionList_deserialize foldr].
    pose proof (sum_nonneg rest Hrest) as Hsum.
    destruct (Z.ltb_spec (Z.of_nat (length bytes)) (index + size)) as [Hlt | Hge].
    + simpl. symmetry. apply negb_false_iff, Z.ltb_lt. lia.
    + specialize (IH (index + size) Hge).
      destruct (TransactionList_deserialize rest bytes (index + size)); simpl in *;
        rewrite IH; f_equal; f_equal; lia.
Qed.

(** A value converted to an unsigned integer is not negative. *)
Lemma to_unsigned_nonneg bits v n : 0 <= bits -> to_unsigned bits v = Returned n -> 0 <= n.
Proof.
  intros Hb H. assert (Hp : 0 < 2 ^ bits) by (apply Z.pow_pos_nonneg; lia).
  destruct v; simpl in H; try discriminate.
  - destruct (bits =? 64); [discriminate |]. inversion H. destruct b; lia.
  - inversion H. apply Z.mod_pos_bound. exact Hp.
  - inversion H. apply Z.mod_pos_bound. exact Hp.
  - destruct (0 <=? truncate m e) eqn:E; simpl in H; [| discriminate].
    destruct (truncate m e <? 2 ^ bits); inversion H; subst.
    apply Z.leb_le. exact E.
Qed.

Lemma sizes_of_nonneg l sizes : sizes_of l = Returned sizes -> Forall (fun s => 0 <= s) sizes.
Proof.
  revert sizes. induction l as [|v l IH]; intros sizes H; simpl in H.
  - inversion H. constructor.
  - destruct (to_unsigned 64 v) as [n|] eqn:Hn; [| discriminate].
    destruct (sizes_of l) as [r|]; [| discriminate].
    inversion H; subst. constructor; [| apply IH; reflexivity].
    eapply to_unsigned_nonneg; [| exact Hn]. lia.
Qed.

(** The sizes [parseBlockHeader] returns are not negative. *)
Lemma header_fields_sizes js fields sizes js' :
  header_fields js = (Returned (fields, sizes), js') -> Forall (fun s => 0 <= s) sizes.
Proof.
  unfold header_fields. intros H.
  repeat match type of H with
         | bind _ _ _ = _ =>
             apply EffFacts.bind_inv in H as [(? & ? & ? & H) | (? & _ & H)];
             [| discriminate H]
         end.
  inversion H; subst.
  match goal with
  | Hs : lift (sizes_of _) _ = (Returned _, _) |- _ => unfold lift in Hs; inversion Hs
  end.
  eapply sizes_of_nonneg. eassumption.
Qed.

Lemma header_of_length bytes :
  headerSize_of bytes + 8 <= Z.of_nat (length bytes) ->
  Z.of_nat (length (header_of bytes)) = headerSize_of bytes.
Proof.
  intros H. pose proof (le_value_nonneg (firstn 8 bytes)) as H0.
  unfold header_of, chars_of_bytes. fold (headerSize_of bytes) in H0.
  rewrite length_map, length_take, length_drop. lia.
Qed.

Lemma wrap64_le x : 0 <= x -> wrap64 x <= x.
Proof.
  intros H. unfold wrap64. apply Z.mod_le; [exact H |]. unfold U64.modulus. lia.
Qed.

Lemma serialize_inv b bytes :
  serialize b = Returned bytes ->
  bytes = toBuffer b ++ concat (blk_transactionList b) /\
  byte_is "{" (toBuffer b !! 8%nat) = true /\
  byte_is "}" (toBuffer b !! (length (toBuffer b) - 1)%nat) = true.
Proof.
  unfold serialize. cbv zeta.
  destruct (byte_is "{" (toBuffer b !! 8%nat)); [| discriminate].
  destruct (byte_is "}" (toBuffer b !! (length (toBuffer b) - 1)%nat)); [| discriminate].
  cbn [negb].
  destruct (negb _); [discriminate |].
  intros H. inversion H. auto.
Qed.

Lemma byte_is_inv c o : byte_is c o = true -> exists x, o = Some x /\ ascii_of_byte x = c.
Proof.
  destruct o as [x|]; [| discriminate]. simpl. intros H.
  apply Ascii.eqb_eq in H. eauto.
Qed.

Lemma ascii_of_byte_inj x y : ascii_of_byte x = ascii_of_byte y -> x = y.
Proof.
  intros H. rewrite <- (byte_of_ascii_of_byte x), <- (byte_of_ascii_of_byte y), H.
  reflexivity.
Qed.

Lemma header_of_lookup bytes k :
  Z.of_nat k < headerSize_of bytes ->
  header_of bytes !! k = ascii_of_byte <$> bytes !! (8 + k)%nat.
Proof.
  intros Hk. unfold header_of, chars_of_bytes.
  rewrite list_lookup_fmap, lookup_take_lt by lia. rewrite lookup_drop. reflexivity.
Qed.

Lemma headerSize_of_insert bytes i v :
  (8 <= i)%nat -> headerSize_of (<[i := v]> bytes) = headerSize_of bytes.
Proof.
  intros Hi. unfold headerSize_of.
  change (@firstn Byte.byte) with (@take Byte.byte).
  rewrite take_insert_ge by lia. reflexivity.
Qed.

(** A header that lacks a brace at either end is refused before it is
    parsed. *)
Lemma parseBlockHeader_needs_brace header k c :
  (k = 0%nat /\ c = "{"%char \/ k = (length header - 1)%nat /\ c = "}"%char) ->
  header !! k <> Some c ->
  returns (parseBlockHeader header) = false.
Proof.
  intros Hk Hc. unfold parseBlockHeader.
  destruct (negb (2 <? length header)%nat); [reflexivity |].
  destruct Hk as [[-> ->] | [-> ->]].
  - rewrite bool_decide_eq_false_2 by exact Hc. reflexivity.
  - destruct (negb (bool_decide (header !! 0%nat = Some "{"%char))); [reflexivity |].
    rewrite bool_decide_eq_false_2 by exact Hc. reflexivity.
Qed.

Section Corruption.
Variable MAX_BUFFER_SIZE : Z.
Variable calculateHash : Block -> list ascii.

(** An input is refused when the byte at a brace position of its header is
    not that brace. *)
Lemma deserialize_needs_brace bytes k c x :
  (k = 0%nat /\ c = "{"%char \/
   Z.of_nat k = headerSize_of bytes - 1 /\ c = "}"%char) ->
  bytes !! (8 + k)%nat = Some x ->
  ascii_of_byte x <> c ->
  returns (deserialize MAX_BUFFER_SIZE calculateHash bytes) = false.
Proof.
  intros Hk Hx Hc. unfold deserialize. cbv zeta.
  change (le_value (firstn 8 bytes)) with (headerSize_of bytes).
  change (chars_of_bytes (firstn (Z.to_nat (headerSize_of bytes)) (skipn 8 bytes)))
    with (header_of bytes).
  destruct (Z.of_nat (length bytes) <? 8 + 2); [reflexivity |].
  destruct (Z.ltb_spec (headerSize_of bytes) 2) as [Hs | Hs]; [reflexivity |].
  cbn [orb].
  destruct (wrap64 (headerSize_of bytes + 8) >? Z.of_nat (length bytes)); [reflexivity |].
  destruct (headerSize_of bytes >? MAX_BUFFER_SIZE); [reflexivity |].
  destruct (headerSize_of bytes + 8 >? Z.of_nat (length bytes)) eqn:Hfit; [reflexivity |].
  assert (Hlen : Z.of_nat (length (header_of bytes)) = headerSize_of bytes).
  { apply header_of_length. rewrite Z.gtb_ltb in Hfit. apply Z.ltb_ge in Hfit. lia. }
  assert (Hlook : header_of bytes !! k = Some (ascii_of_byte x)).
  { rewrite header_of_lookup by lia. rewrite Hx. reflexivity. }
  assert (Hret : returns (parseBlockHeader (header_of bytes)) = false).
  { apply (parseBlockHeader_needs_brace _ k c).
    - destruct Hk as [[-> ->] | [Hk ->]]; [left; auto | right; split; [lia | reflexivity]].
    - rewrite Hlook. congruence. }
  destruct (parseBlockHeader (header_of bytes)) as [r|e]; [discriminate |].
  destruct e; reflexivity.
Qed.

(** Property X15.  In a serialized block, a change of the byte that holds
    the opening brace of the header (position 8) or of the byte that holds
    its closing brace (the last byte of the header buffer) to any other value
    is detected: [deserialize] rejects the input, whatever the hash
    function. *)
Theorem brace_flip_detected (b : Block) (bytes : list Byte.byte) (i : nat) (v : Byte.byte) :
  serialize b = Returned bytes ->
  Z.of_nat (length bytes) < U64.modulus ->
  i = 8%nat \/ i = (length (toBuffer b) - 1)%nat ->
  bytes !! i <> Some v ->
  returns (deserialize MAX_BUFFER_SIZE calculateHash (<[i := v]> bytes)) = false.
Proof.
  intros Hser Hsize Hi Hv.
  destruct (serialize_inv b bytes Hser) as (Hbytes & Hopen & Hclose).
  apply byte_is_inv in Hopen as (xo & Hxo & Hopen).
  apply byte_is_inv in Hclose as (xc & Hxc & Hclose).
  assert (Hbuf : (9 <= length (toBuffer b))%nat).
  { apply lookup_lt_Some in Hxo. lia. }
  assert (Htext : length (toBuffer b) = (8 + length (dump (header_json b)))%nat).
  { unfold toBuffer, bytes_of_chars. cbv zeta.
    rewrite length_app, le_bytes_length, length_map. reflexivity. }
  assert (Hlen : (length (toBuffer b) <= length bytes)%nat).
  { rewrite Hbytes, length_app. lia. }
  assert (Hhs : headerSize_of bytes = Z.of_nat (length (dump (header_json b)))).
  { unfold headerSize_of. rewrite Hbytes.
    change (@firstn Byte.byte) with (@take Byte.byte).
    rewrite take_app_le by lia.
    unfold toBuffer. cbv zeta.
    rewrite take_app_length' by (symmetry; apply le_bytes_length).
    rewrite le_value_le_bytes.
    apply Z.mod_small. change (256 ^ Z.of_nat 8) with U64.modulus. lia. }
  assert (Hi8 : (8 <= i < length bytes)%nat) by (destruct Hi; subst; lia).
  assert (Horig : exists x c, bytes !! i = Some x /\ ascii_of_byte x = c /\
            (i = 8%nat /\ c = "{"%char \/
             Z.of_nat (i - 8) = headerSize_of bytes - 1 /\ c = "}"%char)).
  { destruct Hi as [-> | ->].
    - exists xo, "{"%char. split; [| split; [exact Hopen | left; split; reflexivity]].
      rewrite Hbytes, lookup_app_l by lia. exact Hxo.
    - exists xc, "}"%char. split; [| split; [exact Hclose | right; split; [lia | reflexivity]]].
      rewrite Hbytes, lookup_app_l by lia. exact Hxc. }
  destruct Horig as (x & c & Hx & Hxc' & Hpos).
  apply (deserialize_needs_brace (<[i := v]> bytes) (i - 8) c v).
  - rewrite headerSize_of_insert by lia.
    destruct Hpos as [[-> ->] | [Hp ->]]; [left; split; reflexivity | right; split; [exact Hp | reflexivity]].
  - replace (8 + (i - 8))%nat with i by lia.
    apply list_lookup_insert_eq. lia.
  - intros Heq. apply Hv. rewrite Hx. f_equal.
    apply ascii_of_byte_inj. congruence.
Qed.

End Corruption.

Lemma take_add_app {A} (a b : nat) (l : list A) :
  take (a + b) l = take a l ++ take b (drop a l).
Proof.
  revert l. induction a as [|a IH]; intros l; simpl.
  - rewrite drop_0. reflexivity.
  - destruct l as [|x l]; simpl.
    + rewrite take_nil. reflexivity.
    + rewrite IH. reflexivity.
Qed.

Lemma TransactionList_deserialize_concat sizes bytes index txs :
  Forall (fun s => 0 <= s) sizes -> 0 <= index ->
  TransactionList_deserialize sizes bytes index = Returned txs ->
  concat txs = take (Z.to_nat (foldr Z.add 0 sizes)) (drop (Z.to_nat index) bytes).
Proof.
  intros Hs. revert index txs.
  induction Hs as [|size rest Hsize Hrest IH]; intros index txs Hi H.
  - simpl in H. inversion H; subst. reflexivity.
  - cbn [TransactionList_deserialize foldr] in *.
    destruct (Z.of_nat (length bytes) <? index + size); [discriminate |].
    destruct (TransactionList_deserialize rest bytes (index + size)) as [txs'|] eqn:Hrec;
      [| discriminate].
    inversion H; subst. simpl.
    pose proof (sum_nonneg rest Hrest) as Hsum.
    rewrite (IH (index + size) txs') by (first [exact Hrec | lia]).
    rewrite (Z2Nat.inj_add size (foldr Z.add 0 rest)) by lia. rewrite take_add_app.
    rewrite drop_drop. rewrite (Z2Nat.inj_add index size) by lia. reflexivity.
Qed.

(** The payload a block is given on reading is the segment of the input that
    starts at offset [headerSize], that is, with the last 8 bytes of the
    header. *)
Lemma deserialize_payload MAX_BUFFER_SIZE calculateHash bytes b :
  deserialize MAX_BUFFER_SIZE calculateHash bytes = Returned b ->
  concat (blk_transactionList b) =
    take (length (concat (blk_transactionList b)))
      (drop (Z.to_nat (headerSize_of bytes)) bytes).
Proof.
  unfold deserialize. cbv zeta.
  change (le_value (firstn 8 bytes)) with (headerSize_of bytes).
  pose proof (le_value_nonneg (firstn 8 bytes)) as Hhs.
  change (le_value (firstn 8 bytes)) with (headerSize_of bytes) in Hhs.
  destruct (_ <? 8 + 2); [discriminate |].
  destruct (_ || _); [discriminate |].
  destruct (_ >? MAX_BUFFER_SIZE); [discriminate |].
  destruct (_ >? _); [discriminate |].
  unfold parseBlockHeader.
  destruct (negb _); [discriminate |].
  destruct (negb _); [discriminate |].
  destruct (negb _); [discriminate |].
  destruct (parse _) as [js|]; [| discriminate].
  destruct (header_fields js) as [[[fields sizes]|e] js'] eqn:Hf;
    [| destruct e; discriminate].
  pose proof (header_fields_sizes js fields sizes js' Hf) as Hsizes.
  cbn [fst].
  destruct (TransactionList_deserialize sizes bytes (headerSize_of bytes)) as [txs|] eqn:Htx;
    [| discriminate].
  intros H. inversion H; subst. simpl.
  pose proof (TransactionList_deserialize_concat sizes bytes _ txs Hsizes Hhs Htx) as Hc.
  rewrite Hc at 1. f_equal.
  rewrite Hc. rewrite length_take.
  assert (Hfit : returns (TransactionList_deserialize sizes bytes (headerSize_of bytes)) = true)
    by (rewrite Htx; reflexivity).
  destruct (Z.ltb_spec (Z.of_nat (length bytes)) (headerSize_of bytes)) as [Hlt | Hge].
  - destruct sizes as [|size rest]; [reflexivity |].
    cbn [TransactionList_deserialize] in Htx.
    inversion Hsizes; subst.
    destruct (Z.ltb_spec (Z.of_nat (length bytes)) (headerSize_of bytes + size));
      [discriminate | lia].
  - rewrite TransactionList_deserialize_returns in Hfit by assumption.
    apply negb_true_iff, Z.ltb_ge in Hfit.
    rewrite length_drop. pose proof (sum_nonneg sizes Hsizes). lia.
Qed.

(** Claim C3, at the failing input.  The block with the two transactions
    [AA AA AA AA AA] and [BB BB BB BB BB] is serialized and read back: the
    constructor hands [headerSize], not [headerSize + 8], to
    [TransactionList::deserialize], so the transactions read are the last
    eight bytes of the header followed by the first two payload bytes, and
    the block read back is not the block written. *)
Theorem round_trip_shifts_payload (calculateHash : Block -> list ascii) :
  exists bytes b,
    serialize two_transactions = Returned bytes /\
    deserialize 10000000 calculateHash bytes = Returned b /\
    blk_transactionList b =
      [bytes_of_chars (quote :: chars ":[5,");
       bytes_of_chars (chars "5]}") ++ [Byte.xaa; Byte.xaa]] /\
    blk_transactionList b <> blk_transactionList two_transactions.
Proof.
  eexists. eexists. split; [vm_compute; reflexivity |].
  split; [vm_compute; reflexivity |].
  split; [vm_compute; reflexivity |].
  vm_compute. discriminate.
Qed.

(** A block without transactions is read back as written. *)
Lemma empty_block_round_trip :
  deserialize 10000000 constant_hash (serialized empty_block) = Returned empty_block.
Proof. vm_compute. reflexivity. Qed.

(** Claim C4, at the failing input.  The header of [empty_block] is written
    without its [sizes]: the parsed header has no such member, and yet
    [deserialize] returns a block, the one it returns for the complete
    header, because [js["sizes"]] is evaluated, and adds the member, before
    [nullCheck(js, "sizes")] looks for it.  Leaving out any other of the
    fields [parseBlockHeader] reads makes [deserialize] reject the input. *)
Theorem header_without_sizes_accepted :
  (exists js, parse (dump header_without_sizes) = Some js /\ find js "sizes" = None) /\
  (forall calculateHash,
     (exists b,
        deserialize 10000000 calculateHash (framed (dump header_without_sizes) [])
          = Returned b /\
        blk_blockID b = 7 /\ blk_transactionCount b = 0 /\ blk_transactionList b = []) /\
     deserialize 10000000 calculateHash (framed (dump header_without_sizes) []) =
       deserialize 10000000 calculateHash (serialized empty_block)) /\
  (forall calculateHash,
     Forall
       (fun name =>
          deserialize 10000000 calculateHash
            (framed (dump (without name (header_json empty_block))) [])
            = Thrown ParsingException)
       other_fields).
Proof.
  split; [eexists; split; vm_compute; reflexivity |].
  split.
  - intros calculateHash. split.
    + eexists. split; [vm_compute; reflexivity |]. repeat split.
    + vm_compute. reflexivity.
  - intros calculateHash. unfold other_fields.
    repeat (constructor; [vm_compute; reflexivity |]). constructor.
Qed.

(** Two more inputs that meet none of the conditions the specification
    lists and are rejected, whatever the hash function.  In the first the
    header is the one of [empty_block] with the block id written as a
    string; in the second the header announces two transactions of five
    bytes and no payload follows. *)
Lemma deserialize_rejects_unlisted :
  (forall calculateHash,
     deserialize 10000000 calculateHash (framed (dump ill_typed_header) [])
       = Thrown ParsingException) /\
  (forall calculateHash,
     deserialize 10000000 calculateHash (framed (dump (header_json two_transactions)) [])
       = Thrown AssertionFailure).
Proof.
  split; intros calculateHash; vm_compute; reflexivity.
Qed.

(** Claim C5, at the failing inputs: two single-byte changes of a serialized
    block that [deserialize] accepts, whatever the hash function.  The digit
    of the block id of [empty_block] is changed from 7 to 8 and the block is
    read as block 8; the first payload byte of [two_transactions] is changed
    and the input is read as a block. *)
Lemma flip_not_detected :
  (serialized empty_block !! 57%nat = Some Byte.x37 /\
   forall calculateHash, exists b,
     deserialize 10000000 calculateHash (<[57%nat := Byte.x38]> (serialized empty_block))
       = Returned b /\ blk_blockID b = 8) /\
  (serialized two_transactions !! 204%nat = Some Byte.xaa /\
   forall calculateHash,
     returns (deserialize 10000000 calculateHash
                (<[204%nat := Byte.xab]> (serialized two_transactions))) = true).
Proof.
  split; split.
  - vm_compute. reflexivity.
  - intros calculateHash. eexists. split; vm_compute; reflexivity.
  - vm_compute. reflexivity.
  - intros calculateHash. vm_compute. reflexivity.
Qed.

(** The opening brace of [empty_block] overwritten with a bracket. *)
Lemma brace_flip_detected_witness :
  returns (deserialize 10000000 constant_hash (<[8%nat := Byte.x5b]> (serialized empty_block)))
    = false.
Proof.
  apply (brace_flip_detected 10000000 constant_hash empty_block (serialized empty_block)
           8%nat Byte.x5b).
  - vm_compute. reflexivity.
  - vm_compute. reflexivity.
  - left. reflexivity.
  - vm_compute. discriminate.
Defined.

End WireFacts.

(** ** More of the driver *)

Module DriverExtra.
Import Driver Ledger Finalization MessageLoop Entries EffFacts DriverFacts.

(** Symbolic execution of a method, one construct at a time. *)
Ltac run_step :=
  lazymatch goal with
  | |- wp (bind _ _) _ _ => apply wp_bind
  | |- wp (ret _) _ _ => apply wp_ret
  | |- wp (throw _) _ _ => apply wp_throw
  | |- wp (gets _) _ _ => apply wp_gets
  | |- wp (modify _) _ _ => apply wp_modify
  | |- wp (rethrow_as_InvalidState _) _ _ => apply wp_rethrow
  | |- wp (try_catch _ _) _ _ => apply wp_try_catch
  | |- wp (ASSERT _) _ _ => apply wp_ASSERT; intros ?
  | |- wp (CHECK_STATE _) _ _ => apply wp_CHECK_STATE; intros ?
  | |- wp (CHECK_ARGUMENT _) _ _ => apply wp_CHECK_ARGUMENT; intros ?
  | |- wp (call _) _ _ => apply wp_call; intros [?|?] ? ?
  | |- wp checkForExit _ _ => apply wp_checkForExit; intros ?
  | |- wp exitCheck _ _ => apply wp_checkForExit; intros ?
  | |- wp (if ?b then _ else _) _ _ => destruct b eqn:?
  | |- wp (match ?x with _ => _ end) _ _ => destruct x eqn:?
  | |- wp (let _ := _ in _) _ _ => cbv zeta
  end.

Ltac run := repeat (cbv beta iota; run_step).

Ltac rethrown_cases :=
  repeat match goal with
         | |- context [@rethrown ?A (Thrown ?e)] =>
             let e' := fresh "e" in
             let E := fresh "E" in
             destruct (@rethrown_thrown A e) as [e' E]; rewrite E; clear E
         end;
  cbv beta iota.

Section WithNode.
Context {Node : Type} {svc : NodeServices Node} {fin : FinalizeServices Node}.

#[local] Instance ledger_frame_pipeline : PipelineFrame (@ledger_frame Node).
Proof.
  split; [split; [split |..] |]; unfold ledger_frame.
  - intros s. repeat split.
  - intros s1 s2 s3 H1 H2. decompose [and] H1. decompose [and] H2.
    repeat split; congruence.
  - intros s n. repeat split.
  - intros s q. repeat split.
  - intros s l. repeat split.
Qed.

Lemma wrap64_below x : 0 <= x -> wrap64 x <= x.
Proof.
  intros H. unfold wrap64. apply Z.mod_le; [exact H |]. unfold U64.modulus. lia.
Qed.

Lemma preserves_snd {St A} (R : St -> St -> Prop) (m : M St A) s :
  preserves R m -> R s (snd (m s)).
Proof. intros H. apply (H s (fst (m s))). apply surjective_pairing. Qed.

(** Property X1.  The calls that feed the driver with messages, proposals
    and proofs ([postMessage], [proposedBlockArrived], [startConsensus],
    [daProofArrived], [daProofSigShareArrived], [proposeNextBlock]) never
    commit: whether they return or throw, the last committed block id, its
    time stamps, the commit time, the transaction count, the bootstrap
    fields and the calls made to the host are what they were.  Only the
    collaborators, the message queue and the record of proposed ids may
    change. *)
Theorem inputs_never_commit (s : Schain Node) :
  (forall m, ledger_frame s (snd (postMessage m s))) /\
  (forall p, ledger_frame s (snd (proposedBlockArrived p s))) /\
  (forall b v, ledger_frame s (snd (startConsensus b v s))) /\
  (forall d, ledger_frame s (snd (daProofArrived d s))) /\
  (forall sh p, ledger_frame s (snd (daProofSigShareArrived sh p s))) /\
  (forall ts ms, ledger_frame s (snd (proposeNextBlock ts ms s))).
Proof.
  split; [| split; [| split; [| split; [| split]]]]; intros; apply preserves_snd.
  - apply postMessage_frame; exact _.
  - apply proposedBlockArrived_frame; exact _.
  - apply startConsensus_frame; exact _.
  - apply daProofArrived_frame; exact _.
  - apply daProofSigShareArrived_frame; exact _.
  - apply proposeNextBlock_frame; exact _.
Qed.


(** *** Commit accounting *)

(** Property X2.  [processCommittedBlock] does nothing at all and throws
    when the block is unsigned, an exit is requested or the block is not the
    successor of the last committed one.  Otherwise it adds the block's
    transactions to [totalTransactions] before anything can fail, so that the
    count is raised even by a call that throws, while such a call leaves
    [lastCommittedBlockID] and [lastCommitTime] as they were. *)
Theorem processCommittedBlock_counts b (s : Schain Node) o s' :
  processCommittedBlock b s = (o, s') ->
  let attempted :=
    non_null (cb_signature b) && negb (isExitRequested (node s))
    && (wrap64 (lastCommittedBlockID s + 1) =? cb_blockID b) in
  (attempted = false -> s' = s /\ returns o = false) /\
  (attempted = true ->
   totalTransactions s' =
     wrap64 (totalTransactions s + Z.of_nat (length (cb_transactionList b))) /\
   (returns o = false ->
    lastCommittedBlockID s' = lastCommittedBlockID s /\
    lastCommitTime s' = lastCommitTime s)).
Proof.
  intros H. cbv zeta. pattern o, s'. eapply wp_run; [| exact H]. clear H o s'.
  unfold processCommittedBlock.
  run_step. run_step.
  2: { rewrite H. simpl. split; [intros _; split; reflexivity | discriminate]. }
  rewrite H. cbv beta iota. run_step. run_step.
  { rewrite H0. simpl. split; [intros _; split; reflexivity | discriminate]. }
  rewrite H0. cbv beta iota. run_step. run_step. run_step. cbv beta iota. run_step. run_step.
  2: { rewrite H1. simpl. split; [intros _; split; reflexivity | discriminate]. }
  rewrite H1. simpl andb. cbv beta iota.
  run_step. run_step. cbv beta iota. run_step.
  apply wp_of_spec. intros [[]|e] s1 Hs; apply saveBlock_effect in Hs as [n ->].
  2: { rethrown_cases. split; [discriminate |]. intros _. simpl. auto. }
  cbv beta iota. run_step.
  apply wp_of_spec. intros [[]|e] s2 Hp;
    apply pushBlockToExtFace_effect in Hp as (n2 & pushed & -> & _ & _).
  2: { rethrown_cases. split; [discriminate |]. intros _. simpl. auto. }
  run. simpl. split; [discriminate |]. intros _. split; [reflexivity | discriminate].
Qed.


(** *** Catch-up *)

Lemma catchupLoop_known b : forall prev (s : Schain Node),
  Forall (fun t => cb_blockID t <= lastCommittedBlockID s) b ->
  catchupLoop b prev s = (Returned prev, s).
Proof.
  induction b as [|t b IH]; intros prev s Hb; [reflexivity |].
  inversion Hb as [|t' b' Ht Hb']; subst.
  cbn [catchupLoop]. unfold bind at 1, gets at 1.
  replace (cb_blockID t >? lastCommittedBlockID s) with false
    by (symmetry; rewrite Z.gtb_ltb; apply Z.ltb_ge; exact Ht).
  apply IH. exact Hb'.
Qed.

(** Property X3.  [blockCommitsArrivedThroughCatchup] is idempotent on
    known blocks and strict on gaps: a list whose blocks are all at or below
    the last committed id returns with the driver unchanged (this includes
    the empty list), and a list whose first block lies beyond the successor
    of the last committed id fails its assertion with the driver unchanged. *)
Theorem catchup_ignores_known_blocks (s : Schain Node) :
  0 <= lastCommittedBlockID s < U64.max ->
  (forall b, Forall (fun t => cb_blockID t <= lastCommittedBlockID s) b ->
     blockCommitsArrivedThroughCatchup b s = (Returned tt, s)) /\
  (forall b0 rest, lastCommittedBlockID s + 1 < cb_blockID b0 ->
     blockCommitsArrivedThroughCatchup (b0 :: rest) s = (Thrown AssertionFailure, s)).
Proof.
  intros Hlast. rewrite <- (wrap64_succ (lastCommittedBlockID s) Hlast). split.
  - intros [|b0 rest] Hb; [reflexivity |].
    unfold blockCommitsArrivedThroughCatchup, bind, gets.
    pose proof (Forall_inv Hb) as H0. cbv beta in H0.
    replace (cb_blockID b0 <=? wrap64 (lastCommittedBlockID s + 1)) with true
      by (symmetry; apply Z.leb_le; rewrite wrap64_succ by exact Hlast; lia).
    cbn [ASSERT ret]. rewrite catchupLoop_known by exact Hb.
    rewrite Z.ltb_irrefl. reflexivity.
  - intros b0 rest Hgap.
    unfold blockCommitsArrivedThroughCatchup, bind, gets.
    replace (cb_blockID b0 <=? wrap64 (lastCommittedBlockID s + 1)) with false
      by (symmetry; apply Z.leb_gt; exact Hgap).
    reflexivity.
Qed.


(** *** Bootstrap *)

(** The second step of [bootstrap], when its first or its second assertion
    fails: the handler swallows the failure. *)
Lemma bootstrap_start_fails id ts (s : Schain Node) :
  bootStrapped s = true \/ wrap64 (2 * MODERN_TIME) <= ts ->
  try_catch (bootstrap_start id ts) (fun _ => ret tt) s =
    (Returned tt,
     if bootStrapped s then s else set_bootstrapBlockID id (set_bootStrapped true s)).
Proof.
  intros H. unfold try_catch, bootstrap_start, bind, gets, modify, ASSERT.
  destruct (bootStrapped s) eqn:Hb; [reflexivity |].
  destruct H as [H | H]; [discriminate |]. cbn [negb].
  replace (ts <? wrap64 (2 * MODERN_TIME)) with false
    by (symmetry; apply Z.ltb_ge; exact H).
  reflexivity.
Qed.

(** What the first step of [bootstrap] leaves: the driver with another state
    of the collaborators and at most one more call to the host. *)
Lemma bootstrap_reconcile_effect head lastId (s : Schain Node) o s' :
  bootstrap_reconcile head lastId s = (o, s') ->
  exists n pushed,
    s' = set_createBlockCalls (createBlockCalls s ++ pushed) (set_node n s) /\
    (head <> wrap64 (lastId + 1) ->
     pushed = [] /\
     o = if (head <? lastId) || (head >? wrap64 (lastId + 1))
         then Thrown InvalidStateException else Returned lastId) /\
    (forall blk n2 s3,
       head = wrap64 (lastId + 1) ->
       db_getBlock head (node s) = (Returned (Some blk), n2) ->
       pushBlockToExtFace blk (set_node n2 s) = (Returned tt, s3) ->
       o = Returned (wrap64 (lastId + 1)) /\
       (hasExtFace s = true -> exists price, pushed = [host_call blk price])).
Proof.
  assert (Hsame : forall t : Schain Node,
            t = set_createBlockCalls (createBlockCalls t ++ []) (set_node (node t) t)).
  { intros t. rewrite app_nil_r. destruct t; reflexivity. }
  unfold bootstrap_reconcile.
  destruct (Z.eqb_spec head (wrap64 (lastId + 1))) as [E | E].
  - intros H.
    apply try_catch_inv in H.
    assert (Hbody : forall o1 s1,
      (block <- call (db_getBlock head) ;;
       match block with
       | Some blk => pushBlockToExtFace blk ;; ret (wrap64 (lastId + 1))
       | None => ret lastId
       end) s = (o1, s1) ->
      exists n pushed,
        s1 = set_createBlockCalls (createBlockCalls s ++ pushed) (set_node n s) /\
        (forall blk n2 s3,
           db_getBlock head (node s) = (Returned (Some blk), n2) ->
           pushBlockToExtFace blk (set_node n2 s) = (Returned tt, s3) ->
           o1 = Returned (wrap64 (lastId + 1)) /\
           (hasExtFace s = true -> exists price, pushed = [host_call blk price]))).
    { intros o1 s1 Hb. unfold bind at 1, call in Hb.
      destruct (db_getBlock head (node s)) as [[[blk|]|e] n2] eqn:Hget.
      - unfold bind at 1 in Hb.
        destruct (pushBlockToExtFace blk (set_node n2 s)) as [[[]|e] s2] eqn:Hpush.
        + inversion Hb; subst o1 s1.
          pose proof Hpush as Hp.
          apply pushBlockToExtFace_effect in Hp as (n3 & pushed & -> & Hpushed & Hret).
          exists n3, pushed. split; [destruct s; reflexivity |].
          intros blk' n2' s3' Hg Hp'. inversion Hg; subst blk' n2'.
          split; [reflexivity |]. intros Hext.
          destruct Hpushed as [-> | (_ & price & ->)]; [| eauto].
          exfalso. apply Hret; auto.
        + inversion Hb; subst o1 s1.
          pose proof Hpush as Hp.
          apply pushBlockToExtFace_effect in Hp as (n3 & pushed & -> & Hpushed & Hret).
          exists n3, pushed. split; [destruct s; reflexivity |].
          intros blk' n2' s3' Hg Hp'. inversion Hg; subst blk' n2'.
          rewrite Hpush in Hp'. discriminate.
      - inversion Hb; subst. exists n2, []. split; [rewrite app_nil_r; destruct s; reflexivity |].
        intros blk' n2' s3' Hg. discriminate.
      - inversion Hb; subst. exists n2, []. split; [rewrite app_nil_r; destruct s; reflexivity |].
        intros blk' n2' s3' Hg. discriminate. }
    destruct H as [(a & Hm & ->) | [(Hm & ->) | (e & s1 & Hm & Hne & Hh)]].
    + destruct (Hbody _ _ Hm) as (n & pushed & -> & Hrest).
      exists n, pushed. split; [reflexivity |]. split; [intros; contradiction |].
      intros blk n2 s3 _ Hg Hp. apply (Hrest blk n2 s3 Hg Hp).
    + destruct (Hbody _ _ Hm) as (n & pushed & -> & Hrest).
      exists n, pushed. split; [reflexivity |]. split; [intros; contradiction |].
      intros blk n2 s3 _ Hg Hp. destruct (Hrest blk n2 s3 Hg Hp) as [Hc _]. discriminate.
    + inversion Hh; subst o s'.
      destruct (Hbody _ _ Hm) as (n & pushed & -> & Hrest).
      exists n, pushed. split; [reflexivity |]. split; [intros; contradiction |].
      intros blk n2 s3 _ Hg Hp. destruct (Hrest blk n2 s3 Hg Hp) as [Hc _]. discriminate.
  - intros H. exists (node s), []. split.
    + destruct (head <? lastId); [| destruct (head >? wrap64 (lastId + 1))];
        inversion H; subst; apply Hsame.
    + split; [| intros; contradiction].
      intros _. split; [reflexivity |].
      destruct (head <? lastId); [| destruct (head >? wrap64 (lastId + 1))];
        inversion H; reflexivity.
Qed.

(** After the second step of [bootstrap] the driver is bootstrapped. *)
Lemma bootStrapped_after_start id (s : Schain Node) :
  bootStrapped (if bootStrapped s then s
                else set_bootstrapBlockID id (set_bootStrapped true s)) = true.
Proof. destruct (bootStrapped s) eqn:E; [exact E | reflexivity]. Qed.

(** Property X4.  When [bootstrap] is called on a driver that is already
    bootstrapped, or with a time stamp that is not earlier than twice
    [MODERN_TIME], the check that fails in its second step is swallowed:
    whatever the outcome, nothing is committed, no proposal is started and
    no envelope is posted, and a call that returns leaves the driver
    bootstrapped.  What is left of the call is its first step, which depends
    on the head of the block data base: with a head other than
    [lastId + 1] the host is not called, and the call returns unless the
    head is below [lastId] or more than one above it, when it throws
    [InvalidStateException]; with the head at [lastId + 1] and its block
    read and accepted, the call returns and the host, if attached, has been
    handed that block, once. *)
Theorem bootstrap_fails_silently (s : Schain Node) lastId ts o s' :
  bootStrapped s = true \/ wrap64 (2 * MODERN_TIME) <= ts ->
  bootstrap lastId ts s = (o, s') ->
  (lastCommittedBlockID s' = lastCommittedBlockID s /\
   proposedBlockIDs s' = proposedBlockIDs s /\
   messageQueue s' = messageQueue s) /\
  (o = Returned tt -> bootStrapped s' = true) /\
  (forall head n1,
     db_readLastCommittedBlockID (node s) = (Returned head, n1) ->
     isExitRequested n1 = false ->
     (head <> wrap64 (lastId + 1) ->
      createBlockCalls s' = createBlockCalls s /\
      o = if (head <? lastId) || (head >? wrap64 (lastId + 1))
          then Thrown InvalidStateException else Returned tt) /\
     (forall blk n2 s3,
        head = wrap64 (lastId + 1) ->
        db_getBlock head n1 = (Returned (Some blk), n2) ->
        pushBlockToExtFace blk (set_node n2 (set_node n1 s)) = (Returned tt, s3) ->
        o = Returned tt /\
        (hasExtFace s = true ->
         exists price, createBlockCalls s' = createBlockCalls s ++ [host_call blk price]))).
Proof.
  intros Hfail H.
  unfold bootstrap in H.
  apply bind_inv in H as [(head & s1 & Hread & H) | (e & Hread & ->)].
  2: { unfold call in Hread.
       destruct (db_readLastCommittedBlockID (node s)) as [o1 n1] eqn:E.
       inversion Hread; subst. split; [repeat split |]. split; [discriminate |].
       intros head n1' Hr. discriminate. }
  unfold call in Hread.
  destruct (db_readLastCommittedBlockID (node s)) as [o1 n1] eqn:E.
  inversion Hread; subst o1 s1. clear Hread.
  apply bind_inv in H as [([] & s1 & Hexit & H) | (e & Hexit & ->)].
  2: { unfold checkForExit in Hexit. cbn [node set_node] in Hexit.
       destruct (isExitRequested n1) eqn:Hx; inversion Hexit; subst.
       split; [repeat split |]. split; [discriminate |].
       intros head' n1' Hr Hrun. inversion Hr; subst. congruence. }
  unfold checkForExit in Hexit. cbn [node set_node] in Hexit.
  destruct (isExitRequested n1) eqn:Hx; inversion Hexit; subst s1. clear Hexit.
  apply bind_inv in H as [(id & s2 & Hrec & H) | (e & Hrec & ->)].
  - apply bootstrap_reconcile_effect in Hrec as (n & pushed & -> & Hother & Hpush).
    rewrite bootstrap_start_fails in H by exact Hfail.
    inversion H; subst o s'. clear H.
    split.
    { destruct (bootStrapped _); repeat split. }
    split.
    { intros _.
      exact (bootStrapped_after_start id
               (set_createBlockCalls (createBlockCalls s ++ pushed)
                  (set_node n (set_node n1 s)))). }
    intros head' n1' Hr Hrun. inversion Hr; subst head' n1'. split.
    + intros Hne. destruct (Hother Hne) as [-> Ho].
      split; [destruct (bootStrapped _); cbn; apply app_nil_r |].
      destruct (_ || _); [discriminate | reflexivity].
    + intros blk n2 s3 Hh Hg Hp.
      destruct (Hpush blk n2 s3 Hh Hg Hp) as [_ Hcalls].
      split; [reflexivity |]. intros Hext. destruct (Hcalls Hext) as [price ->].
      exists price. destruct (bootStrapped _); reflexivity.
  - apply bootstrap_reconcile_effect in Hrec as (n & pushed & -> & Hother & Hpush).
    split; [repeat split |]. split; [discriminate |].
    intros head' n1' Hr Hrun. inversion Hr; subst head' n1'. split.
    + intros Hne. destruct (Hother Hne) as [-> Ho].
      split; [cbn; apply app_nil_r |].
      destruct (_ || _); [inversion Ho; reflexivity | discriminate].
    + intros blk n2 s3 Hh Hg Hp.
      destruct (Hpush blk n2 s3 Hh Hg Hp) as [Hc _]. discriminate.
Qed.


(** *** Starting consensus *)

(** Property X5.  [startConsensus] posts at most one envelope, and only for
    the block that follows the last committed one: either the message queue
    is unchanged, or the call returned, its block id is
    [lastCommittedBlockID + 1] and the queue has the internal envelope of
    that block and vector appended at its end. *)
Theorem startConsensus_posts_current b v (s : Schain Node) o s' :
  0 <= lastCommittedBlockID s ->
  startConsensus b v s = (o, s') ->
  messageQueue s' = messageQueue s \/
  (b = lastCommittedBlockID s + 1 /\ o = Returned tt /\
   messageQueue s' = messageQueue s ++ [EnvInternal b v]).
Proof.
  intros Hlast H. pattern o, s'. eapply wp_run; [| exact H]. clear H o s'.
  unfold startConsensus, postMessage.
  run; simpl; try (left; reflexivity).
  right.
  repeat match goal with
         | H : (_ <=? _) = false |- _ => apply Z.leb_gt in H
         | H : (_ >? _) = false |- _ => rewrite Z.gtb_ltb in H; apply Z.ltb_ge in H
         end.
  pose proof (wrap64_below (lastCommittedBlockID s + 1)) as Hw.
  simpl in *. split; [lia | split; reflexivity].
Qed.


(** *** The stored time stamp *)

Lemma processCommittedBlock_keeps_stamp b (s : Schain Node) o s' :
  processCommittedBlock b s = (o, s') -> stamp s' = stamp s.
Proof.
  intros H. pattern o, s'. eapply wp_run; [| exact H]. clear H o s'.
  unfold processCommittedBlock.
  run; try reflexivity.
  apply wp_of_spec. intros [[]|e] s1 Hs; apply saveBlock_effect in Hs as [n ->];
    [| reflexivity].
  cbv beta iota. run_step.
  apply wp_of_spec. intros [[]|e] s2 Hp;
    apply pushBlockToExtFace_effect in Hp as (n2 & pushed & -> & _ & _); [| reflexivity].
  run. reflexivity.
Qed.

Lemma blockCommitArrived_try_effect B idx ts tsMs sig (s : Schain Node) o s' :
  blockCommitArrived_try B idx ts tsMs sig s = (o, s') ->
  stamp s' = (ts, tsMs) /\
  (returns o = true -> lastCommittedBlockID s' = wrap64 (lastCommittedBlockID s + 1)) /\
  (lastCommittedBlockID s' = lastCommittedBlockID s \/
   lastCommittedBlockID s' = wrap64 (lastCommittedBlockID s + 1)).
Proof.
  intros H. pattern o, s'. eapply wp_run; [| exact H]. clear H o s'.
  unfold blockCommitArrived_try.
  run; try (rethrown_cases; split; [reflexivity | split; [discriminate | left; reflexivity]]).
  apply wp_of_spec. intros o1 s1 Hp.
  pose proof (processCommittedBlock_keeps_stamp _ _ _ _ Hp) as Hstamp.
  apply processCommittedBlock_effect in Hp as (_ & pushed & _ & Ho).
  destruct o1 as [[]|e].
  - destruct Ho as (_ & Hlast & _).
    apply wp_of_spec. intros o2 s2 Hn.
    apply (proposeNextBlock_frame ledger_frame) in Hn.
    unfold ledger_frame in Hn. decompose [and] Hn. clear Hn.
    rewrite returns_rethrown.
    unfold stamp in *. simpl in *.
    split; [congruence |]. split; [intros _ |right]; congruence.
  - destruct Ho as (Hlast & _). rethrown_cases.
    unfold stamp in *. simpl in *.
    split; [congruence |]. split; [discriminate | left; congruence].
Qed.


(** Property X6.  Once [blockCommitArrived] has passed its guards (no exit
    requested, a time stamp below twice [MODERN_TIME], a block id beyond the
    last committed one that is its successor or any id on a driver without
    blocks) it stores the committed time stamp before it does anything that
    can fail: the stored stamp is the one passed in whether the call returns
    or throws, and a call that returns has advanced the last committed id by
    one. *)
Theorem blockCommitArrived_stores_stamp B idx ts tsMs sig (s : Schain Node) o s' :
  isExitRequested (node s) = false ->
  ts < wrap64 (2 * MODERN_TIME) ->
  lastCommittedBlockID s < B ->
  B = wrap64 (lastCommittedBlockID s + 1) \/ lastCommittedBlockID s = 0 ->
  blockCommitArrived B idx ts tsMs sig s = (o, s') ->
  stamp s' = (ts, tsMs) /\
  (returns o = true -> lastCommittedBlockID s' = wrap64 (lastCommittedBlockID s + 1)).
Proof.
  intros Hrun Hts HB Hnext H.
  unfold blockCommitArrived, bind at 1, checkForExit in H. rewrite Hrun in H.
  unfold bind at 1, ASSERT in H.
  apply Z.ltb_lt in Hts. rewrite Hts in H.
  unfold ret at 1, bind at 1, gets at 1 in H.
  apply Z.leb_gt in HB. rewrite HB in H.
  assert (Hb : (B =? wrap64 (lastCommittedBlockID s + 1))
               || (lastCommittedBlockID s =? 0) = true).
  { apply orb_true_iff. destruct Hnext as [E|E]; [left | right]; apply Z.eqb_eq; exact E. }
  rewrite Hb in H. unfold bind at 1, ASSERT, ret at 1 in H.
  apply blockCommitArrived_try_effect in H as (Hstamp & Hret & _).
  split; assumption.
Qed.

(** *** Finalization of a decided block *)

Lemma finalize_spec_of_frame (s s1 : Schain Node) ok :
  u64 (lastCommittedBlockID s) -> commit_frame s s1 -> finalize_spec s ok s1.
Proof.
  intros Hu Hf. eapply (finalize_spec_frame_r _ _ true); [| exact Hf | reflexivity].
  apply finalize_spec_refl. exact Hu.
Qed.

Lemma finalizeDecidedAndSignedBlock_spec B idx sig (s : Schain Node) o s' :
  u64 (lastCommittedBlockID s) -> u64 B ->
  finalizeDecidedAndSignedBlock B idx sig s = (o, s') ->
  finalize_spec s (returns o) s'.
Proof.
  intros Hu HB H. pattern o, s'. eapply wp_run; [| exact H]. clear H o s'.
  unfold finalizeDecidedAndSignedBlock.
  run; cbn [fst snd negb orb] in *;
    try solve [apply finalize_spec_of_frame; [exact Hu | repeat split]].
  all: run; cbn [fst snd negb orb] in *;
    try solve [apply finalize_spec_of_frame; [exact Hu | repeat split]].
  all: apply wp_of_spec; intros o1 s1 Hc; rewrite returns_rethrown;
    (eapply finalize_spec_frame_l; [| eapply blockCommitArrived_spec; [| exact HB | exact Hc]]);
    [repeat split | exact Hu].
Qed.


Lemma blockCommitArrived_returned B idx ts tsMs sig (s : Schain Node) s' :
  lastCommittedBlockID s < B ->
  blockCommitArrived B idx ts tsMs sig s = (Returned tt, s') ->
  stamp s' = (ts, tsMs) /\
  lastCommittedBlockID s' = wrap64 (lastCommittedBlockID s + 1).
Proof.
  intros HB H.
  enough (Hq : returns (Returned tt : outcome unit) = true ->
               stamp s' = (ts, tsMs) /\
               lastCommittedBlockID s' = wrap64 (lastCommittedBlockID s + 1))
    by (apply Hq; reflexivity).
  pattern (Returned tt : outcome unit), s'. eapply wp_run; [| exact H]. clear H s'.
  unfold blockCommitArrived.
  run; try discriminate.
  - apply Z.leb_le in Heqb. lia.
  - apply wp_of_spec. intros o s' Ht.
    apply blockCommitArrived_try_effect in Ht as (Hstamp & Hret & _).
    intros Ho. split; [exact Hstamp | exact (Hret Ho)].
Qed.

(** What the [try] block of [blockCommitArrived] commits: the block made
    from the proposal the data base holds for the block id and the proposer
    index, and nothing when it holds none. *)
Lemma blockCommitArrived_try_commits B idx ts tsMs sig (s : Schain Node) o s' r n1 :
  blockCommitArrived_try B idx ts tsMs sig s = (o, s') ->
  db_getBlockProposal B idx (node s) = (r, n1) ->
  (r = Returned None ->
   o = Thrown InvalidStateException /\
   lastCommittedBlockID s' = lastCommittedBlockID s /\
   createBlockCalls s' = createBlockCalls s) /\
  (forall p blk n2,
     r = Returned (Some p) -> makeObject p sig n1 = (Returned blk, n2) ->
     returns o = true -> hasExtFace s = true ->
     exists price, createBlockCalls s' = createBlockCalls s ++ [host_call blk price]).
Proof.
  intros H Hdb.
  unfold blockCommitArrived_try in H.
  apply rethrow_inv in H as (o1 & H & Ho).
  unfold bind at 1, modify at 1 in H. unfold bind at 1, modify at 1 in H.
  unfold bind at 1, call at 1 in H. cbn [node set_lastCommittedBlockTimeStamp
    set_lastCommittedBlockTimeStampMs] in H. rewrite Hdb in H.
  split.
  - intros ->. unfold bind at 1, ASSERT in H. cbn [non_null throw] in H.
    inversion H; subst o1 s'. subst o. repeat split.
  - intros p blk n2 -> Hmk Hret Hext.
    unfold bind at 1, ASSERT in H. cbn [non_null ret] in H.
    unfold bind at 1, call at 1 in H. cbn [node set_node] in H. rewrite Hmk in H.
    apply bind_inv in H as [([] & s1 & Hp & Hn) | (e & _ & ->)].
    2: { destruct e; subst o; discriminate. }
    apply processCommittedBlock_effect in Hp as (_ & pushed & Hcalls & _ & _ & Hpushed).
    simpl in Hpushed, Hcalls.
    rewrite Hext in Hpushed. destruct Hpushed as [price ->].
    apply (proposeNextBlock_frame ledger_frame) in Hn.
    unfold ledger_frame in Hn. decompose [and] Hn.
    exists price. congruence.
Qed.

(** Property X7.  What finalizing a decided block beyond the last committed
    one with proposer index 0 does, on a node that is not set to download
    every proposal and whose stored stamp has at most 999 milliseconds.  The
    empty proposal built on the spot gives the commit its time stamp only:
    a call that returns has stored a stamp exactly one millisecond later
    than before (so strictly later in the order of stamps, across a change
    of second too) and has advanced the last committed id by one.  The block
    that is committed is made from the proposal the data base holds for the
    block id and proposer index 0: when it holds none, the call throws and
    commits nothing; when it holds one and the call returns, the host, if
    attached, has been handed the block made from that stored proposal,
    with the time stamp and the transactions of the stored proposal. *)
Theorem empty_block_commit_advances_stamp B sig (s : Schain Node) o s' :
  isFinalizationDownloadOnly (node s) = false ->
  lastCommittedBlockID s < B ->
  0 <= lastCommittedBlockTimeStamp s < U64.max ->
  0 <= lastCommittedBlockTimeStampMs s <= 999 ->
  finalizeDecidedAndSignedBlock B 0 sig s = (o, s') ->
  (o = Returned tt ->
   milliseconds (stamp s') = milliseconds (stamp s) + 1 /\
   lex_lt (stamp s) (stamp s') /\
   lastCommittedBlockID s' = wrap64 (lastCommittedBlockID s + 1)) /\
  (forall r n1,
     db_getBlockProposal B 0 (node s) = (r, n1) ->
     (r = Returned None ->
      returns o = false /\
      lastCommittedBlockID s' = lastCommittedBlockID s /\
      createBlockCalls s' = createBlockCalls s) /\
     (forall p blk n2,
        r = Returned (Some p) -> makeObject p sig n1 = (Returned blk, n2) ->
        o = Returned tt -> hasExtFace s = true ->
        exists price, createBlockCalls s' = createBlockCalls s ++ [host_call blk price])).
Proof.
  intros Hdl HB Hsec Hms H.
  destruct (createEmptyBlockProposal_rule s B Hsec Hms) as (_ & _ & Hmilli & Hlex).
  cbv zeta in Hmilli, Hlex.
  unfold finalizeDecidedAndSignedBlock in H.
  destruct sig as [sg|].
  2: { inversion H; subst. split; [discriminate |].
       intros r n1 _. split; [repeat split | discriminate]. }
  unfold bind at 1, CHECK_ARGUMENT in H. cbn [non_null ret] in H.
  unfold bind at 1, gets at 1 in H.
  pose proof HB as HB'. apply Z.leb_gt in HB'. rewrite HB' in H.
  apply rethrow_inv in H as (o1 & H & Ho).
  rewrite Z.eqb_refl in H.
  unfold bind at 1 in H. unfold bind at 1, gets at 1, ret at 1 in H.
  unfold bind at 1, gets at 1 in H. rewrite Hdl in H. cbn [snd fst negb orb] in H.
  unfold bind at 1, ret at 1 in H.
  cbn [getTimeStamp getTimeStampMs] in H.
  set (e0 := createEmptyBlockProposal B s) in *.
  assert (Hret : o = Returned tt -> o1 = Returned tt).
  { intros ->. destruct o1 as [[]|e]; [reflexivity | destruct e; discriminate]. }
  assert (Hthrown : returns o = returns o1).
  { destruct o1 as [[]|e]; [subst o; reflexivity | destruct e; subst o; reflexivity]. }
  split.
  - intros Hr. rewrite (Hret Hr) in H.
    apply blockCommitArrived_returned in H as [Hstamp Hlast]; [| exact HB].
    fold (stamp s) in Hmilli, Hlex. rewrite Hstamp.
    split; [exact Hmilli | split; [exact Hlex | exact Hlast]].
  - intros r n1 Hdb.
    (* the guards of [blockCommitArrived] *)
    unfold blockCommitArrived in H.
    unfold bind at 1, checkForExit in H.
    destruct (isExitRequested (node s)).
    { inversion H; subst o1 s'. subst o.
      split; [intros _; repeat split | discriminate]. }
    unfold bind at 1, ASSERT in H.
    destruct (ebp_timeStamp e0 <? wrap64 (2 * MODERN_TIME)).
    2: { inversion H; subst o1 s'. subst o.
         split; [intros _; repeat split | discriminate]. }
    unfold ret at 1, bind at 1, gets at 1 in H. rewrite HB' in H.
    unfold bind at 1, ASSERT in H.
    destruct ((B =? wrap64 (lastCommittedBlockID s + 1)) || (lastCommittedBlockID s =? 0)).
    2: { inversion H; subst o1 s'. subst o.
         split; [intros _; repeat split | discriminate]. }
    unfold ret at 1 in H.
    destruct (blockCommitArrived_try_commits _ _ _ _ _ _ _ _ _ _ H Hdb) as [Hnone Hsome].
    split.
    + intros Hr. destruct (Hnone Hr) as (-> & Hl & Hc).
      subst o. repeat split; assumption.
    + intros p blk n2 Hr Hmk Hro Hext.
      apply (Hsome p blk n2 Hr Hmk); [| exact Hext].
      rewrite (Hret Hro). reflexivity.
Qed.


(** *** The message queue *)

#[local] Instance queue_grows_preorder : PreOrder (@queue_grows Node).
Proof.
  split.
  - intros s. exists []. rewrite app_nil_r. split; [reflexivity | constructor].
  - intros s1 s2 s3 (l1 & E1 & H1) (l2 & E2 & H2). exists (l1 ++ l2).
    rewrite E2, E1, app_assoc. split; [reflexivity | apply Forall_app; split; assumption].
Qed.

Lemma queue_grows_same (s s' : Schain Node) :
  messageQueue s' = messageQueue s -> queue_grows s s'.
Proof. intros E. exists []. rewrite app_nil_r. split; [exact E | constructor]. Qed.

Lemma grows_call {A} (f : M Node A) : preserves queue_grows (call f).
Proof.
  intros s o s' H. unfold call in H. destruct (f (node s)) as [o1 n].
  inversion H; subst. apply queue_grows_same. reflexivity.
Qed.

Lemma grows_checkForExit : preserves (@queue_grows Node) checkForExit.
Proof.
  intros s o s' H. unfold checkForExit in H.
  destruct (isExitRequested (node s)); inversion H; subst; reflexivity.
Qed.

Ltac grow_step :=
  first
    [ exact _
    | match goal with |- forall _, _ => intro end
    | apply preserves_ret | apply preserves_throw | apply preserves_gets
    | apply preserves_ASSERT | apply preserves_CHECK_STATE
    | apply preserves_CHECK_ARGUMENT | apply grows_call | apply grows_checkForExit
    | apply preserves_rethrow | apply preserves_try_catch | apply preserves_for_each
    | apply preserves_bind
    | apply preserves_modify; intros ?; apply queue_grows_same; reflexivity
    | match goal with
      | |- preserves _ (if ?b then _ else _) => destruct b
      | |- preserves _ (match ?x with _ => _ end) => destruct x
      end ].

Lemma postMessage_grows m : preserves (@queue_grows Node) (postMessage m).
Proof.
  intros s o s' H. unfold postMessage, bind, checkForExit, ASSERT, modify in H.
  destruct (isExitRequested (node s)); [inversion H; subst; reflexivity |].
  destruct (envelope_blockID m =? 0) eqn:E; simpl in H; inversion H; subst;
    [reflexivity |].
  exists [m]. split; [reflexivity |]. constructor; [| constructor].
  apply Z.eqb_neq. exact E.
Qed.

Lemma startConsensus_grows b v : preserves (@queue_grows Node) (startConsensus b v).
Proof. unfold startConsensus. repeat first [apply postMessage_grows | grow_step]. Qed.

Lemma daProofArrived_grows d : preserves (@queue_grows Node) (daProofArrived d).
Proof. unfold daProofArrived. repeat first [apply startConsensus_grows | grow_step]. Qed.

Lemma daProofSigShareArrived_grows sh p :
  preserves (@queue_grows Node) (daProofSigShareArrived sh p).
Proof. unfold daProofSigShareArrived. repeat first [apply daProofArrived_grows | grow_step]. Qed.

Lemma proposedBlockArrived_grows p : preserves (@queue_grows Node) (proposedBlockArrived p).
Proof. unfold proposedBlockArrived. repeat grow_step. Qed.

Lemma proposeNextBlock_grows ts ms : preserves (@queue_grows Node) (proposeNextBlock ts ms).
Proof.
  unfold proposeNextBlock. cbv zeta.
  repeat first [apply daProofSigShareArrived_grows | apply proposedBlockArrived_grows
               | grow_step].
Qed.

Lemma saveBlock_grows b : preserves (@queue_grows Node) (saveBlock b).
Proof. unfold saveBlock. repeat grow_step. Qed.

Lemma pushBlockToExtFace_grows b : preserves (@queue_grows Node) (pushBlockToExtFace b).
Proof. unfold pushBlockToExtFace, exitCheck. cbv zeta. repeat grow_step. Qed.

Lemma processCommittedBlock_grows b : preserves (@queue_grows Node) (processCommittedBlock b).
Proof.
  unfold processCommittedBlock.
  repeat first [apply saveBlock_grows | apply pushBlockToExtFace_grows | grow_step].
Qed.

Lemma blockCommitArrived_grows B idx ts tsMs sig :
  preserves (@queue_grows Node) (blockCommitArrived B idx ts tsMs sig).
Proof.
  unfold blockCommitArrived, blockCommitArrived_try.
  repeat first [apply processCommittedBlock_grows | apply proposeNextBlock_grows | grow_step].
Qed.

Lemma catchupLoop_grows b : forall prev, preserves (@queue_grows Node) (catchupLoop b prev).
Proof.
  induction b as [|t b IH]; intros prev; cbn [catchupLoop].
  - apply preserves_ret. exact _.
  - repeat first [apply IH | apply processCommittedBlock_grows | grow_step].
Qed.

Lemma blockCommitsArrivedThroughCatchup_grows b :
  preserves (@queue_grows Node) (blockCommitsArrivedThroughCatchup b).
Proof.
  unfold blockCommitsArrivedThroughCatchup.
  repeat first [apply catchupLoop_grows | apply proposeNextBlock_grows | grow_step].
Qed.

Lemma bootstrap_grows id ts : preserves (@queue_grows Node) (bootstrap id ts).
Proof.
  unfold bootstrap, bootstrap_reconcile, bootstrap_start.
  repeat first [apply pushBlockToExtFace_grows | apply proposeNextBlock_grows | grow_step].
Qed.

Lemma finalizeDecidedAndSignedBlock_grows B idx sig :
  preserves (@queue_grows Node) (finalizeDecidedAndSignedBlock B idx sig).
Proof.
  unfold finalizeDecidedAndSignedBlock.
  repeat first [apply blockCommitArrived_grows | grow_step].
Qed.


Lemma enter_grows e : preserves (@queue_grows Node) (enter e).
Proof.
  destruct e; cbn [enter].
  - apply postMessage_grows.
  - apply proposedBlockArrived_grows.
  - apply startConsensus_grows.
  - apply daProofArrived_grows.
  - apply daProofSigShareArrived_grows.
  - apply proposeNextBlock_grows.
  - apply processCommittedBlock_grows.
  - apply blockCommitArrived_grows.
  - apply blockCommitsArrivedThroughCatchup_grows.
  - apply bootstrap_grows.
  - apply finalizeDecidedAndSignedBlock_grows.
Qed.

(** Property X8.  Whatever sequence of calls is made into the driver
    (posting, proposals, proofs, commits, catch-up, bootstrap, finalization),
    the message queue only grows at its end and every envelope added has a
    block id other than 0; so a queue whose envelopes all pass the message
    thread's assertion stays such a queue. *)
Theorem queue_holds_routable_envelopes (es : list Entry) (s : Schain Node) :
  Forall routable (messageQueue s) ->
  queue_grows s (enter_all es s) /\ Forall routable (messageQueue (enter_all es s)).
Proof.
  intros Hq.
  assert (Hg : queue_grows s (enter_all es s)).
  { revert s Hq. induction es as [|e es IH]; intros s Hq; cbn [enter_all].
    - reflexivity.
    - pose proof (preserves_snd _ _ s (enter_grows e)) as H1.
      transitivity (snd (enter e s)); [exact H1 |].
      apply IH. destruct H1 as (l & -> & Hl). apply Forall_app. split; assumption. }
  split; [exact Hg |].
  destruct Hg as (l & -> & Hl). apply Forall_app. split; assumption.
Qed.

Section Loop.
Variable route : MessageEnvelope -> M (Schain Node) unit.

Lemma processQueue_no_assertion q : forall (s : Schain Node) o s',
  Forall routable q ->
  processQueue route q s = (o, s') ->
  match o with Returned _ => True | Thrown e => e = Crash end.
Proof.
  induction q as [|m q IH]; intros s o s' Hq H.
  - inversion H; subst. exact I.
  - inversion Hq as [|m' q' Hm Hq']; subst.
    cbn [processQueue] in H.
    apply Z.eqb_neq in Hm. unfold bind at 1, ASSERT in H. rewrite Hm in H.
    cbn [negb ret] in H.
    unfold bind at 1, try_catch in H.
    unfold bind at 1 in H.
    destruct (route m s) as [[[]|e] s1].
    + cbn [ret] in H. eapply IH; eassumption.
    + destruct e; try (inversion H; subst; reflexivity);
        unfold bind at 1, gets, ret in H;
        (destruct (isExitRequested (node s1));
         [inversion H; subst; exact I | eapply IH; eassumption]).
Qed.

(** Property X9.  The assertion of the message thread cannot fail on a
    queue whose envelopes have non-zero block ids: a turn of
    [messageThreadProcessingLoop] returns, unless the handler itself runs
    into undefined behaviour; exceptions of the handler do not leave the
    loop. *)
Theorem message_loop_assertion_holds (s : Schain Node) o s' :
  Forall routable (messageQueue s) ->
  messageThreadProcessingLoop_turn route s = (o, s') ->
  match o with Returned _ => True | Thrown e => e = Crash end.
Proof.
  intros Hq H. unfold messageThreadProcessingLoop_turn, bind at 1, gets at 1 in H.
  destruct (isExitRequested (node s)); [inversion H; subst; exact I |].
  unfold bind at 1, gets at 1 in H.
  destruct (messageQueue s) as [|m q] eqn:E; [inversion H; subst; exact I |].
  unfold bind at 1, modify in H.
  eapply processQueue_no_assertion; eassumption.
Qed.

(** The state after the handlers of the envelopes of [q] have run, in order. *)
Lemma processQueue_handles_all q : forall s : Schain Node,
  running ->
  (forall m s1, fst (route m s1) <> Thrown Crash) ->
  Forall routable q ->
  processQueue route q s = (Returned Next, fold_left (fun s1 m => snd (route m s1)) q s).
Proof.
  induction q as [|m q IH]; intros s Hrun Hcrash Hq; [reflexivity |].
  inversion Hq as [|m' q' Hm Hq']; subst.
  cbn [processQueue fold_left].
  apply Z.eqb_neq in Hm. unfold bind at 1, ASSERT. rewrite Hm. cbn [negb ret].
  unfold bind at 1, try_catch. unfold bind at 1.
  pose proof (Hcrash m s) as Hc.
  destruct (route m s) as [[[]|e] s1]; cbn [fst snd ret] in *.
  - apply IH; assumption.
  - destruct e; try congruence;
      unfold bind at 1, gets, ret; rewrite (Hrun (node s1)); apply IH; assumption.
Qed.

(** Property X10.  While no exit is requested, a turn of the message thread
    on a non-empty queue empties the queue first and then runs the handler on
    every envelope, in the order of posting, each from the state the
    previous one left, whether or not that one threw; the turn ends ready
    for the next one. *)
Theorem message_loop_handles_all (s : Schain Node) :
  running ->
  (forall m s1, fst (route m s1) <> Thrown Crash) ->
  Forall routable (messageQueue s) ->
  messageQueue s <> [] ->
  messageThreadProcessingLoop_turn route s =
    (Returned Next,
     fold_left (fun s1 m => snd (route m s1)) (messageQueue s) (set_messageQueue [] s)).
Proof.
  intros Hrun Hcrash Hq Hne.
  unfold messageThreadProcessingLoop_turn, bind at 1, gets at 1.
  rewrite (Hrun (node s)). unfold bind at 1, gets at 1.
  destruct (messageQueue s) as [|m q] eqn:E; [congruence |].
  unfold bind at 1, modify.
  apply processQueue_handles_all; assumption.
Qed.

End Loop.

(** *** The ledger under every entry point *)

Lemma ledger_frame_commit (s s' : Schain Node) : ledger_frame s s' -> commit_frame s s'.
Proof.
  unfold ledger_frame, commit_frame. intros H. decompose [and] H. auto.
Qed.

(** Property X11.  No call into a running driver moves the chain backwards
    or skips the host: for each of them, returning or throwing, the last
    committed id does not decrease, stays a [uint64_t], and the host has
    been handed exactly the blocks committed by the call, in order (plus at
    most one for a block whose commit then failed, and none when the call
    returned). *)
Theorem entries_commit_in_order (e : Entry) (s : Schain Node) :
  u64 (lastCommittedBlockID s) -> lastCommittedBlockID s < U64.max ->
  running_entry e ->
  finalize_spec s (returns (fst (enter e s))) (snd (enter e s)) /\
  lastCommittedBlockID s <= lastCommittedBlockID (snd (enter e s)).
Proof.
  intros Hu Hmax He.
  assert (Hframe : forall m : M (Schain Node) unit,
            preserves ledger_frame m ->
            finalize_spec s (returns (fst (m s))) (snd (m s))).
  { intros m Hm. apply finalize_spec_of_frame; [exact Hu |].
    apply ledger_frame_commit. apply preserves_snd. exact Hm. }
  assert (Hspec : finalize_spec s (returns (fst (enter e s))) (snd (enter e s))).
  { destruct e; cbn [enter running_entry] in *.
    - apply Hframe. apply postMessage_frame. exact _.
    - apply Hframe. apply proposedBlockArrived_frame. exact _.
    - apply Hframe. apply startConsensus_frame. exact _.
    - apply Hframe. apply daProofArrived_frame. exact _.
    - apply Hframe. apply daProofSigShareArrived_frame. exact _.
    - apply Hframe. apply proposeNextBlock_frame. exact _.
    - destruct (processCommittedBlock b s) as [o s'] eqn:E.
      apply processCommittedBlock_step in E as [Hspec _]; [exact Hspec | exact Hu | exact Hmax].
    - eapply blockCommitArrived_spec; [exact Hu | exact He | apply surjective_pairing].
    - eapply blockCommitsArrivedThroughCatchup_spec;
        [exact Hu | exact He | apply surjective_pairing].
    - contradiction.
    - eapply finalizeDecidedAndSignedBlock_spec;
        [exact Hu | exact He | apply surjective_pairing]. }
  split; [exact Hspec |].
  unfold finalize_spec in Hspec. destruct Hspec as (Hk & _). lia.
Qed.

End WithNode.

Import Demo Samples MoreSamples.

Lemma processCommittedBlock_counts_witness :
  fst (@processCommittedBlock _ full_disk_services block5 (driver 4 fresh_node))
    = Thrown InvalidStateException /\
  totalTransactions (snd (@processCommittedBlock _ full_disk_services block5
                            (driver 4 fresh_node))) = wrap64 (0 + 2) /\
  lastCommittedBlockID (snd (@processCommittedBlock _ full_disk_services block5
                               (driver 4 fresh_node))) = 4.
Proof.
  destruct (@processCommittedBlock_counts _ full_disk_services block5 (driver 4 fresh_node)
              _ _ (surjective_pairing _)) as [_ Hcount].
  destruct (Hcount eq_refl) as [Htotal Hfail].
  split; [vm_compute; reflexivity |]. split; [exact Htotal |].
  apply Hfail. vm_compute. reflexivity.
Defined.

Lemma catchup_ignores_known_blocks_witness :
  blockCommitsArrivedThroughCatchup [block1; block1] (driver 4 fresh_node)
    = (Returned tt, driver 4 fresh_node) /\
  blockCommitsArrivedThroughCatchup [block100] (driver 4 fresh_node)
    = (Thrown AssertionFailure, driver 4 fresh_node).
Proof.
  destruct (catchup_ignores_known_blocks (driver 4 fresh_node)) as [Hknown Hgap].
  - unfold U64.max, modulus. simpl. lia.
  - split.
    + apply Hknown. repeat constructor; simpl; lia.
    + apply Hgap. simpl. lia.
Defined.

Lemma bootstrap_fails_silently_witness :
  (fst (bootstrap 99 1577836800 (stamped_driver snapshot_node)) = Returned tt /\
   lastCommittedBlockID (snd (bootstrap 99 1577836800 (stamped_driver snapshot_node))) = 4 /\
   exists price,
     createBlockCalls (snd (bootstrap 99 1577836800 (stamped_driver snapshot_node)))
       = [host_call block100 price]) /\
  (fst (bootstrap 0 4000000000 (driver 0 snapshot_node)) = Thrown InvalidStateException /\
   createBlockCalls (snd (bootstrap 0 4000000000 (driver 0 snapshot_node))) = []) /\
  (fst (bootstrap 0 4000000000 (driver 0 fresh_node)) = Returned tt /\
   bootStrapped (snd (bootstrap 0 4000000000 (driver 0 fresh_node))) = true /\
   createBlockCalls (snd (bootstrap 0 4000000000 (driver 0 fresh_node))) = []).
Proof.
  split; [| split].
  - destruct (bootstrap_fails_silently (stamped_driver snapshot_node) 99 1577836800 _ _
                (or_introl eq_refl) (surjective_pairing _)) as ((Hlast & _) & _ & Hhead).
    destruct (Hhead 100 snapshot_node eq_refl eq_refl) as (_ & Hpush).
    destruct (Hpush block100 snapshot_node
                (snd (pushBlockToExtFace block100 (stamped_driver snapshot_node))))
      as (Ho & Hcalls).
    + vm_compute. reflexivity.
    + vm_compute. reflexivity.
    + vm_compute. reflexivity.
    + split; [exact Ho |]. split; [rewrite Hlast; reflexivity |].
      exact (Hcalls eq_refl).
  - assert (Hts : bootStrapped (driver 0 snapshot_node) = true \/
                  wrap64 (2 * MODERN_TIME) <= 4000000000)
      by (right; vm_compute; discriminate).
    destruct (bootstrap_fails_silently (driver 0 snapshot_node) 0 4000000000 _ _
                Hts (surjective_pairing _)) as (_ & _ & Hhead).
    destruct (Hhead 100 snapshot_node eq_refl eq_refl) as (Hother & _).
    destruct Hother as (Hcalls & Ho).
    + vm_compute. discriminate.
    + split; [exact Ho | exact Hcalls].
  - assert (Hts : bootStrapped (driver 0 fresh_node) = true \/
                  wrap64 (2 * MODERN_TIME) <= 4000000000)
      by (right; vm_compute; discriminate).
    destruct (bootstrap_fails_silently (driver 0 fresh_node) 0 4000000000 _ _
                Hts (surjective_pairing _)) as (_ & Hboot & Hhead).
    destruct (Hhead 0 fresh_node eq_refl eq_refl) as (Hother & _).
    destruct Hother as (Hcalls & Ho).
    + vm_compute. discriminate.
    + split; [exact Ho |]. split; [apply Hboot; exact Ho | exact Hcalls].
Defined.

Lemma startConsensus_posts_current_witness :
  messageQueue (snd (startConsensus 5 [true] (driver 4 fresh_node)))
    = [EnvInternal 5 [true]] /\
  messageQueue (snd (startConsensus 9 [true] (driver 4 fresh_node))) = [].
Proof.
  split.
  - destruct (startConsensus_posts_current 5 [true] (driver 4 fresh_node) _ _
                ltac:(simpl; lia) (surjective_pairing _)) as [H | (_ & _ & H)].
    + vm_compute in H. discriminate H.
    + exact H.
  - destruct (startConsensus_posts_current 9 [true] (driver 4 fresh_node) _ _
                ltac:(simpl; lia) (surjective_pairing _)) as [H | (H & _)].
    + exact H.
    + simpl in H. lia.
Defined.

Lemma blockCommitArrived_stores_stamp_witness :
  fst (blockCommitArrived 5 1 1577836900 7 None (driver 4 fresh_node))
    = Thrown InvalidStateException /\
  stamp (snd (blockCommitArrived 5 1 1577836900 7 None (driver 4 fresh_node)))
    = (1577836900, 7).
Proof.
  split; [vm_compute; reflexivity |].
  refine (proj1 (blockCommitArrived_stores_stamp 5 1 1577836900 7 None (driver 4 fresh_node)
                   _ _ eq_refl _ _ _ (surjective_pairing _))).
  - vm_compute. reflexivity.
  - simpl. lia.
  - left. vm_compute. reflexivity.
Defined.

Lemma empty_block_commit_advances_stamp_witness :
  (fst (finalizeDecidedAndSignedBlock 5 0 (Some "threshold signature"%string)
          (stamped_driver node_with_stored_proposal)) = Returned tt /\
   milliseconds (stamp (snd (finalizeDecidedAndSignedBlock 5 0
                               (Some "threshold signature"%string)
                               (stamped_driver node_with_stored_proposal))))
     = milliseconds (1577836800, 250) + 1 /\
   exists price,
     createBlockCalls (snd (finalizeDecidedAndSignedBlock 5 0
                              (Some "threshold signature"%string)
                              (stamped_driver node_with_stored_proposal)))
       = [mkCreateBlockCall [[Byte.x01]; [Byte.x02; Byte.x03]] 9999 7 5 price 0]) /\
  (returns (fst (finalizeDecidedAndSignedBlock 5 0 (Some "threshold signature"%string)
                   (stamped_driver fresh_node))) = false /\
   lastCommittedBlockID (snd (finalizeDecidedAndSignedBlock 5 0
                                (Some "threshold signature"%string)
                                (stamped_driver fresh_node))) = 4).
Proof.
  split.
  - assert (Ho : fst (finalizeDecidedAndSignedBlock 5 0 (Some "threshold signature"%string)
                        (stamped_driver node_with_stored_proposal)) = Returned tt)
      by (vm_compute; reflexivity).
    destruct (empty_block_commit_advances_stamp (fin := demo_finalize) 5
                (Some "threshold signature"%string)
                (stamped_driver node_with_stored_proposal) _ _ eq_refl
                ltac:(simpl; lia) ltac:(unfold U64.max, modulus; simpl; lia)
                ltac:(simpl; lia) (surjective_pairing _)) as (Hstamp & Hdb).
    destruct (Hstamp Ho) as (Hms & _).
    destruct (Hdb _ _ (surjective_pairing _)) as (_ & Hsome).
    split; [exact Ho |]. split; [exact Hms |].
    destruct (Hsome
                (mkBlockProposal 5 0 9999 7 [[Byte.x01]; [Byte.x02; Byte.x03]] "hash"
                   (Some "signature"%string))
                (committed_of
                   (mkBlockProposal 5 0 9999 7 [[Byte.x01]; [Byte.x02; Byte.x03]] "hash"
                      (Some "signature"%string))
                   (Some "threshold signature"%string))
                node_with_stored_proposal eq_refl eq_refl Ho eq_refl) as [price Hp].
    exists price. exact Hp.
  - destruct (empty_block_commit_advances_stamp (fin := demo_finalize) 5
                (Some "threshold signature"%string)
                (stamped_driver fresh_node) _ _ eq_refl
                ltac:(simpl; lia) ltac:(unfold U64.max, modulus; simpl; lia)
                ltac:(simpl; lia) (surjective_pairing _)) as (_ & Hdb).
    destruct (Hdb _ _ (surjective_pairing _)) as (Hnone & _).
    destruct (Hnone eq_refl) as (Hret & Hlast & _).
    split; [exact Hret | exact Hlast].
Defined.

Lemma queue_holds_routable_envelopes_witness :
  Forall routable
    (messageQueue (enter_all [StartConsensus 5 [true]; DaProofArrived (mkDAProof 5 2 "proof")]
                     (driver 4 fresh_node))) /\
  messageQueue (enter_all [StartConsensus 5 [true]; DaProofArrived (mkDAProof 5 2 "proof")]
                  (driver 4 fresh_node)) = [EnvInternal 5 [true]].
Proof.
  split; [| vm_compute; reflexivity].
  refine (proj2 (queue_holds_routable_envelopes
                   [StartConsensus 5 [true]; DaProofArrived (mkDAProof 5 2 "proof")]
                   (driver 4 fresh_node) _)).
  constructor.
Defined.

Lemma busy_driver_routable : Forall routable (messageQueue busy_driver).
Proof. repeat constructor; unfold routable; simpl; lia. Qed.

Lemma demo_route_no_crash m (s : Schain DemoNode) : fst (demo_route m s) <> Thrown Crash.
Proof. destruct m; simpl; discriminate. Qed.

Lemma message_loop_assertion_holds_witness :
  match fst (messageThreadProcessingLoop_turn demo_route busy_driver) with
  | Returned _ => True
  | Thrown e => e = Crash
  end.
Proof.
  exact (message_loop_assertion_holds demo_route busy_driver _ _ busy_driver_routable
           (surjective_pairing _)).
Defined.

Lemma message_loop_handles_all_witness :
  messageThreadProcessingLoop_turn demo_route busy_driver =
    (Returned Next, set_bootstrapBlockID 5 (set_messageQueue [] busy_driver)).
Proof.
  refine (message_loop_handles_all demo_route busy_driver demo_running demo_route_no_crash
            busy_driver_routable _).
  discriminate.
Defined.

Lemma entries_commit_in_order_witness :
  finalize_spec (driver 4 node_with_proposal) true
    (snd (enter (FinalizeDecided 5 1 (Some "threshold signature"%string))
            (driver 4 node_with_proposal))) /\
  created (snd (enter (FinalizeDecided 5 1 (Some "threshold signature"%string))
                  (driver 4 node_with_proposal))) = [5].
Proof.
  split; [| vm_compute; reflexivity].
  refine (proj1 (entries_commit_in_order (FinalizeDecided 5 1 (Some "threshold signature"%string))
                   (driver 4 node_with_proposal) _ _ _)).
  - unfold u64, modulus. simpl. lia.
  - unfold U64.max, modulus. simpl. lia.
  - unfold running_entry, u64, modulus. lia.
Defined.

End DriverExtra.

(** ** The deferred queue *)

Module DeferralFacts.
Import Driver Transport Deferral EffFacts.

Section Entries.

#[local] Instance key_le_total : Total key_le.
Proof. intros a b. unfold key_le. lia. Qed.

#[local] Instance key_le_trans : Transitive key_le.
Proof. intros a b c. unfold key_le. lia. Qed.

Lemma entries_elem q (k : Z) (l : list NetworkMessageEnvelope) :
  (k, l) ∈ entries q <-> q !! k = Some l.
Proof.
  unfold entries. rewrite merge_sort_Permutation. apply elem_of_map_to_list.
Qed.

Lemma entries_sorted q : StronglySorted key_le (entries q).
Proof. apply StronglySorted_merge_sort; exact _. Qed.

Lemma entries_NoDup q : NoDup ((entries q).*1).
Proof.
  unfold entries. rewrite merge_sort_Permutation. apply NoDup_fst_map_to_list.
Qed.

Lemma taken_elem b q (k : Z) (l : list NetworkMessageEnvelope) :
  (k, l) ∈ taken b q <-> q !! k = Some l /\ k <= b.
Proof.
  unfold taken. rewrite list_elem_of_In, filter_In, <- list_elem_of_In, entries_elem.
  simpl. rewrite Z.leb_le. reflexivity.
Qed.

Lemma filter_keeps_sorted {A} (R : relation A) (f : A -> bool) (l : list A) :
  StronglySorted R l -> StronglySorted R (List.filter f l).
Proof.
  induction 1 as [|x l Hl IH Hx]; simpl; [constructor |].
  destruct (f x); [| exact IH].
  constructor; [exact IH |].
  apply Forall_forall. intros y Hy.
  apply list_elem_of_In, filter_In in Hy as [Hy _].
  rewrite Forall_forall in Hx. apply Hx. apply list_elem_of_In. exact Hy.
Qed.

Lemma filter_keeps_NoDup_keys {A B} (f : A * B -> bool) (l : list (A * B)) :
  NoDup (l.*1) -> NoDup ((List.filter f l).*1).
Proof.
  induction l as [|x l IH]; simpl; [constructor |].
  rewrite NoDup_cons. intros [Hx Hl].
  destruct (f x); [| apply IH; exact Hl].
  cbn [fmap list_fmap]. apply NoDup_cons. split; [| apply IH; exact Hl].
  intros Hin. apply Hx.
  apply list_elem_of_fmap in Hin as (y & -> & Hy).
  apply list_elem_of_fmap. exists y. split; [reflexivity |].
  apply list_elem_of_In, filter_In in Hy as [Hy _]. apply list_elem_of_In. exact Hy.
Qed.

Lemma taken_sorted b q : StronglySorted key_le (taken b q).
Proof. apply filter_keeps_sorted, entries_sorted. Qed.

Lemma taken_NoDup b q : NoDup ((taken b q).*1).
Proof. apply filter_keeps_NoDup_keys, entries_NoDup. Qed.


Lemma same_key_sorted k (l : list NetworkMessageEnvelope) :
  Forall (fun m => key_of m = k) l -> in_key_order l.
Proof.
  unfold in_key_order. induction 1 as [|m l Hm Hl IH]; constructor; [exact IH |].
  eapply Forall_impl; [exact Hl |]. intros m' Hm'. cbv beta in *. lia.
Qed.

Lemma concat_in_key_order es :
  StronglySorted key_le es -> keyed es -> in_key_order (concat (map snd es)).
Proof.
  unfold keyed. induction 1 as [|e es Hes IH He]; intros Hk; simpl.
  - constructor.
  - inversion Hk as [|e' es' Hke Hkes]; subst.
    apply StronglySorted_app_2.
    + intros m1 m2 H1 H2.
      apply list_elem_of_In, in_concat in H2 as (l2 & Hl2 & H2).
      apply in_map_iff in Hl2 as (e2 & <- & He2).
      rewrite Forall_forall in He. specialize (He e2 (proj2 (list_elem_of_In _ _) He2)).
      rewrite Forall_forall in Hke. specialize (Hke m1 H1).
      rewrite Forall_forall in Hkes.
      specialize (Hkes e2 (proj2 (list_elem_of_In _ _) He2)).
      rewrite Forall_forall in Hkes.
      specialize (Hkes m2 (proj2 (list_elem_of_In _ _) H2)).
      unfold key_le in He. cbv beta in *. lia.
    + eapply same_key_sorted. exact Hke.
    + apply IH. exact Hkes.
Qed.

Lemma of_key_same k (l : list NetworkMessageEnvelope) :
  Forall (fun m => key_of m = k) l -> of_key k l = l.
Proof.
  unfold of_key. induction 1 as [|m l Hm Hl IH]; [reflexivity |].
  rewrite filter_cons_True by exact Hm. rewrite IH. reflexivity.
Qed.

Lemma of_key_other k k' (l : list NetworkMessageEnvelope) :
  k' <> k -> Forall (fun m => key_of m = k') l -> of_key k l = [].
Proof.
  unfold of_key. intros Hne. induction 1 as [|m l Hm Hl IH]; [reflexivity |].
  rewrite filter_cons_False by (cbv beta in *; lia). exact IH.
Qed.

Lemma of_key_app k (l1 l2 : list NetworkMessageEnvelope) :
  of_key k (l1 ++ l2) = of_key k l1 ++ of_key k l2.
Proof. apply filter_app. Qed.

Lemma of_key_concat_absent k es :
  keyed es -> k ∉ es.*1 -> of_key k (concat (map snd es)) = [].
Proof.
  unfold keyed. induction 1 as [|e es He Hes IH]; intros Hk; simpl; [reflexivity |].
  rewrite of_key_app. cbn [fmap list_fmap] in Hk. apply not_elem_of_cons in Hk as [Hne Hk].
  rewrite (of_key_other k (fst e)) by (auto). apply IH. exact Hk.
Qed.

Lemma of_key_concat k l es :
  keyed es -> NoDup (es.*1) -> (k, l) ∈ es -> of_key k (concat (map snd es)) = l.
Proof.
  unfold keyed. induction 1 as [|e es He Hes IH]; intros Hnd Hin; simpl.
  - inversion Hin.
  - cbn [fmap list_fmap] in Hnd. apply NoDup_cons in Hnd as [Hfresh Hnd].
    rewrite of_key_app. apply elem_of_cons in Hin as [<- | Hin].
    + simpl in *. rewrite of_key_same by exact He.
      rewrite of_key_concat_absent; [apply app_nil_r | exact Hes | exact Hfresh].
    + rewrite (of_key_other k (fst e)).
      * apply IH; assumption.
      * intros E. apply Hfresh. apply list_elem_of_fmap. exists (k, l).
        split; [exact E | exact Hin].
      * exact He.
Qed.

Lemma taken_keyed b q : well_keyed q -> keyed (taken b q).
Proof.
  intros Hq. unfold keyed. apply Forall_forall. intros [k l] Hin.
  apply taken_elem in Hin as [Hl _]. exact (Hq k l Hl).
Qed.

End Entries.

Section WithNode.
Context {Node : Type} {svc : NodeServices Node} {net : NetServices Node}.

Lemma pullMessagesForBlockID_run b (t : TransportNetwork Node) :
  pullMessagesForBlockID b t =
    (Returned (concat (map snd (taken b (deferredMessageQueue t)))),
     set_deferredMessageQueue
       (filter (fun e => ~ (fst e <= b)) (deferredMessageQueue t)) t).
Proof. reflexivity. Qed.

Lemma left_lookup b (q : gmap Z (list NetworkMessageEnvelope)) k l :
  filter (fun e => ~ (fst e <= b)) q !! k = Some l <-> q !! k = Some l /\ b < k.
Proof. rewrite map_lookup_filter_Some. simpl. split; intros [H1 H2]; (split; [exact H1 | lia]). Qed.

Lemma taken_nothing b (q : gmap Z (list NetworkMessageEnvelope)) :
  (forall k l, q !! k = Some l -> b < k) -> taken b q = [].
Proof.
  intros Hq. unfold taken.
  assert (H : forall e, e ∈ entries q -> b < fst e).
  { intros [k l] He. apply entries_elem in He. simpl. eauto. }
  induction (entries q) as [|e es IH]; [reflexivity |]. simpl.
  replace (fst e <=? b) with false
    by (symmetry; apply Z.leb_gt; apply H; left).
  apply IH. intros e' He'. apply H. right. exact He'.
Qed.

(** Property X12.  [pullMessagesForBlockID b] splits the deferred queue at
    [b]: it returns exactly the envelopes stored under keys up to [b], keeps
    exactly the entries of greater key, each with its list unchanged, and a
    second pull for the same block returns nothing and changes nothing. *)
Theorem pullMessagesForBlockID_partitions b (t : TransportNetwork Node) :
  exists returned left,
    pullMessagesForBlockID b t = (Returned returned, set_deferredMessageQueue left t) /\
    (forall m, m ∈ returned <->
       exists k l, deferredMessageQueue t !! k = Some l /\ k <= b /\ m ∈ l) /\
    (forall k l, left !! k = Some l <-> deferredMessageQueue t !! k = Some l /\ b < k) /\
    pullMessagesForBlockID b (set_deferredMessageQueue left t)
      = (Returned [], set_deferredMessageQueue left t).
Proof.
  eexists. eexists. split; [apply pullMessagesForBlockID_run |].
  split; [| split].
  - intros m. rewrite list_elem_of_In, in_concat. split.
    + intros (l & Hl & Hm). apply in_map_iff in Hl as ([k l'] & <- & He).
      apply list_elem_of_In, taken_elem in He as [Hq Hk].
      exists k, l'. split; [exact Hq |]. split; [exact Hk |]. apply list_elem_of_In. exact Hm.
    + intros (k & l & Hq & Hk & Hm). exists l. split; [| apply list_elem_of_In; exact Hm].
      apply in_map_iff. exists (k, l). split; [reflexivity |].
      apply list_elem_of_In, taken_elem. split; assumption.
  - intros k l. apply left_lookup.
  - rewrite pullMessagesForBlockID_run. cbn [deferredMessageQueue set_deferredMessageQueue].
    rewrite taken_nothing by (intros k l Hl; apply left_lookup in Hl as [_ Hk]; exact Hk).
    f_equal. unfold set_deferredMessageQueue. cbn. f_equal.
    apply map_eq. intros k. apply option_eq. intros l.
    rewrite left_lookup, left_lookup. tauto.
Qed.

Lemma left_well_keyed b (q : gmap Z (list NetworkMessageEnvelope)) :
  well_keyed q -> well_keyed (filter (fun e => ~ (fst e <= b)) q).
Proof. intros Hq k l Hl. apply left_lookup in Hl as [Hl _]. exact (Hq k l Hl). Qed.

Lemma pulled_in_order b (q : gmap Z (list NetworkMessageEnvelope)) :
  well_keyed q ->
  in_key_order (concat (map snd (taken b q))) /\
  forall k, of_key k (concat (map snd (taken b q))) =
    if bool_decide (k <= b) then default [] (q !! k) else [].
Proof.
  intros Hq. pose proof (taken_keyed b _ Hq) as Hkeyed. split.
  - apply concat_in_key_order; [apply taken_sorted | exact Hkeyed].
  - intros k. destruct (q !! k) as [l|] eqn:Hl.
    + case_bool_decide as Hk; simpl.
      * apply of_key_concat; [exact Hkeyed | apply taken_NoDup |].
        apply taken_elem. split; assumption.
      * apply of_key_concat_absent; [exact Hkeyed |].
        intros Hin. apply list_elem_of_fmap in Hin as ([k' l'] & -> & He).
        apply taken_elem in He as [_ Hk']. simpl in Hk. lia.
    + assert (Hno : of_key k (concat (map snd (taken b q))) = []).
      { apply of_key_concat_absent; [exact Hkeyed |].
        intros Hin. apply list_elem_of_fmap in Hin as ([k' l'] & -> & He).
        apply taken_elem in He as [He _]. simpl in Hl. congruence. }
      rewrite Hno. case_bool_decide; reflexivity.
Qed.

(** The queue after [addToDeferredMessageQueue]. *)
Lemma deferred_lookup (q : gmap Z (list NetworkMessageEnvelope)) me k :
  <[key_of me := default [] (q !! key_of me) ++ [me]]> q !! k =
    if bool_decide (k = key_of me) then Some (default [] (q !! k) ++ [me]) else q !! k.
Proof.
  case_bool_decide as E.
  - subst k. apply lookup_insert_eq.
  - apply lookup_insert_ne. congruence.
Qed.

Lemma deferred_well_keyed (q : gmap Z (list NetworkMessageEnvelope)) me :
  well_keyed q -> well_keyed (<[key_of me := default [] (q !! key_of me) ++ [me]]> q).
Proof.
  intros Hq k l. rewrite deferred_lookup. case_bool_decide as E.
  - intros [= <-]. apply Forall_app. split.
    + destruct (q !! k) as [l0|] eqn:Hl; simpl; [exact (Hq k l0 Hl) | constructor].
    + constructor; [symmetry; exact E | constructor].
  - apply Hq.
Qed.

Lemma deferred_of_key (q : gmap Z (list NetworkMessageEnvelope)) me k :
  default [] (<[key_of me := default [] (q !! key_of me) ++ [me]]> q !! k) =
    default [] (q !! k) ++ of_key k [me].
Proof.
  rewrite deferred_lookup. unfold of_key. case_bool_decide as E.
  - rewrite filter_cons_True by (symmetry; exact E). reflexivity.
  - rewrite filter_cons_False by congruence. rewrite filter_nil, app_nil_r. reflexivity.
Qed.

Lemma for_each_deferred ms : forall t : TransportNetwork Node,
  well_keyed (deferredMessageQueue t) ->
  exists q,
    for_each ms addToDeferredMessageQueue t = (Returned tt, set_deferredMessageQueue q t) /\
    well_keyed q /\
    forall k, default [] (q !! k) = default [] (deferredMessageQueue t !! k) ++ of_key k ms.
Proof.
  induction ms as [|me ms IH]; intros t Hq.
  - exists (deferredMessageQueue t). split; [destruct t; reflexivity |].
    split; [exact Hq |]. intros k. rewrite app_nil_r. reflexivity.
  - cbn [for_each]. unfold bind at 1, addToDeferredMessageQueue at 1, modify. cbv zeta.
    fold (key_of me).
    set (t1 := set_deferredMessageQueue _ t).
    destruct (IH t1) as (q & Hrun & Hwk & Hkeys).
    { apply deferred_well_keyed. exact Hq. }
    exists q. split; [rewrite Hrun; reflexivity |]. split; [exact Hwk |].
    intros k. rewrite Hkeys. subst t1. cbn [deferredMessageQueue set_deferredMessageQueue].
    rewrite deferred_of_key, <- app_assoc. f_equal.
    change (me :: ms) with ([me] ++ ms). rewrite of_key_app. reflexivity.
Qed.

(** Property X13.  Envelopes deferred with [addToDeferredMessageQueue] come
    back from [pullMessagesForBlockID b] sorted by block id, and within one
    block id in the order in which they were deferred, after those already
    queued for that id; the envelopes of block ids beyond [b] are not
    returned and stay queued under their own ids. *)
Theorem deferred_envelopes_return_in_order ms b (t : TransportNetwork Node) :
  well_keyed (deferredMessageQueue t) ->
  exists t1 returned,
    for_each ms addToDeferredMessageQueue t = (Returned tt, t1) /\
    fst (pullMessagesForBlockID b t1) = Returned returned /\
    in_key_order returned /\
    (forall k, of_key k returned =
       if bool_decide (k <= b)
       then default [] (deferredMessageQueue t !! k) ++ of_key k ms
       else []) /\
    well_keyed (deferredMessageQueue (snd (pullMessagesForBlockID b t1))) /\
    (forall k, b < k ->
       default [] (deferredMessageQueue (snd (pullMessagesForBlockID b t1)) !! k) =
         default [] (deferredMessageQueue t !! k) ++ of_key k ms).
Proof.
  intros Hq. destruct (for_each_deferred ms t Hq) as (q & Hrun & Hwk & Hkeys).
  exists (set_deferredMessageQueue q t).
  exists (concat (map snd (taken b q))).
  destruct (pulled_in_order b q Hwk) as [Hsorted Hof].
  split; [exact Hrun |]. split; [reflexivity |]. split; [exact Hsorted |].
  split.
  - intros k. rewrite <- Hkeys. apply Hof.
  - split; [apply left_well_keyed; exact Hwk |].
    intros k Hk. rewrite <- Hkeys, pullMessagesForBlockID_run.
    cbn [snd deferredMessageQueue set_deferredMessageQueue].
    assert (E : filter (fun e => ~ (fst e <= b)) q !! k = q !! k).
    { apply option_eq. intros l. rewrite left_lookup. split; [tauto |].
      intros Hl. split; [exact Hl | exact Hk]. }
    rewrite E. reflexivity.
Qed.

End WithNode.

Import Demo Samples TransportSamples.

Lemma deferred_envelopes_return_in_order_witness :
  exists t1 returned,
    for_each mixed_envelopes addToDeferredMessageQueue idle_transport = (Returned tt, t1) /\
    fst (pullMessagesForBlockID 9 t1) = Returned returned /\
    in_key_order returned /\
    (forall k, of_key k returned =
       if bool_decide (k <= 9)
       then default [] (deferredMessageQueue idle_transport !! k) ++ of_key k mixed_envelopes
       else []) /\
    well_keyed (deferredMessageQueue (snd (pullMessagesForBlockID 9 t1))) /\
    (forall k, 9 < k ->
       default [] (deferredMessageQueue (snd (pullMessagesForBlockID 9 t1)) !! k) =
         default [] (deferredMessageQueue idle_transport !! k) ++ of_key k mixed_envelopes).
Proof.
  apply (deferred_envelopes_return_in_order mixed_envelopes 9 idle_transport).
  intros k l H. cbn in H. rewrite lookup_empty in H. discriminate.
Defined.

End DeferralFacts.

(** ** The message a broadcast shares *)

Module BroadcastFacts.
Import Driver Transport Addressing EffFacts.
Section WithNode.
Context {Node : Type} {svc : NodeServices Node} {net : NetServices Node}.
Variable m : positive.

Lemma with_dstNodeID_twice d1 d2 x :
  with_dstNodeID d2 (with_dstNodeID d1 x) = with_dstNodeID d2 x.
Proof. reflexivity. Qed.

Lemma with_dstNodeID_same x : with_dstNodeID (nm_dstNodeID x) x = x.
Proof. destruct x. reflexivity. Qed.

Section Invariant.
Variable base : NetworkMessage.

#[local] Instance readdressed_preorder : PreOrder (@readdressed Node m base).
Proof.
  split.
  - intros t. unfold readdressed. auto.
  - intros t1 t2 t3 (A1 & A2 & A3 & A4) (B1 & B2 & B3 & B4). unfold readdressed.
    repeat split; try congruence. auto.
Qed.

Lemma readdressed_same_heap (t t' : TransportNetwork Node) :
  nodeInfosByIndex t' = nodeInfosByIndex t -> nodeCount t' = nodeCount t ->
  schainIndex (sChain t') = schainIndex (sChain t) -> heap t' = heap t ->
  readdressed m base t t'.
Proof. intros H1 H2 H3 H4. unfold readdressed. rewrite H4. auto. Qed.

Lemma readdressed_deref p : preserves (@readdressed Node m base) (deref p).
Proof.
  intros t o t' H. unfold deref in H.
  destruct (heap t !! p); inversion H; subst; reflexivity.
Qed.

Lemma readdressed_getSchainIndex ni : preserves (@readdressed Node m base) (getSchainIndex ni).
Proof.
  unfold getSchainIndex. apply preserves_bind; [exact _ | apply preserves_ASSERT; exact _ |].
  intros _. apply preserves_ret. exact _.
Qed.

Lemma readdressed_setDstNodeID d : preserves (@readdressed Node m base) (setDstNodeID m d).
Proof.
  intros t o t' H. unfold setDstNodeID, bind, deref, modify in H.
  destruct (heap t !! m) as [x|] eqn:Hx; inversion H; subst; [| reflexivity].
  unfold readdressed. cbn. repeat split; try reflexivity.
  intros (d0 & Hd). rewrite Hd in Hx. inversion Hx; subst x.
  exists d. rewrite lookup_insert_eq. reflexivity.
Qed.

Lemma readdressed_send {A} (f : M Node A) : preserves (@readdressed Node m base) (onChain (call f)).
Proof.
  intros t o t' H. unfold onChain, call in H.
  destruct (f (node (sChain t))) as [o1 n]. inversion H; subst.
  apply readdressed_same_heap; reflexivity.
Qed.

Lemma readdressed_push_delayed i e : preserves (@readdressed Node m base) (push_delayed i e).
Proof.
  intros t o t' H. unfold push_delayed in H.
  destruct (delayedSends t !! Z.to_nat i); inversion H; subst; [| reflexivity].
  apply readdressed_same_heap; reflexivity.
Qed.

Ltac addr_step :=
  first
    [ exact _
    | match goal with |- forall _, _ => intro end
    | apply preserves_ret | apply preserves_throw | apply preserves_gets
    | apply preserves_ASSERT | apply readdressed_deref | apply readdressed_getSchainIndex
    | apply readdressed_setDstNodeID | apply readdressed_send | apply readdressed_push_delayed
    | apply preserves_bind
    | match goal with
      | |- preserves _ (if ?b then _ else _) => destruct b
      | |- preserves _ (match ?x with _ => _ end) => destruct x
      end ].

Lemma readdressed_sendRound nodes : forall sent,
  preserves (@readdressed Node m base) (sendRound nodes m sent).
Proof.
  induction nodes as [|it rest IH]; intros sent; cbn [sendRound].
  - apply preserves_ret. exact _.
  - repeat first [apply IH | addr_step].
Qed.

Lemma readdressed_quorumLoop fuel : forall sent,
  preserves (@readdressed Node m base) (quorumLoop fuel m sent).
Proof.
  induction fuel as [|fuel IH]; intros sent; cbn [quorumLoop].
  - repeat addr_step.
  - repeat first [apply IH | apply readdressed_sendRound | addr_step].
Qed.

Lemma readdressed_delayUnsent nodes sent :
  preserves (@readdressed Node m base) (delayUnsent nodes m sent).
Proof.
  induction nodes as [|it rest IH]; cbn [delayUnsent].
  - apply preserves_ret. exact _.
  - repeat first [apply IH | addr_step].
Qed.

End Invariant.

Lemma confirmAll_effect nodes : forall (t : TransportNetwork Node) x t',
  heap t !! m = Some x ->
  confirmAll nodes m t = (Returned tt, t') ->
  heap t' !! m =
    Some (with_dstNodeID
            (last_destination (schainIndex (sChain t)) nodes (nm_dstNodeID x)) x).
Proof.
  induction nodes as [|it rest IH]; intros t x t' Hx H.
  - inversion H; subst. cbn. rewrite with_dstNodeID_same. exact Hx.
  - cbn [confirmAll last_destination fold_left] in *.
    unfold bind at 1, getSchainIndex, bind at 1, ASSERT in H.
    destruct (0 <? ni_schainIndex it); [| discriminate].
    cbn [ret] in H. unfold bind at 1, gets at 1 in H.
    destruct (negb (ni_schainIndex it =? schainIndex (sChain t))) eqn:E.
    + unfold bind at 1, setDstNodeID, bind at 1, deref, modify in H. rewrite Hx in H.
      apply (IH _ (with_dstNodeID (ni_nodeID it) x)) in H;
        [| cbn; apply lookup_insert_eq].
      exact H.
    + unfold bind at 1, ret at 1 in H. apply (IH _ x) in H; [exact H | exact Hx].
Qed.

(** Property X14.  [broadcastMessage] does not give the message back as it
    got it: when it returns for a block beyond the catch-up limit, the
    shared message carries this node's address and its destination is the
    node id of the last peer other than this node (the destination the
    caller had set survives only when there is no such peer), although
    [oldID] is restored just before the last loop. *)
Theorem broadcast_readdresses_to_last_peer fuel (t : TransportNetwork Node) msg t' :
  heap t !! m = Some msg ->
  catchupBlocks t < nm_blockID msg ->
  broadcastMessage fuel m t = (Returned (Some tt), t') ->
  heap t' !! m =
    Some (with_dstNodeID
            (last_destination (schainIndex (sChain t)) (nodeInfosByIndex t)
               (nm_dstNodeID msg))
            (with_ip (thisNodeIP t) msg)).
Proof.
  intros Hm Hcb H. unfold broadcastMessage in H.
  unfold bind at 1, deref at 1 in H. rewrite Hm in H.
  unfold bind at 1, gets at 1 in H.
  destruct (nm_blockID msg <=? catchupBlocks t) eqn:E; [apply Z.leb_le in E; lia |].
  unfold bind at 1, gets at 1 in H.
  unfold bind at 1, setIp, bind at 1, deref at 1, modify in H. rewrite Hm in H.
  set (base := with_ip (thisNodeIP t) msg) in *.
  set (t0 := set_heap (<[m:=base]> (heap t)) t) in *.
  assert (H0 : heap t0 !! m = Some base) by (cbn; apply lookup_insert_eq).
  unfold bind at 1, deref at 1 in H. rewrite H0 in H.
  unfold bind at 1 in H.
  destruct (quorumLoop fuel m ∅ t0) as [[r|e] t1] eqn:Hq; [| discriminate].
  pose proof (readdressed_quorumLoop base fuel ∅ _ _ _ Hq) as (Q1 & Q2 & Q3 & Q4).
  destruct r as [sent|]; [| discriminate].
  unfold bind at 1, gets at 1 in H. unfold bind at 1, gets at 1 in H.
  unfold bind at 1 in H.
  destruct ((if wrap64 (Z.of_nat (size sent) + 1) <? nodeCount t1
             then delayUnsent (nodeInfosByIndex t1) m sent else ret tt) t1)
    as [[[]|e] t2] eqn:Hd; [| discriminate].
  assert (D : readdressed m base t1 t2).
  { destruct (wrap64 (Z.of_nat (size sent) + 1) <? nodeCount t1).
    - exact (readdressed_delayUnsent base _ _ _ _ _ Hd).
    - inversion Hd; subst. unfold readdressed. auto. }
  destruct D as (D1 & D2 & D3 & D4).
  destruct D4 as [d Hd2].
  { apply Q4. exists (nm_dstNodeID msg). rewrite H0.
    rewrite <- (with_dstNodeID_same base) at 1. reflexivity. }
  unfold bind at 1, setDstNodeID at 1, bind at 1, deref at 1, modify in H.
  rewrite Hd2 in H. rewrite with_dstNodeID_twice in H.
  change (nm_dstNodeID base) with (nm_dstNodeID msg) in H.
  unfold bind at 1 in H.
  match type of H with
  | context [confirmAll ?ns m ?st] =>
      destruct (confirmAll ns m st) as [[[]|e] t3] eqn:Hc; [| discriminate]
  end.
  inversion H; subst t'.
  apply (confirmAll_effect _ _ (with_dstNodeID (nm_dstNodeID msg) base)) in Hc;
    [| cbn; apply lookup_insert_eq].
  rewrite Hc. cbn [sChain set_heap].
  change (nm_dstNodeID (with_dstNodeID (nm_dstNodeID msg) base)) with (nm_dstNodeID msg).
  rewrite with_dstNodeID_twice.
  replace (schainIndex (sChain t2)) with (schainIndex (sChain t))
    by (rewrite D3, Q3; reflexivity).
  replace (nodeInfosByIndex t1) with (nodeInfosByIndex t) by (rewrite Q1; reflexivity).
  reflexivity.
Qed.

End WithNode.

Import Demo Samples TransportSamples.

Lemma broadcast_readdresses_to_last_peer_witness :
  heap (snd (broadcastMessage 1 1%positive idle_transport)) !! 1%positive =
    Some (with_dstNodeID
            (last_destination (schainIndex (sChain idle_transport))
               (nodeInfosByIndex idle_transport) (nm_dstNodeID (aux_message 6 0)))
            (with_ip (thisNodeIP idle_transport) (aux_message 6 0))).
Proof.
  apply (broadcast_readdresses_to_last_peer 1%positive 1 idle_transport (aux_message 6 0)).
  - vm_compute. reflexivity.
  - vm_compute. reflexivity.
  - vm_compute. reflexivity.
Defined.

End BroadcastFacts.
